(** * AstroDynamicsEngine: Barnes-Hut quadtree and RK4 integrator

    A shallow embedding of [src/BarnesHut.h] (the quadtree, its force
    traversal and [BarnesHutForceCalculator]) and of the integration core of
    [src/main.cpp] ([Particle] with its [updateTrail],
    [RungeKuttaIntegrator] and the all-pairs
    [NBodySimulation::computeForces]).

    Numbers.  The program computes in C++ [float].  Every function below is
    written once, over an interface [Scalar] that lists the literals,
    operations and comparisons the source uses.  The instance the program
    runs on is [Binary32]: IEEE-754 single precision as specified by the
    Standard Library's [SpecFloat] (24-bit significand, round to nearest
    even, every operation rounded on its own).  Facts that depend only on
    the control flow are proved once for every instance; facts about
    numbers are proved for [Binary32].

    Memory.  The tree stores [const Particle*] into the vector it was built
    from.  A pointer is modelled as the index of the particle in that vector
    and the vector is passed along as the store the pointers are read
    through.

    Partiality.  [insert] and [subdivide] call each other without a bound on
    the depth, so they take fuel; reading an element that a vector does not
    have is undefined behaviour in C++.  Both are results of their own. *)

From Stdlib Require Import List Bool Arith ZArith Lia.
From Stdlib Require Import SpecFloat.
Import ListNotations.

Set Implicit Arguments.

(** ** Results of a computation *)

Inductive result (A : Type) : Type :=
| Ok (a : A)
| OutOfFuel
| Undefined.

Arguments Ok {A} a.
Arguments OutOfFuel {A}.
Arguments Undefined {A}.

Definition bind {A B : Type} (r : result A) (k : A -> result B) : result B :=
  match r with
  | Ok a => k a
  | OutOfFuel => OutOfFuel
  | Undefined => Undefined
  end.

Declare Scope result_scope.
Delimit Scope result_scope with result.
Notation "x <- e ;; k" := (bind e (fun x => k))
  (at level 61, e at next level, right associativity) : result_scope.
Notation "' p <- e ;; k" := (bind e (fun p => k))
  (at level 61, p pattern, e at next level, right associativity) : result_scope.
Local Open Scope result_scope.

(** [v[i]] on a [std::vector]: undefined behaviour out of range. *)
Definition at_index {A : Type} (v : list A) (i : nat) : result A :=
  match nth_error v i with
  | Some a => Ok a
  | None => Undefined
  end.

(** [v[i] = a] on a [std::vector]. *)
Fixpoint set_index {A : Type} (v : list A) (i : nat) (a : A) : result (list A) :=
  match v, i with
  | [], _ => Undefined
  | _ :: v', O => Ok (a :: v')
  | b :: v', S i' => v'' <- set_index v' i' a ;; Ok (b :: v'')
  end.

(** A [for] loop over a range of indices whose body may fail. *)
Fixpoint for_each {I S : Type} (range : list I) (body : I -> S -> result S) (s : S)
  : result S :=
  match range with
  | [] => Ok s
  | i :: range' => s' <- body i s ;; for_each range' body s'
  end.

(** ** The scalar type *)

Class Scalar : Type := {
  num : Type;
  lit_0 : num;          (* 0, 0.0f *)
  lit_0_5 : num;        (* 0.5f *)
  lit_0_6 : num;        (* 0.6f *)
  lit_2 : num;          (* 2.0f *)
  lit_6 : num;          (* 6.0f *)
  fadd : num -> num -> num;
  fsub : num -> num -> num;
  fmul : num -> num -> num;
  fdiv : num -> num -> num;
  fneg : num -> num;
  flt : num -> num -> bool;   (* a < b *)
  fle : num -> num -> bool;   (* a <= b *)
  feq : num -> num -> bool    (* a == b *)
}.

Class Sqrt (S : Scalar) : Type := fsqrt : num -> num.   (* std::sqrt *)

Declare Scope num_scope.
Delimit Scope num_scope with num.
Notation "a + b" := (fadd a b) : num_scope.
Notation "a - b" := (fsub a b) : num_scope.
Notation "a * b" := (fmul a b) : num_scope.
Notation "a / b" := (fdiv a b) : num_scope.
Notation "- a" := (fneg a) : num_scope.
Notation "a <? b" := (flt a b) : num_scope.
Notation "a <=? b" := (fle a b) : num_scope.
Notation "a >? b" := (flt b a) : num_scope.
Notation "a >=? b" := (fle b a) : num_scope.
Notation "a ==? b" := (feq a b) (at level 70) : num_scope.

(** [std::min(a, b)] is [(b < a) ? b : a] and [std::max(a, b)] is
    [(a < b) ? b : a]. *)
Definition std_min {S : Scalar} (a b : num) : num := if (b <? a)%num then b else a.
Definition std_max {S : Scalar} (a b : num) : num := if (a <? b)%num then b else a.

(** ** [sf::Vector2f] and its operators, componentwise as in SFML *)

Module sf.
Section Vector2.
Context {S : Scalar}.

Record Vector2f : Type := Vec { x : num; y : num }.

Definition zero : Vector2f := Vec lit_0 lit_0.
Definition add (l r : Vector2f) : Vector2f := Vec (x l + x r)%num (y l + y r)%num.
Definition sub (l r : Vector2f) : Vector2f := Vec (x l - x r)%num (y l - y r)%num.
(* operator*(Vector2f left, float right) *)
Definition scale (l : Vector2f) (r : num) : Vector2f := Vec (x l * r)%num (y l * r)%num.
(* operator*(float left, Vector2f right) *)
Definition lscale (l : num) (r : Vector2f) : Vector2f := Vec (x r * l)%num (y r * l)%num.
(* operator/(Vector2f left, float right) *)
Definition div (l : Vector2f) (r : num) : Vector2f := Vec (x l / r)%num (y l / r)%num.
End Vector2.
End sf.

Declare Scope vec_scope.
Delimit Scope vec_scope with vec.
Notation "a + b" := (sf.add a b) : vec_scope.
Notation "a - b" := (sf.sub a b) : vec_scope.
Notation "a *: b" := (sf.scale a b) (at level 40, left associativity) : vec_scope.
Notation "a :* b" := (sf.lscale a b) (at level 40, left associativity) : vec_scope.
Notation "a /: b" := (sf.div a b) (at level 40, left associativity) : vec_scope.

(** ** [Particle] ([src/main.cpp]); colour, name and trail are drawing data
    that the force and integration code never reads. *)

Record Particle {S : Scalar} : Type := mkParticle {
  position : sf.Vector2f;
  velocity : sf.Vector2f;
  acceleration : sf.Vector2f;
  mass : num;
  fixed : bool
}.

(** [const Particle*]: the index of the particle in the vector given to
    [build]. *)
Definition ParticlePtr : Type := nat.

Section QuadTree.
Context {S : Scalar}.

(** *** [QuadTreeNode::Boundary] *)

Record Boundary : Type := mkBoundary { center : sf.Vector2f; halfSize : num }.

Definition contains (b : Boundary) (point : sf.Vector2f) : bool :=
  (sf.x point >=? sf.x (center b) - halfSize b)%num &&
  (sf.x point <=? sf.x (center b) + halfSize b)%num &&
  (sf.y point >=? sf.y (center b) - halfSize b)%num &&
  (sf.y point <=? sf.y (center b) + halfSize b)%num.

Definition intersects (b other : Boundary) : bool :=
  negb ((sf.x (center other) - halfSize other >? sf.x (center b) + halfSize b)%num ||
        (sf.x (center other) + halfSize other <? sf.x (center b) - halfSize b)%num ||
        (sf.y (center other) - halfSize other >? sf.y (center b) + halfSize b)%num ||
        (sf.y (center other) + halfSize other <? sf.y (center b) - halfSize b)%num).

(** *** [QuadTreeNode]

    [isLeaf] and the four [children] change together, in [subdivide] and
    nowhere else: a node is a leaf with four null children or an internal
    node with four children (NE, NW, SE, SW).  Both shapes carry the
    fields [boundary], [particles], [centerOfMass] and [totalMass]. *)

Inductive QuadTreeNode : Type :=
| Leaf (boundary : Boundary) (particles : list ParticlePtr)
       (centerOfMass : sf.Vector2f) (totalMass : num)
| Internal (boundary : Boundary) (particles : list ParticlePtr)
           (child0 child1 child2 child3 : QuadTreeNode)
           (centerOfMass : sf.Vector2f) (totalMass : num).

Definition boundary (n : QuadTreeNode) : Boundary :=
  match n with Leaf b _ _ _ | Internal b _ _ _ _ _ _ _ => b end.
Definition particles (n : QuadTreeNode) : list ParticlePtr :=
  match n with Leaf _ l _ _ | Internal _ l _ _ _ _ _ _ => l end.
Definition centerOfMass (n : QuadTreeNode) : sf.Vector2f :=
  match n with Leaf _ _ c _ | Internal _ _ _ _ _ _ c _ => c end.
Definition totalMass (n : QuadTreeNode) : num :=
  match n with Leaf _ _ _ m | Internal _ _ _ _ _ _ _ m => m end.
Definition isLeaf (n : QuadTreeNode) : bool :=
  match n with Leaf _ _ _ _ => true | Internal _ _ _ _ _ _ _ _ => false end.
Definition children (n : QuadTreeNode) : list QuadTreeNode :=
  match n with
  | Leaf _ _ _ _ => []
  | Internal _ _ c0 c1 c2 c3 _ _ => [c0; c1; c2; c3]
  end.

Definition MAX_PARTICLES : nat := 1.

(** [explicit QuadTreeNode(const Boundary& b)]: a leaf without particles;
    [centerOfMass] is default-constructed and [totalMass = 0.0f]. *)
Definition new_node (b : Boundary) : QuadTreeNode := Leaf b [] sf.zero lit_0.

Definition Children : Type :=
  (QuadTreeNode * QuadTreeNode * QuadTreeNode * QuadTreeNode)%type.

(** The loop [for (auto& child : children) if (child->insert(p)) ...]
    that both [subdivide] (with [break]) and [insert] (with
    [return true]) run: the children are tried in order until one accepts.
    A child that refuses may still have been changed by the attempt. *)
Definition first_accepting (ins : QuadTreeNode -> ParticlePtr -> result (QuadTreeNode * bool))
           (cs : Children) (p : ParticlePtr) : result (Children * bool) :=
  let '(c0, c1, c2, c3) := cs in
  '(c0', ok0) <- ins c0 p ;;
  if ok0 : bool then Ok ((c0', c1, c2, c3), true) else
  '(c1', ok1) <- ins c1 p ;;
  if ok1 : bool then Ok ((c0', c1', c2, c3), true) else
  '(c2', ok2) <- ins c2 p ;;
  if ok2 : bool then Ok ((c0', c1', c2', c3), true) else
  '(c3', ok3) <- ins c3 p ;;
  Ok ((c0', c1', c2', c3'), ok3).

(** The boundaries of the four children that [subdivide] creates: half
    the half-size, centred at the four diagonal offsets. *)
Definition quadrant (b : Boundary) (dx dy : num -> num) : Boundary :=
  let newHalfSize := (halfSize b * lit_0_5)%num in
  mkBoundary (center b + sf.Vec (dx newHalfSize) (dy newHalfSize))%vec newHalfSize.
Definition NE (b : Boundary) : Boundary := quadrant b (fun h => h) fneg.
Definition NW (b : Boundary) : Boundary := quadrant b fneg fneg.
Definition SE (b : Boundary) : Boundary := quadrant b (fun h => h) (fun h => h).
Definition SW (b : Boundary) : Boundary := quadrant b fneg (fun h => h).

(** [subdivide], given the [insert] it calls on the children. *)
Definition subdivide (ins : QuadTreeNode -> ParticlePtr -> result (QuadTreeNode * bool))
           (b : Boundary) (parts : list ParticlePtr)
           (com : sf.Vector2f) (m : num) : result QuadTreeNode :=
  cs <- for_each parts
          (fun p cs => '(cs', _) <- first_accepting ins cs p ;; Ok cs')
          (new_node (NE b), new_node (NW b), new_node (SE b), new_node (SW b)) ;;
  let '(c0', c1', c2', c3') := cs in
  Ok (Internal b [] c0' c1' c2' c3' com m).

(** [insert]; [ps] is the vector the pointers point into. *)
Fixpoint insert (fuel : nat) (ps : list Particle) (node : QuadTreeNode)
         (particle : ParticlePtr) {struct fuel} : result (QuadTreeNode * bool) :=
  match fuel with
  | O => OutOfFuel
  | Datatypes.S fuel' =>
    p <- at_index ps particle ;;
    if negb (contains (boundary node) (position p)) then Ok (node, false) else
    match node with
    | Leaf b parts com m =>
      if length parts <? MAX_PARTICLES then
        Ok (Leaf b (parts ++ [particle]) com m, true)
      else
        node' <- subdivide (insert fuel' ps) b parts com m ;;
        insert fuel' ps node' particle
    | Internal b parts c0 c1 c2 c3 com m =>
      '(c0', c1', c2', c3', ok) <- first_accepting (insert fuel' ps) (c0, c1, c2, c3) particle ;;
      Ok (Internal b parts c0' c1' c2' c3' com m, ok)
    end
  end.

(** [updateCenterOfMass]: it reads the children's [totalMass] and
    [centerOfMass] as they are and does not descend. *)
Definition updateCenterOfMass (ps : list Particle) (node : QuadTreeNode)
  : result QuadTreeNode :=
  match node with
  | Leaf b parts _ _ =>
    match parts with
    | [] => Ok (Leaf b parts (center b) lit_0)
    | _ :: _ =>
      '(m, com) <- for_each parts
          (fun ptr '(m, com) =>
             p <- at_index ps ptr ;;
             Ok ((m + mass p)%num, (com + position p *: mass p)%vec))
          (lit_0, sf.Vec lit_0 lit_0) ;;
      Ok (Leaf b parts (com /: m)%vec m)
    end
  | Internal b parts c0 c1 c2 c3 _ _ =>
    let '(m, com) :=
      fold_left
        (fun '(m, com) child =>
           if (totalMass child >? lit_0)%num
           then ((m + totalMass child)%num, (com + centerOfMass child *: totalMass child)%vec)
           else (m, com))
        [c0; c1; c2; c3] (lit_0, sf.Vec lit_0 lit_0) in
    Ok (Internal b parts c0 c1 c2 c3
                 (if (m >? lit_0)%num then (com /: m)%vec else com) m)
  end.

(** [build]: the result of each [insert] is ignored. *)
Definition build (fuel : nat) (ps : list Particle) (root : QuadTreeNode)
  : result QuadTreeNode :=
  root' <- for_each (seq 0 (length ps))
             (fun i node => '(node', _) <- insert fuel ps node i ;; Ok node')
             root ;;
  updateCenterOfMass ps root'.
End QuadTree.

Section Forces.
Context {S : Scalar} {SQ : Sqrt S}.

(** The guard of [computeForce],
    [totalMass == 0 || (&particle == particles.front() && particles.size() == 1)],
    evaluated left to right: [front()] is read only when the mass is not
    zero, and reading it from an empty vector is undefined. *)
Definition skip_node (node : QuadTreeNode) (particle : ParticlePtr) : result bool :=
  if (totalMass node ==? lit_0)%num then Ok true else
  match particles node with
  | [] => Undefined
  | front :: _ => Ok ((particle =? front) && (length (particles node) =? 1))
  end.

(** The softened pairwise term
    [r * (G * m1 * m2 / (r2 * sqrt(r2)))] with
    [r2 = r.x * r.x + r.y * r.y + softening * softening]. *)
Definition attraction (r : sf.Vector2f) (G m1 m2 softening : num) : sf.Vector2f :=
  let r2 := (sf.x r * sf.x r + sf.y r * sf.y r + softening * softening)%num in
  let r3 := (r2 * fsqrt r2)%num in
  (r *: (G * m1 * m2 / r3)%num)%vec.

(** [computeForce]: [force] is the accumulator passed by reference. *)
Fixpoint computeForce (ps : list Particle) (node : QuadTreeNode)
         (particle : ParticlePtr) (force : sf.Vector2f)
         (theta G softening : num) {struct node} : result sf.Vector2f :=
  skip <- skip_node node particle ;;
  if skip : bool then Ok force else
  me <- at_index ps particle ;;
  let r := (centerOfMass node - position me)%vec in
  let distance :=
    fsqrt (sf.x r * sf.x r + sf.y r * sf.y r + softening * softening)%num in
  match node with
  | Leaf _ parts _ _ =>
    for_each parts
      (fun p force =>
         if negb (p =? particle) then
           other <- at_index ps p ;;
           let r_ij := (position other - position me)%vec in
           Ok (force + attraction r_ij G (mass me) (mass other) softening)%vec
         else Ok force)
      force
  | Internal b _ c0 c1 c2 c3 _ m =>
    let s := (halfSize b * lit_2)%num in
    if (s / distance <? theta)%num then
      Ok (force + attraction r G (mass me) m softening)%vec
    else
      force0 <- computeForce ps c0 particle force theta G softening ;;
      force1 <- computeForce ps c1 particle force0 theta G softening ;;
      force2 <- computeForce ps c2 particle force1 theta G softening ;;
      computeForce ps c3 particle force2 theta G softening
  end.
End Forces.

(** ** [BarnesHutForceCalculator] *)

Module BarnesHutForceCalculator.
Section Calculator.
Context {S : Scalar} {SQ : Sqrt S}.

(** The "find bounds" loop of [computeForces]. *)
Definition bounds (ps : list Particle) (first : Particle)
  : sf.Vector2f * sf.Vector2f :=
  fold_left
    (fun '(min, max) p =>
       (sf.Vec (std_min (sf.x min) (sf.x (position p)))
               (std_min (sf.y min) (sf.y (position p))),
        sf.Vec (std_max (sf.x max) (sf.x (position p)))
               (std_max (sf.y max) (sf.y (position p)))))
    ps (position first, position first).

(** The boundary of the root node that [computeForces] creates. *)
Definition rootBoundary (ps : list Particle) (first : Particle) : Boundary :=
  let '(min, max) := bounds ps first in
  let center := ((min + max) *: lit_0_5)%vec in
  let size :=
    (std_max (sf.x max - sf.x min) (sf.y max - sf.y min) * lit_0_6)%num in
  mkBoundary center size.

(** [computeForces]; [theta] is the member that [setTheta] writes. *)
Definition computeForces (fuel : nat) (theta : num) (ps : list Particle)
           (G softening : num) : result (list sf.Vector2f) :=
  match ps with
  | [] => Ok []
  | first :: _ =>
    root <- build fuel ps (new_node (rootBoundary ps first)) ;;
    for_each (seq 0 (length ps))
      (fun i forces =>
         f <- at_index forces i ;;
         f' <- computeForce ps root i f theta G softening ;;
         set_index forces i f')
      (repeat sf.zero (length ps))
  end.
End Calculator.
End BarnesHutForceCalculator.

(** ** [NBodySimulation::computeForces], the all-pairs sum; [G] and
    [SOFTENING] are the fields of [constants]. *)

Module NBodySimulation.
Section Simulation.
Context {S : Scalar} {SQ : Sqrt S}.

Definition computeForces (G SOFTENING : num) (ps : list Particle)
  : result (list sf.Vector2f) :=
  for_each (seq 0 (length ps))
    (fun i forces =>
       for_each (seq 0 (length ps))
         (fun j forces =>
            if negb (i =? j) then
              pi <- at_index ps i ;;
              pj <- at_index ps j ;;
              let r := (position pj - position pi)%vec in
              let r2 := (sf.x r * sf.x r + sf.y r * sf.y r + SOFTENING * SOFTENING)%num in
              let r3 := (r2 * fsqrt r2)%num in
              let F := (G * mass pi * mass pj / r3)%num in
              f <- at_index forces i ;;
              set_index forces i (f + r *: F)%vec
            else Ok forces)
         forces)
    (repeat sf.zero (length ps)).
End Simulation.
End NBodySimulation.

(** ** [RungeKuttaIntegrator] *)

Module RungeKuttaIntegrator.
Section Integrator.
Context {S : Scalar}.

Record State : Type := mkState {
  positions : list sf.Vector2f;
  velocities : list sf.Vector2f
}.

Record Derivative : Type := mkDerivative {
  dpos : list sf.Vector2f;   (* velocity *)
  dvel : list sf.Vector2f    (* acceleration *)
}.

(** [std::function<std::vector<sf::Vector2f>(const std::vector<Particle>&)>];
    the call may itself fail to return. *)
Definition ForceFunc : Type := list Particle -> result (list sf.Vector2f).

Definition set_position (p : Particle) (v : sf.Vector2f) : Particle :=
  mkParticle v (velocity p) (acceleration p) (mass p) (fixed p).
Definition set_velocity (p : Particle) (v : sf.Vector2f) : Particle :=
  mkParticle (position p) v (acceleration p) (mass p) (fixed p).
Definition set_acceleration (p : Particle) (v : sf.Vector2f) : Particle :=
  mkParticle (position p) (velocity p) v (mass p) (fixed p).

(** The first loop of [evaluate]: the displaced state and the temporary
    particles [tempParticles], a copy of [particles]. *)
Definition displace (initial : State) (dt : num) (d : Derivative)
           (particles : list Particle) : result (State * list Particle) :=
  for_each (seq 0 (length (positions initial)))
    (fun i '(state, tempParticles) =>
       x0 <- at_index (positions initial) i ;;
       dx <- at_index (dpos d) i ;;
       positions' <- set_index (positions state) i (x0 + dx *: dt)%vec ;;
       v0 <- at_index (velocities initial) i ;;
       dv <- at_index (dvel d) i ;;
       velocities' <- set_index (velocities state) i (v0 + dv *: dt)%vec ;;
       tp <- at_index tempParticles i ;;
       temp1 <- set_index tempParticles i (set_position tp (x0 + dx *: dt)%vec) ;;
       tp1 <- at_index temp1 i ;;
       temp2 <- set_index temp1 i (set_velocity tp1 (v0 + dv *: dt)%vec) ;;
       Ok (mkState positions' velocities', temp2))
    (mkState (repeat sf.zero (length (positions initial)))
             (repeat sf.zero (length (velocities initial))),
     particles).

Definition evaluate (initial : State) (dt : num) (d : Derivative)
           (forceFunc : ForceFunc) (particles : list Particle)
  : result Derivative :=
  '(state, tempParticles) <- displace initial dt d particles ;;
  forces <- forceFunc tempParticles ;;
  dvel' <- for_each (seq 0 (length forces))
             (fun i out =>
                f <- at_index forces i ;;
                tp <- at_index tempParticles i ;;
                set_index out i (f /: mass tp)%vec)
             (repeat sf.zero (length forces)) ;;
  Ok (mkDerivative (velocities state) dvel').

(** The weighted average [(k1 + 2 k2 + 2 k3 + k4) / 6] of one component
    list at index [i], as the update loop of [integrate] writes it. *)
Definition weighted (a b c d : sf.Vector2f) : sf.Vector2f :=
  ((a + lit_2 :* b + lit_2 :* c + d) /: lit_6)%vec.

Definition integrate (particles : list Particle) (forceFunc : ForceFunc)
           (dt : num) : result (list Particle) :=
  let initial := mkState (map position particles) (map velocity particles) in
  let k1 := mkDerivative (repeat sf.zero (length particles))
                         (repeat sf.zero (length particles)) in
  k1 <- evaluate initial lit_0 k1 forceFunc particles ;;
  k2 <- evaluate initial (dt * lit_0_5)%num k1 forceFunc particles ;;
  k3 <- evaluate initial (dt * lit_0_5)%num k2 forceFunc particles ;;
  k4 <- evaluate initial dt k3 forceFunc particles ;;
  for_each (seq 0 (length particles))
    (fun i particles =>
       p <- at_index particles i ;;
       if negb (fixed p) then
         a1 <- at_index (dpos k1) i ;; a2 <- at_index (dpos k2) i ;;
         a3 <- at_index (dpos k3) i ;; a4 <- at_index (dpos k4) i ;;
         let dxdt := weighted a1 a2 a3 a4 in
         b1 <- at_index (dvel k1) i ;; b2 <- at_index (dvel k2) i ;;
         b3 <- at_index (dvel k3) i ;; b4 <- at_index (dvel k4) i ;;
         let dvdt := weighted b1 b2 b3 b4 in
         set_index particles i
           (mkParticle (position p + dxdt *: dt)%vec
                       (velocity p + dvdt *: dt)%vec
                       dvdt (mass p) (fixed p))
       else Ok particles)
    particles.
End Integrator.
End RungeKuttaIntegrator.

(** ** The arithmetic of the program *)

(** IEEE-754 binary32, the C++ [float]. *)
Module Binary32.
Definition prec : Z := 24.
Definition emax : Z := 128.

(** The [float] nearest to an integer. *)
Definition of_Z (z : Z) : spec_float := binary_normalize prec emax z 0 false.

Definition scalar : Scalar := {|
  num := spec_float;
  lit_0 := S754_zero false;
  lit_0_5 := S754_finite false 8388608 (-24);
  lit_0_6 := S754_finite false 10066330 (-24);     (* 0x3F19999A *)
  lit_2 := S754_finite false 8388608 (-22);
  lit_6 := S754_finite false 12582912 (-21);
  fadd := SFadd prec emax;
  fsub := SFsub prec emax;
  fmul := SFmul prec emax;
  fdiv := SFdiv prec emax;
  fneg := SFopp;
  flt := SFltb;
  fle := SFleb;
  feq := SFeqb
|}.

Definition sqrt : Sqrt scalar := SFsqrt prec emax.
End Binary32.


(** * The vocabulary of the statements *)

Section Vocabulary.
Context {S : Scalar}.
Import RungeKuttaIntegrator.

(** A stored pointer points into [ps], at a particle inside [b]. *)
Definition stored_in (ps : list Particle) (b : Boundary) (ptr : ParticlePtr) : Prop :=
  exists p, nth_error ps ptr = Some p /\ contains b (position p) = true.

(** The shape of every tree that [insert] makes out of a new node: no
    node has had its mass or centre of mass computed, a leaf holds at most
    [MAX_PARTICLES] particles and each lies in its boundary, an internal
    node holds none and its children are its four quadrants. *)
Fixpoint well_formed (ps : list Particle) (t : QuadTreeNode) : Prop :=
  match t with
  | Leaf b parts com m =>
    length parts <= MAX_PARTICLES /\ Forall (stored_in ps b) parts /\
    com = sf.zero /\ m = lit_0
  | Internal b parts c0 c1 c2 c3 com m =>
    parts = [] /\ com = sf.zero /\ m = lit_0 /\
    (boundary c0 = NE b /\ boundary c1 = NW b /\
     boundary c2 = SE b /\ boundary c3 = SW b) /\
    well_formed ps c0 /\ well_formed ps c1 /\ well_formed ps c2 /\ well_formed ps c3
  end.

(** What one call of [insert] may do to a node. *)
Definition kept (ps : list Particle) (t t' : QuadTreeNode) : Prop :=
  well_formed ps t -> well_formed ps t' /\ boundary t' = boundary t.

(** The four children stay the well-formed quadrants of [b]. *)
Definition quadrants_of (ps : list Particle) (b : Boundary) (cs : Children) : Prop :=
  let '(c0, c1, c2, c3) := cs in
  (boundary c0 = NE b /\ boundary c1 = NW b /\
   boundary c2 = SE b /\ boundary c3 = SW b) /\
  well_formed ps c0 /\ well_formed ps c1 /\ well_formed ps c2 /\ well_formed ps c3.

(** The pointers stored in a tree. *)
Fixpoint stored (t : QuadTreeNode) : list ParticlePtr :=
  match t with
  | Leaf _ parts _ _ => parts
  | Internal _ parts c0 c1 c2 c3 _ _ =>
    parts ++ stored c0 ++ stored c1 ++ stored c2 ++ stored c3
  end.

(** A node and all its descendants. *)
Fixpoint nodes (t : QuadTreeNode) : list QuadTreeNode :=
  t :: match t with
       | Leaf _ _ _ _ => []
       | Internal _ _ c0 c1 c2 c3 _ _ => nodes c0 ++ nodes c1 ++ nodes c2 ++ nodes c3
       end.

(** Every leaf of the tree holds at most [n] particles. *)
Definition leaves_hold_at_most (n : nat) (t : QuadTreeNode) : Prop :=
  forall node, In node (nodes t) -> isLeaf node = true ->
               length (particles node) <= n.

(** The sum of the masses, in the order of the vector. *)
Definition mass_sum (ps : list Particle) : num :=
  fold_left (fun m p => (m + mass p)%num) ps lit_0.


(** [qs] holds the same bodies as [ps]: as many, with the same mass and the
    same [fixed] flag at every index. *)
Definition same_bodies (ps qs : list Particle) : Prop :=
  Forall2 (fun p q => mass q = mass p /\ fixed q = fixed p) ps qs.

(** ** Fourth-order Runge-Kutta, as the specification words it *)

(** The hypothetical snapshot: the particles with position and velocity
    displaced from their initial values by the derivative [d] over [h]. *)
Definition displaced (particles : list Particle) (d : Derivative) (h : num)
  : list Particle :=
  map (fun '(p, (dx, dv)) =>
         mkParticle (position p + dx *: h)%vec (velocity p + dv *: h)%vec
                    (acceleration p) (mass p) (fixed p))
      (combine particles (combine (dpos d) (dvel d))).

(** The derivative at a snapshot: (velocity, force / mass). *)
Definition derivative_at (snapshot : list Particle) (forces : list sf.Vector2f)
  : Derivative :=
  mkDerivative (map velocity snapshot)
               (map (fun '(f, p) => (f /: mass p)%vec) (combine forces snapshot)).

(** One derivative estimate: one force evaluation on a snapshot. *)
Definition rk4_stage (particles : list Particle) (forceFunc : ForceFunc)
           (d : Derivative) (h : num) : result Derivative :=
  let snapshot := displaced particles d h in
  forces <- forceFunc snapshot ;;
  Ok (derivative_at snapshot forces).

(** The update of one particle by the weighted average of the four
    estimates, each a pair (d position, d velocity). *)
Definition rk4_update (dt : num) (p : Particle)
           (k1 k2 k3 k4 : sf.Vector2f * sf.Vector2f) : Particle :=
  if fixed p then p else
    let dxdt := ((fst k1 + lit_2 :* fst k2 + lit_2 :* fst k3 + fst k4) /: lit_6)%vec in
    let dvdt := ((snd k1 + lit_2 :* snd k2 + lit_2 :* snd k3 + snd k4) /: lit_6)%vec in
    mkParticle (position p + dxdt *: dt)%vec (velocity p + dvdt *: dt)%vec
               dvdt (mass p) (fixed p).

Definition estimates (k : Derivative) : list (sf.Vector2f * sf.Vector2f) :=
  combine (dpos k) (dvel k).

Definition rk4_step (particles : list Particle) (forceFunc : ForceFunc) (dt : num)
  : result (list Particle) :=
  let rest := mkDerivative (repeat sf.zero (length particles))
                           (repeat sf.zero (length particles)) in
  k1 <- rk4_stage particles forceFunc rest lit_0 ;;
  k2 <- rk4_stage particles forceFunc k1 (dt * lit_0_5)%num ;;
  k3 <- rk4_stage particles forceFunc k2 (dt * lit_0_5)%num ;;
  k4 <- rk4_stage particles forceFunc k3 dt ;;
  Ok (map (fun '(p, (e1, (e2, (e3, e4)))) => rk4_update dt p e1 e2 e3 e4)
          (combine particles
             (combine (estimates k1)
                (combine (estimates k2) (combine (estimates k3) (estimates k4)))))).
End Vocabulary.


(** ** Particles for the runs in single precision *)

Section SinglePrecisionData.
#[local] Existing Instance Binary32.scalar.
#[local] Existing Instance Binary32.sqrt.

(** A free particle at rest at [(x, y)] with mass [m]. *)
Definition body (x y m : Z) : Particle :=
  mkParticle (sf.Vec (Binary32.of_Z x) (Binary32.of_Z y)) sf.zero sf.zero
             (Binary32.of_Z m) false.

(** Two bodies in opposite corners of the square around the origin. *)
Definition two_bodies : list Particle := [body 1 1 1; body (-1) (-1) 2].
Definition square : Boundary :=
  mkBoundary (sf.Vec (Binary32.of_Z 0) (Binary32.of_Z 0)) (Binary32.of_Z 2).

(** The tree that [build] returns for them. *)
Definition two_bodies_tree : QuadTreeNode :=
  Internal square []
    (new_node (NE square)) (Leaf (NW square) [1] sf.zero lit_0)
    (Leaf (SE square) [0] sf.zero lit_0) (new_node (SW square))
    sf.zero lit_0.

(** The tree that [computeForces] builds for them, under the root boundary
    it computes. *)
Definition two_bodies_root : QuadTreeNode :=
  let b := BarnesHutForceCalculator.rootBoundary two_bodies (body 1 1 1) in
  Internal b []
    (new_node (NE b)) (Leaf (NW b) [1] sf.zero lit_0)
    (Leaf (SE b) [0] sf.zero lit_0) (new_node (SW b))
    sf.zero lit_0.

(** Two bodies at the same place, and the root boundary [computeForces]
    gives them: the single point where they are. *)
Definition coincident : list Particle := [body 1 1 1; body 1 1 1].
Definition point : Boundary :=
  mkBoundary (sf.Vec (Binary32.of_Z 1) (Binary32.of_Z 1)) (Binary32.of_Z 0).

(** A body whose position is not a number. *)
Definition nan_body : Particle :=
  mkParticle (sf.Vec S754_nan S754_nan) sf.zero sf.zero (Binary32.of_Z 1) false.

(** A body far out on the x axis, at [2^127]. *)
Definition far_body : Particle := body (2 ^ 127) 0 1.

(** A body without mass beside a body of mass 2. *)
Definition with_massless : list Particle := [body 1 1 0; body (-1) (-1) 2].

(** A fixed body of mass 5000 at the origin and a free one of mass 10. *)
Definition sun : Particle :=
  mkParticle (sf.Vec (Binary32.of_Z 0) (Binary32.of_Z 0)) sf.zero sf.zero
             (Binary32.of_Z 5000) true.
Definition sun_and_planet : list Particle := [sun; body 100 0 10].

(** The all-pairs force with [G = 1] and softening 1. *)
Definition pull : RungeKuttaIntegrator.ForceFunc :=
  NBodySimulation.computeForces (Binary32.of_Z 1) (Binary32.of_Z 1).

(** The store after one step of length 1; the planet has moved. *)
Definition sun_and_planet_stepped : list Particle :=
  [sun;
   mkParticle
     (sf.Vec (S754_finite false 13074410 (-17)) (S754_zero false))
     (sf.Vec (S754_finite true 8401393 (-24)) (S754_zero false))
     (sf.Vec (S754_finite true 8401393 (-24)) (S754_zero false))
     (Binary32.of_Z 10) false].

(** The derivative that [integrate] starts from. *)
Definition at_rest (n : nat) : RungeKuttaIntegrator.Derivative :=
  RungeKuttaIntegrator.mkDerivative (repeat sf.zero n) (repeat sf.zero n).
End SinglePrecisionData.


(** ** The all-pairs sum, as a sum *)

Section PairwiseVocabulary.
Context {S : Scalar} {SQ : Sqrt S}.

(** The pull of the particle [pj] on the particle [pi]. *)
Definition pull_of (G SOFTENING : num) (pi pj : Particle) : sf.Vector2f :=
  attraction (position pj - position pi)%vec G (mass pi) (mass pj) SOFTENING.

(** The pulls on the particle at index [i] of the particles at the indices
    below [k] other than [i], added from the zero vector in the order of
    the indices. *)
Definition pulls_on (G SOFTENING : num) (ps : list Particle) (i k : nat)
  : sf.Vector2f :=
  fold_left
    (fun f j =>
       if negb (i =? j) then
         match nth_error ps i, nth_error ps j with
         | Some pi, Some pj => (f + pull_of G SOFTENING pi pj)%vec
         | _, _ => f
         end
       else f)
    (seq 0 k) sf.zero.

Definition pairwise_sum (G SOFTENING : num) (ps : list Particle)
  : list sf.Vector2f :=
  map (fun i => pulls_on G SOFTENING ps i (length ps)) (seq 0 (length ps)).

(** [qs] has the positions and the masses of [ps]. *)
Definition same_places (ps qs : list Particle) : Prop :=
  Forall2 (fun p q => position q = position p /\ mass q = mass p) ps qs.
End PairwiseVocabulary.

(** ** [Particle::kineticEnergy], [NBodySimulation::calculateTotalEnergy]
    and [Particle::updateTrail] ([src/main.cpp]) *)

Section Energy.
Context {S : Scalar}.

Definition kineticEnergy (p : Particle) : num :=
  let v2 := (sf.x (velocity p) * sf.x (velocity p)
             + sf.y (velocity p) * sf.y (velocity p))%num in
  (lit_0_5 * mass p * v2)%num.

Definition calculateTotalEnergy (particles : list Particle) : num :=
  fold_left (fun totalKE p => (totalKE + kineticEnergy p)%num) particles lit_0.
End Energy.

Section Trail.
Context {S : Scalar}.

(** [updateTrail] on the particle's [trail] and [position]: [push_back],
    then [pop_front] when the size exceeds [maxLength] (a [size_t]). *)
Definition updateTrail (trail : list sf.Vector2f) (position : sf.Vector2f)
           (maxLength : nat) : list sf.Vector2f :=
  let trail := trail ++ [position] in
  if maxLength <? length trail then tl trail else trail.
End Trail.

Unset Implicit Arguments.

(** ** Vocabulary for single precision *)

Section FloatVocabulary.
#[local] Existing Instance Binary32.scalar.

(** A C++ [float]: a value of the format, with a canonical significand. *)
Definition is_float (a : spec_float) : Prop :=
  valid_binary Binary32.prec Binary32.emax a = true.

(** Two floats with the same value: the same float, or two zeros. *)
Definition same_value (a b : spec_float) : Prop :=
  match a, b with
  | S754_zero _, S754_zero _ => True
  | _, _ => a = b
  end.

(** The half-size of the children of a node of half-size [h]. *)
Definition half (h : spec_float) : spec_float := (h * lit_0_5)%num.

(** Halving [h] again and again leaves the finite non-zero floats. *)
Inductive vanishes : spec_float -> Prop :=
| vanishes_now (h : spec_float) :
    (forall s m e, h <> S754_finite s m e) -> vanishes h
| vanishes_half (h : spec_float) : vanishes (half h) -> vanishes h.

(** A measure that halving decreases. *)
Definition weight (h : spec_float) : nat :=
  match h with
  | S754_finite _ m e => Z.to_nat ((e + 150) * 2 ^ 25 + Zpos m)
  | _ => 0
  end.

(** The place of a float that is not NaN in the order of the floats: its
    class, then its exponent, then its significand. *)
Definition place (a : spec_float) : Z * Z * Z :=
  match a with
  | S754_infinity true => (-2, 0, 0)
  | S754_finite true m e => (-1, - e, - Zpos m)
  | S754_zero _ | S754_nan => (0, 0, 0)
  | S754_finite false m e => (1, e, Zpos m)
  | S754_infinity false => (2, 0, 0)
  end%Z.

(** The order of the places: lexicographic. *)
Definition before (p q : Z * Z * Z) : Prop :=
  let '(p1, p2, p3) := p in
  let '(q1, q2, q3) := q in
  (p1 < q1 \/ (p1 = q1 /\ (p2 < q2 \/ (p2 = q2 /\ p3 < q3))))%Z.

(** A position without a NaN coordinate. *)
Definition not_nan (v : sf.Vector2f) : Prop :=
  sf.x v <> S754_nan /\ sf.y v <> S754_nan.

(** A float that is not below zero: a zero, a positive number or NaN. *)
Definition not_negative (a : spec_float) : Prop :=
  match a with
  | S754_finite true _ _ | S754_infinity true => False
  | _ => True
  end.
End FloatVocabulary.

(** ** Vocabulary for the termination of [build] *)

Section TerminationVocabulary.
Context {S : Scalar}.

(** Two particles at different places: [position == position] is false. *)
Definition distinct_positions (p q : Particle) : Prop :=
  ((sf.x (position p) ==? sf.x (position q))%num &&
   (sf.y (position p) ==? sf.y (position q))%num) = false.

(** Every particle stored in [t] is at another place than [pj]. *)
Definition away_from_stored (ps : list Particle) (pj : Particle)
           (t : QuadTreeNode) : Prop :=
  forall i pi, In i (stored t) -> nth_error ps i = Some pi ->
               distinct_positions pi pj.

(** With enough fuel, [insert] of particle [j] into [t] returns. *)
Definition returns (ps : list Particle) (j : ParticlePtr) (t : QuadTreeNode) : Prop :=
  exists fuel t' ok, insert fuel ps t j = Ok (t', ok).

(** [c] is one of the four quadrants of [b]. *)
Definition quadrant_of (b c : Boundary) : Prop :=
  c = NE b \/ c = NW b \/ c = SE b \/ c = SW b.
End TerminationVocabulary.

(** ** Vocabulary for the forces of a reordered vector *)

Section SwapVocabulary.
Context {S : Scalar} {SQ : Sqrt S}.

(** The exchange of the indices [i] and [j]. *)
Definition transpose (i j k : nat) : nat :=
  if k =? i then j else if k =? j then i else k.

(** [l'] is [l] with the entries at [i] and [j] exchanged. *)
Definition swapped {A : Type} (i j : nat) (l l' : list A) : Prop :=
  i < length l /\ j < length l /\ length l' = length l /\
  forall k, nth_error l' k = nth_error l (transpose i j k).

(** The particle at index [i] lies in [b]. *)
Definition inside (ps : list Particle) (b : Boundary) (i : ParticlePtr) : bool :=
  match nth_error ps i with
  | Some q => contains b (position q)
  | None => false
  end.

(** The force on [qi] from a root leaf that holds [qk] alone; [self] says
    that [qi] is that particle. *)
Definition lone_force (G softening : num) (qk qi : Particle) (self : bool)
  : sf.Vector2f :=
  if (lit_0 + mass qk ==? lit_0)%num || self then sf.zero
  else (sf.zero + attraction (position qk - position qi)%vec G (mass qi) (mass qk)
                             softening)%vec.
End SwapVocabulary.

(** ** More particles for the runs in single precision *)

Section MoreSinglePrecisionData.
#[local] Existing Instance Binary32.scalar.
#[local] Existing Instance Binary32.sqrt.

(** A free particle of mass 1 at rest at the floats [(x, y)]. *)
Definition body_at (x y : spec_float) : Particle :=
  mkParticle (sf.Vec x y) sf.zero sf.zero (Binary32.of_Z 1) false.

(** [1.0f] and the next float above it, [1.00000012f]. *)
Definition one : spec_float := S754_finite false 8388608 (-23).




(** Two particles one unit in the last place apart, a little above the
    smallest normal [float]; the root boundary that [computeForces] gives
    them, and the tree that [build] returns: the second particle is
    outside the root boundary. *)
Definition tiny_pair : list Particle :=
  [body_at (S754_finite false 8388610 (-147)) one;
   body_at (S754_finite false 8388609 (-147)) one].

(** The positions a particle passes through. *)
Definition waypoints : list sf.Vector2f :=
  [sf.Vec (Binary32.of_Z 1) (Binary32.of_Z 1);
   sf.Vec (Binary32.of_Z 2) (Binary32.of_Z 2);
   sf.Vec (Binary32.of_Z 3) (Binary32.of_Z 3)].
End MoreSinglePrecisionData.

(** ** A root that is built, then grown by one [insert] *)

Section GrownRootData.
#[local] Existing Instance Binary32.scalar.
#[local] Existing Instance Binary32.sqrt.

(** The root after [build] on the vector that holds the first of the two
    bodies: a leaf with the mass and the place of that body. *)
Definition one_body_root : QuadTreeNode :=
  Leaf square [0] (sf.Vec (Binary32.of_Z 1) (Binary32.of_Z 1)) (Binary32.of_Z 1).

(** The same root after [insert] of the second body: [subdivide] has moved
    the first body to a child and left the mass of the node as it was. *)
Definition grown_root : QuadTreeNode :=
  Internal square []
    (new_node (NE square)) (Leaf (NW square) [1] sf.zero lit_0)
    (Leaf (SE square) [0] sf.zero lit_0) (new_node (SW square))
    (sf.Vec (Binary32.of_Z 1) (Binary32.of_Z 1)) (Binary32.of_Z 1).
End GrownRootData.

Set Implicit Arguments.

(** * Properties *)

(** ** Loops and vectors *)

Lemma bind_Ok_inv {A B : Type} (r : result A) (k : A -> result B) (b : B) :
  bind r k = Ok b -> exists a, r = Ok a /\ k a = Ok b.
Proof. destruct r; simpl; intros H; try discriminate. eauto. Qed.

Lemma at_index_Ok {A : Type} (v : list A) (i : nat) (a : A) :
  at_index v i = Ok a <-> nth_error v i = Some a.
Proof.
  unfold at_index. destruct (nth_error v i); split; intros H;
    try discriminate; congruence.
Qed.

Lemma at_index_lt {A : Type} (v : list A) (i : nat) :
  i < length v -> exists a, at_index v i = Ok a.
Proof.
  intros H. unfold at_index. destruct (nth_error v i) eqn:E; eauto.
  apply nth_error_None in E. lia.
Qed.

Lemma set_index_Ok {A : Type} (v : list A) (i : nat) (a : A) :
  i < length v ->
  exists v', set_index v i a = Ok v' /\ length v' = length v /\
             nth_error v' i = Some a /\
             forall j, j <> i -> nth_error v' j = nth_error v j.
Proof.
  revert i. induction v as [|b v IH]; intros i Hi; simpl in Hi; [lia|].
  destruct i as [|i]; simpl.
  - exists (a :: v). repeat split. intros [|j] Hj; [congruence|reflexivity].
  - destruct (IH i) as (v' & E & L & N & O); [lia|]. rewrite E. simpl.
    exists (b :: v'). repeat split; simpl; auto.
    intros [|j] Hj; [reflexivity|]. apply O. congruence.
Qed.

Lemma set_index_inv {A : Type} (v v' : list A) (i : nat) (a : A) :
  set_index v i a = Ok v' ->
  i < length v /\ length v' = length v /\ nth_error v' i = Some a /\
  forall j, j <> i -> nth_error v' j = nth_error v j.
Proof.
  intros H. assert (Hi : i < length v).
  { revert i v' H. induction v as [|b v IH]; intros [|i] v' H; simpl in *;
      try discriminate; try lia.
    apply bind_Ok_inv in H. destruct H as (w & E & _). apply IH in E. lia. }
  destruct (set_index_Ok v a Hi) as (w & E & R). rewrite E in H.
  injection H as <-. tauto.
Qed.

Lemma for_each_app {I T : Type} (r1 r2 : list I) (body : I -> T -> result T) (s : T) :
  for_each (r1 ++ r2) body s = bind (for_each r1 body s) (for_each r2 body).
Proof.
  revert s. induction r1 as [|i r1 IH]; intros s; simpl; [reflexivity|].
  destruct (body i s); simpl; auto.
Qed.

(** A loop invariant carried through [for_each]. *)
Lemma for_each_invariant {I T : Type} (P : T -> Prop) (range : list I)
      (body : I -> T -> result T) (s s' : T) :
  (forall i t t', In i range -> P t -> body i t = Ok t' -> P t') ->
  P s -> for_each range body s = Ok s' -> P s'.
Proof.
  revert s. induction range as [|i range IH]; intros s Hb Hs H; simpl in H.
  - injection H as <-. exact Hs.
  - apply bind_Ok_inv in H. destruct H as (t & E & H).
    apply (IH t); auto.
    + intros j u u' Hj. apply Hb. now right.
    + apply (Hb i s t); auto. now left.
Qed.

(** ** The traversal *)

Section Traversal.
Context {S : Scalar} {SQ : Sqrt S}.

Lemma computeForce_skip (ps : list Particle) (node : QuadTreeNode)
      (particle : ParticlePtr) (force : sf.Vector2f) (theta G softening : num) :
  skip_node node particle = Ok true ->
  computeForce ps node particle force theta G softening = Ok force.
Proof. intros Hs. destruct node; simpl; now rewrite Hs. Qed.

Lemma skip_node_zero_mass (node : QuadTreeNode) (particle : ParticlePtr) :
  (totalMass node ==? lit_0)%num = true -> skip_node node particle = Ok true.
Proof. intros H. unfold skip_node. now rewrite H. Qed.

(** What keeps the guard defined is the zero mass alone: on an internal
    node whose mass is not zero it reads [front()] of the vector that
    [subdivide] has cleared. *)
Lemma skip_node_internal_with_mass (b : Boundary)
      (c0 c1 c2 c3 : QuadTreeNode) (com : sf.Vector2f) (m : num)
      (particle : ParticlePtr) :
  (m ==? lit_0)%num = false ->
  skip_node (Internal b [] c0 c1 c2 c3 com m) particle = Undefined.
Proof. intros H. unfold skip_node. simpl. now rewrite H. Qed.

(** C3.  [computeForce] returns at once, leaving the accumulated force as
    it was, on a node whose [totalMass] is zero and on a node (a leaf in
    particular) whose only stored particle is the query particle: the node
    of a particle contributes nothing to the force on that particle. *)
Theorem computeForce_skips_empty_and_self
        (ps : list Particle) (node : QuadTreeNode) (particle : ParticlePtr)
        (force : sf.Vector2f) (theta G softening : num) :
  (totalMass node ==? lit_0)%num = true \/ particles node = [particle] ->
  computeForce ps node particle force theta G softening = Ok force.
Proof.
  intros H. apply computeForce_skip. destruct H as [H|H].
  - now apply skip_node_zero_mass.
  - unfold skip_node. rewrite H. simpl. rewrite Nat.eqb_refl.
    now destruct (totalMass node ==? lit_0)%num.
Qed.
End Traversal.

(** ** What [insert] keeps true of a tree *)

Section TreeInvariant.
Context {S : Scalar}.
Variable ps : list Particle.

Lemma well_formed_new_node (b : Boundary) : well_formed ps (new_node b).
Proof. simpl. unfold MAX_PARTICLES. repeat split; auto. Qed.

Lemma first_accepting_each
      (ins : QuadTreeNode -> ParticlePtr -> result (QuadTreeNode * bool))
      (R : QuadTreeNode -> QuadTreeNode -> Prop) (p : ParticlePtr)
      (c0 c1 c2 c3 c0' c1' c2' c3' : QuadTreeNode) (ok : bool) :
  (forall c, R c c) ->
  (forall c c' b, ins c p = Ok (c', b) -> R c c') ->
  first_accepting ins (c0, c1, c2, c3) p = Ok ((c0', c1', c2', c3'), ok) ->
  R c0 c0' /\ R c1 c1' /\ R c2 c2' /\ R c3 c3'.
Proof.
  intros Hrefl Hins H. unfold first_accepting in H.
  apply bind_Ok_inv in H. destruct H as ([d0 b0] & E0 & H).
  destruct b0. { injection H as ? ? ? ? ?; subst. repeat split; eauto. }
  apply bind_Ok_inv in H. destruct H as ([d1 b1] & E1 & H).
  destruct b1. { injection H as ? ? ? ? ?; subst. repeat split; eauto. }
  apply bind_Ok_inv in H. destruct H as ([d2 b2] & E2 & H).
  destruct b2. { injection H as ? ? ? ? ?; subst. repeat split; eauto. }
  apply bind_Ok_inv in H. destruct H as ([d3 b3] & E3 & H).
  injection H as ? ? ? ? ?; subst. repeat split; eauto.
Qed.

Lemma kept_refl (t : QuadTreeNode) : kept ps t t.
Proof. intros H. auto. Qed.

Lemma first_accepting_quadrants
      (ins : QuadTreeNode -> ParticlePtr -> result (QuadTreeNode * bool))
      (b : Boundary) (p : ParticlePtr) (cs cs' : Children) (ok : bool) :
  (forall c c' b', ins c p = Ok (c', b') -> kept ps c c') ->
  quadrants_of ps b cs ->
  first_accepting ins cs p = Ok (cs', ok) -> quadrants_of ps b cs'.
Proof.
  intros Hins Hq H.
  destruct cs as [[[c0 c1] c2] c3]. destruct cs' as [[[c0' c1'] c2'] c3'].
  destruct (first_accepting_each ins (kept ps) p c0 c1 c2 c3 kept_refl Hins H)
    as (K0 & K1 & K2 & K3).
  destruct Hq as ((B0 & B1 & B2 & B3) & W0 & W1 & W2 & W3).
  destruct (K0 W0) as [? E0], (K1 W1) as [? E1], (K2 W2) as [? E2], (K3 W3) as [? E3].
  simpl. rewrite E0, E1, E2, E3. tauto.
Qed.

(** If the children that fulfil [A] accept and one of the four fulfils [A],
    the loop over the children ends with an acceptance. *)
Lemma first_accepting_true
      (ins : QuadTreeNode -> ParticlePtr -> result (QuadTreeNode * bool))
      (A : QuadTreeNode -> Prop) (p : ParticlePtr)
      (c0 c1 c2 c3 : QuadTreeNode) (cs' : Children) (ok : bool) :
  (forall c c' b, A c -> ins c p = Ok (c', b) -> b = true) ->
  A c0 \/ A c1 \/ A c2 \/ A c3 ->
  first_accepting ins (c0, c1, c2, c3) p = Ok (cs', ok) -> ok = true.
Proof.
  intros HA Hone H. unfold first_accepting in H.
  apply bind_Ok_inv in H. destruct H as ([d0 b0] & E0 & H).
  destruct b0. { now injection H as _ <-. }
  apply bind_Ok_inv in H. destruct H as ([d1 b1] & E1 & H).
  destruct b1. { now injection H as _ <-. }
  apply bind_Ok_inv in H. destruct H as ([d2 b2] & E2 & H).
  destruct b2. { now injection H as _ <-. }
  apply bind_Ok_inv in H. destruct H as ([d3 b3] & E3 & H).
  injection H as _ <-.
  destruct Hone as [H|[H|[H|H]]];
    [apply HA in E0|apply HA in E1|apply HA in E2|apply HA in E3]; auto; discriminate.
Qed.

(** [subdivide] makes an internal node over the four quadrants. *)
Lemma subdivide_quadrants
      (ins : QuadTreeNode -> ParticlePtr -> result (QuadTreeNode * bool))
      (b : Boundary) (parts : list ParticlePtr) (com : sf.Vector2f) (m : num)
      (node' : QuadTreeNode) :
  (forall c c' p b', ins c p = Ok (c', b') -> kept ps c c') ->
  subdivide ins b parts com m = Ok node' ->
  exists c0 c1 c2 c3,
    node' = Internal b [] c0 c1 c2 c3 com m /\ quadrants_of ps b (c0, c1, c2, c3).
Proof.
  intros Hins Es. unfold subdivide in Es.
  apply bind_Ok_inv in Es. destruct Es as (cs & Ef & Es).
  assert (Hq : quadrants_of ps b cs).
  { eapply (for_each_invariant (quadrants_of ps b)); [ | | exact Ef].
    - intros i cs0 cs1 _ Hq0 Hb.
      apply bind_Ok_inv in Hb. destruct Hb as ([cs2 b2] & Hb & E).
      injection E as <-.
      apply (first_accepting_quadrants _ b i cs0) in Hb; auto.
      intros c c' b' Hi. apply (Hins _ _ _ _ Hi).
    - simpl. unfold MAX_PARTICLES. repeat split; auto. }
  destruct cs as [[[d0 d1] d2] d3]. injection Es as <-.
  exists d0, d1, d2, d3. auto.
Qed.

Lemma insert_kept (fuel : nat) :
  forall (t t' : QuadTreeNode) (p : ParticlePtr) (ok : bool),
    insert fuel ps t p = Ok (t', ok) -> kept ps t t'.
Proof.
  induction fuel as [|fuel IH]; intros t t' p ok H; simpl in H; [discriminate|].
  apply bind_Ok_inv in H. destruct H as (q & Eq & H).
  apply at_index_Ok in Eq.
  destruct (contains (boundary t) (position q)) eqn:Ec; simpl in H.
  2:{ injection H as <- _. apply kept_refl. }
  destruct t as [b parts com m | b parts c0 c1 c2 c3 com m]; simpl in Ec.
  - destruct (length parts <? MAX_PARTICLES) eqn:El.
    + injection H as <- _. intros (L & F & C & M). simpl.
      apply Nat.ltb_lt in El. unfold MAX_PARTICLES in *.
      repeat split; auto.
      * rewrite length_app. simpl. lia.
      * apply Forall_app. split; auto. constructor; auto.
        exists q. auto.
    + apply bind_Ok_inv in H. destruct H as (node' & Es & H).
      intros (L & F & C & M).
      apply subdivide_quadrants in Es; [|exact IH].
      destruct Es as (d0 & d1 & d2 & d3 & -> & Hb & Hw).
      destruct (IH _ _ _ _ H) as [W' B']. { simpl. repeat split; auto; tauto. }
      split; auto.
  - apply bind_Ok_inv in H.
    destruct H as ([[[[d0 d1] d2] d3] b'] & Ef & H). injection H as <- _.
    intros (P & C & M & Hb & Hw).
    assert (Hq : quadrants_of ps b (d0, d1, d2, d3)).
    { apply (first_accepting_quadrants (insert fuel ps) b p (c0, c1, c2, c3)
               (ok:=b')); auto.
      - intros c c' b'' Hi. apply (IH _ _ _ _ Hi).
      - simpl. tauto. }
    simpl in *. tauto.
Qed.

Lemma subdivide_stored
      (ins : QuadTreeNode -> ParticlePtr -> result (QuadTreeNode * bool))
      (b : Boundary) (parts : list ParticlePtr) (com : sf.Vector2f) (m : num)
      (node' : QuadTreeNode) :
  (forall c c' p b', ins c p = Ok (c', b') -> incl (stored c') (p :: stored c)) ->
  subdivide ins b parts com m = Ok node' -> incl (stored node') parts.
Proof.
  intros Hins Es. unfold subdivide in Es.
  apply bind_Ok_inv in Es. destruct Es as (cs & Ef & Es).
  assert (Hc : let '(d0, d1, d2, d3) := cs in
               incl (stored d0 ++ stored d1 ++ stored d2 ++ stored d3) parts).
  { eapply (for_each_invariant
              (fun cs : Children =>
                 let '(d0, d1, d2, d3) := cs in
                 incl (stored d0 ++ stored d1 ++ stored d2 ++ stored d3) parts));
      [ | | exact Ef].
    - intros i [[[e0 e1] e2] e3] cs1 Hi Hq0 Hb.
      apply bind_Ok_inv in Hb. destruct Hb as ([[[[g0 g1] g2] g3] b2] & Hb & E).
      injection E as <-.
      destruct (first_accepting_each ins
                  (fun c c' => incl (stored c') (i :: stored c)) i e0 e1 e2 e3
                  (fun c => incl_tl i (incl_refl (stored c)))
                  (fun c c' b' Hc => Hins c c' i b' Hc) Hb)
        as (K0 & K1 & K2 & K3).
      intros x Hx. repeat (apply in_app_or in Hx; destruct Hx as [Hx|Hx]);
        [apply K0 in Hx|apply K1 in Hx|apply K2 in Hx|apply K3 in Hx];
        (destruct Hx as [<-|Hx]; [exact Hi|]); apply Hq0;
          repeat rewrite in_app_iff; tauto.
    - simpl. intros x []. }
  destruct cs as [[[d0 d1] d2] d3]. injection Es as <-. exact Hc.
Qed.

(** [insert] stores no pointer but the one it is given. *)
Lemma insert_stored (fuel : nat) :
  forall (t t' : QuadTreeNode) (p : ParticlePtr) (ok : bool),
    insert fuel ps t p = Ok (t', ok) -> incl (stored t') (p :: stored t).
Proof.
  induction fuel as [|fuel IH]; intros t t' p ok H; simpl in H; [discriminate|].
  apply bind_Ok_inv in H. destruct H as (q & _ & H).
  destruct (contains (boundary t) (position q)); simpl in H.
  2:{ injection H as <- _. apply incl_tl, incl_refl. }
  destruct t as [b parts com m | b parts c0 c1 c2 c3 com m].
  - destruct (length parts <? MAX_PARTICLES).
    + injection H as <- _. simpl. intros x Hx.
      apply in_app_or in Hx. simpl in *. tauto.
    + apply bind_Ok_inv in H. destruct H as (node' & Es & H).
      apply IH in H. apply subdivide_stored in Es; [|exact IH].
      simpl. intros x Hx. apply H in Hx.
      destruct Hx as [<-|Hx]; [now left|]. right. now apply Es.
  - apply bind_Ok_inv in H.
    destruct H as ([[[[d0 d1] d2] d3] b'] & Ef & H). injection H as <- _.
    destruct (first_accepting_each (insert fuel ps)
                (fun c c' => incl (stored c') (p :: stored c)) p c0 c1 c2 c3
                (fun c => incl_tl p (incl_refl (stored c)))
                (fun c c' b' Hc => IH c c' p b' Hc) Ef)
      as (K0 & K1 & K2 & K3).
    simpl. intros x Hx.
    repeat (apply in_app_or in Hx; destruct Hx as [Hx|Hx]);
      [right|apply K0 in Hx|apply K1 in Hx|apply K2 in Hx|apply K3 in Hx];
      try (destruct Hx as [<-|Hx]; [now left|right]);
      repeat rewrite in_app_iff; tauto.
Qed.

(** *** More fuel changes no result *)

Lemma insert_unfold (fuel : nat) (node : QuadTreeNode) (particle : ParticlePtr) :
  insert (Datatypes.S fuel) ps node particle
  = (p <- at_index ps particle ;;
     if negb (contains (boundary node) (position p)) then Ok (node, false) else
     match node with
     | Leaf b parts com m =>
       if length parts <? MAX_PARTICLES then
         Ok (Leaf b (parts ++ [particle]) com m, true)
       else
         node' <- subdivide (insert fuel ps) b parts com m ;;
         insert fuel ps node' particle
     | Internal b parts c0 c1 c2 c3 com m =>
       '(c0', c1', c2', c3', ok) <- first_accepting (insert fuel ps) (c0, c1, c2, c3) particle ;;
       Ok (Internal b parts c0' c1' c2' c3' com m, ok)
     end).
Proof. reflexivity. Qed.

Lemma for_each_mono {I T : Type} (range : list I) (body body' : I -> T -> result T)
      (s r : T) :
  (forall i t u, body i t = Ok u -> body' i t = Ok u) ->
  for_each range body s = Ok r -> for_each range body' s = Ok r.
Proof.
  intros Hb. revert s. induction range as [|i range IH]; intros s H; simpl in *; auto.
  apply bind_Ok_inv in H. destruct H as (t & E & H).
  rewrite (Hb _ _ _ E). simpl. auto.
Qed.

Lemma first_accepting_mono
      (ins ins' : QuadTreeNode -> ParticlePtr -> result (QuadTreeNode * bool))
      (cs : Children) (p : ParticlePtr) (r : Children * bool) :
  (forall c u, ins c p = Ok u -> ins' c p = Ok u) ->
  first_accepting ins cs p = Ok r -> first_accepting ins' cs p = Ok r.
Proof.
  intros Hi H. destruct cs as [[[c0 c1] c2] c3]. unfold first_accepting in *.
  apply bind_Ok_inv in H. destruct H as ([d0 b0] & E0 & H).
  rewrite (Hi _ _ E0). cbn [bind]. destruct b0; auto.
  apply bind_Ok_inv in H. destruct H as ([d1 b1] & E1 & H).
  rewrite (Hi _ _ E1). cbn [bind]. destruct b1; auto.
  apply bind_Ok_inv in H. destruct H as ([d2 b2] & E2 & H).
  rewrite (Hi _ _ E2). cbn [bind]. destruct b2; auto.
  apply bind_Ok_inv in H. destruct H as ([d3 b3] & E3 & H).
  rewrite (Hi _ _ E3). cbn [bind]. auto.
Qed.

Lemma subdivide_mono
      (ins ins' : QuadTreeNode -> ParticlePtr -> result (QuadTreeNode * bool))
      (b : Boundary) (parts : list ParticlePtr) (com : sf.Vector2f) (m : num)
      (node' : QuadTreeNode) :
  (forall c q u, ins c q = Ok u -> ins' c q = Ok u) ->
  subdivide ins b parts com m = Ok node' -> subdivide ins' b parts com m = Ok node'.
Proof.
  intros Hi Es. unfold subdivide in *.
  apply bind_Ok_inv in Es. destruct Es as (cs & Ef & Es).
  erewrite for_each_mono; [ | | exact Ef]; auto.
  intros i cs0 cs1 Hb.
  apply bind_Ok_inv in Hb. destruct Hb as (u & Hb & E).
  erewrite first_accepting_mono; [ | | exact Hb]; auto.
Qed.

Lemma insert_fuel_mono (fuel : nat) :
  forall (fuel' : nat) (t : QuadTreeNode) (p : ParticlePtr) (r : QuadTreeNode * bool),
    fuel <= fuel' -> insert fuel ps t p = Ok r -> insert fuel' ps t p = Ok r.
Proof.
  induction fuel as [|fuel IH]; intros fuel' t p r Hle H; [discriminate|].
  destruct fuel' as [|fuel']; [lia|]. rewrite insert_unfold in *.
  assert (IH' : forall c q u, insert fuel ps c q = Ok u -> insert fuel' ps c q = Ok u).
  { intros c q u. apply IH. lia. }
  apply bind_Ok_inv in H. destruct H as (q & Eq & H). rewrite Eq. cbn [bind].
  destruct (negb (contains (boundary t) (position q))); auto.
  destruct t as [b parts com m | b parts c0 c1 c2 c3 com m].
  - destruct (length parts <? MAX_PARTICLES); auto.
    apply bind_Ok_inv in H. destruct H as (node' & Es & H).
    rewrite (subdivide_mono _ (insert fuel' ps) _ _ _ _ IH' Es). cbn [bind]. auto.
  - apply bind_Ok_inv in H. destruct H as (u & Ef & H).
    erewrite first_accepting_mono; [ | | exact Ef]; auto.
Qed.

Lemma first_accepting_returns
      (ins : QuadTreeNode -> ParticlePtr -> result (QuadTreeNode * bool))
      (c0 c1 c2 c3 : QuadTreeNode) (p : ParticlePtr) :
  (forall c, In c [c0; c1; c2; c3] -> exists u, ins c p = Ok u) ->
  exists r, first_accepting ins (c0, c1, c2, c3) p = Ok r.
Proof.
  intros H. unfold first_accepting.
  destruct (H c0) as ([d0 b0] & ->); [simpl; auto|]. cbn [bind]. destruct b0; eauto.
  destruct (H c1) as ([d1 b1] & ->); [simpl; auto|]. cbn [bind]. destruct b1; eauto.
  destruct (H c2) as ([d2 b2] & ->); [simpl; auto|]. cbn [bind]. destruct b2; eauto.
  destruct (H c3) as ([d3 b3] & ->); [simpl; auto 6|]. cbn [bind]. eauto.
Qed.

(** A new node takes or refuses a particle at once. *)
Lemma insert_new_node (fuel : nat) (b : Boundary) (p : ParticlePtr) (q : Particle) :
  nth_error ps p = Some q ->
  insert (Datatypes.S fuel) ps (new_node b) p
  = Ok (if contains b (position q)
        then (Leaf b [p] sf.zero lit_0, true) else (new_node b, false)).
Proof.
  intros Hq. simpl. unfold at_index. rewrite Hq. cbn [bind].
  now destruct (contains b (position q)).
Qed.
End TreeInvariant.

(** A loop whose body always returns does return. *)
Lemma for_each_total {I T : Type} (P : T -> Prop) (range : list I)
      (body : I -> T -> result T) (s : T) :
  (forall i t, In i range -> P t -> exists t', body i t = Ok t' /\ P t') ->
  P s -> exists s', for_each range body s = Ok s' /\ P s'.
Proof.
  revert s. induction range as [|i range IH]; intros s Hb Hs; simpl; eauto.
  destruct (Hb i s) as (t & E & Ht); auto; [now left|]. rewrite E. simpl.
  apply IH; auto. intros j u Hj. apply Hb. now right.
Qed.

Lemma for_each_returns {I T : Type} (range : list I)
      (body : I -> T -> result T) (s : T) :
  (forall i t, In i range -> exists t', body i t = Ok t') ->
  exists s', for_each range body s = Ok s'.
Proof.
  intros Hb.
  destruct (for_each_total (fun _ : T => True) range body s) as (s' & E & _); eauto.
  intros i t Hi _. destruct (Hb i t Hi) as (t' & E). eauto.
Qed.

(** The loop [for (i = 0; i < n; ++i) v[i] = g(i, v[i])]: when [g] returns,
    the loop returns the vector of the [g i v[i]]. *)
Lemma for_each_update {A : Type} (g : nat -> A -> result A) (range : list nat) :
  forall v : list A,
    NoDup range ->
    (forall i, In i range -> i < length v) ->
    (forall i a, In i range -> exists a', g i a = Ok a') ->
    exists v',
      for_each range
        (fun i v => a <- at_index v i ;; a' <- g i a ;; set_index v i a') v = Ok v' /\
      length v' = length v /\
      (forall i, In i range ->
         exists a a', nth_error v i = Some a /\ g i a = Ok a' /\ nth_error v' i = Some a') /\
      (forall i, ~ In i range -> nth_error v' i = nth_error v i).
Proof.
  induction range as [|i range IH]; intros v Hnd Hlt Hg; simpl.
  - exists v. repeat split; auto. intros i [].
  - inversion Hnd as [|? ? Hni Hnd']; subst.
    destruct (at_index_lt v (i:=i)) as (a & Ea); [apply Hlt; now left|].
    destruct (Hg i a) as (a' & Eg); [now left|].
    destruct (set_index_Ok v a' (i:=i)) as (v1 & Es & L1 & N1 & O1); [apply Hlt; now left|].
    rewrite Ea. simpl. rewrite Eg. simpl. rewrite Es. simpl.
    destruct (IH v1) as (v' & E & L & In' & Out'); auto.
    { intros j Hj. rewrite L1. apply Hlt. now right. }
    { intros j b Hj. apply Hg. now right. }
    exists v'. repeat split; auto; [congruence| |].
    + intros j [<-|Hj].
      * exists a, a'. repeat split; auto.
        { now apply at_index_Ok. }
        rewrite (Out' i Hni). exact N1.
      * destruct (In' j Hj) as (b & b' & Nb & Gb & Nb').
        exists b, b'. repeat split; auto. rewrite <- O1; auto.
        intros ->. contradiction.
    + intros j Hj. rewrite Out'; [|intros Hj'; apply Hj; now right].
      apply O1. intros ->. apply Hj. now left.
Qed.

(** ** Trees made by [build] *)

Section Built.
Context {S : Scalar} {SQ : Sqrt S}.

(** [0 == 0] holds and [0 > 0] does not. *)
Hypothesis zero_eq : (lit_0 ==? lit_0)%num = true.
Hypothesis zero_not_pos : (lit_0 >? lit_0)%num = false.

Lemma well_formed_totalMass (ps : list Particle) (t : QuadTreeNode) :
  well_formed ps t -> totalMass t = lit_0.
Proof. destruct t; simpl; tauto. Qed.

Lemma well_formed_nodes (ps : list Particle) (t : QuadTreeNode) :
  well_formed ps t -> forall n, In n (nodes t) -> well_formed ps n.
Proof.
  induction t as [|b parts c0 IH0 c1 IH1 c2 IH2 c3 IH3 com m];
    intros W n [<-|Hn]; auto; [destruct Hn|].
  destruct W as (_ & _ & _ & _ & W0 & W1 & W2 & W3).
  repeat (apply in_app_or in Hn; destruct Hn as [Hn|Hn]); auto.
Qed.

Lemma inserts_well_formed (fuel : nat) (ps : list Particle) (range : list nat)
      (t t' : QuadTreeNode) :
  for_each range (fun i node => '(node', _) <- insert fuel ps node i ;; Ok node') t = Ok t' ->
  well_formed ps t -> well_formed ps t' /\ boundary t' = boundary t.
Proof.
  intros H W.
  eapply (for_each_invariant
            (fun u => well_formed ps u /\ boundary u = boundary t)); [ | | exact H]; auto.
  intros i u u' _ [Wu Bu] Hb.
  apply bind_Ok_inv in Hb. destruct Hb as ([u1 ok] & Hi & E). injection E as <-.
  destruct (insert_kept ps fuel u i Hi Wu) as [W1 B1]. split; congruence.
Qed.

(** The root that [build] returns for a new node: the well-formed tree of
    the insertions with the mass and centre of the root alone updated. *)
Lemma build_new_node (fuel : nat) (ps : list Particle) (b : Boundary)
      (root : QuadTreeNode) :
  build fuel ps (new_node b) = Ok root ->
  exists t, well_formed ps t /\ boundary t = b /\ updateCenterOfMass ps t = Ok root.
Proof.
  unfold build. intros H. apply bind_Ok_inv in H. destruct H as (t & Hi & Hu).
  destruct (inserts_well_formed fuel ps _ _ Hi (well_formed_new_node ps b)) as [W B].
  exists t. auto.
Qed.

(** The mass of an internal root is the sum over children whose mass was
    never computed: it is zero. *)
Lemma updateCenterOfMass_shape (ps : list Particle) (t root : QuadTreeNode) :
  well_formed ps t -> updateCenterOfMass ps t = Ok root ->
  match t with
  | Leaf b parts _ _ =>
    exists com m, root = Leaf b parts com m /\ (parts = [] -> m = lit_0)
  | Internal b parts c0 c1 c2 c3 _ _ =>
    root = Internal b parts c0 c1 c2 c3 (sf.Vec lit_0 lit_0) lit_0
  end.
Proof.
  destruct t as [b parts com m | b parts c0 c1 c2 c3 com m]; intros W H.
  - simpl in H. destruct parts as [|p parts].
    + injection H as <-. eauto.
    + apply bind_Ok_inv in H. destruct H as ([m' com'] & _ & H).
      injection H as <-. eexists _, _. split; eauto. discriminate.
  - destruct W as (_ & _ & _ & _ & W0 & W1 & W2 & W3).
    apply well_formed_totalMass in W0, W1, W2, W3.
    unfold updateCenterOfMass in H. cbn [fold_left] in H.
    rewrite W0, zero_not_pos in H. rewrite W1, zero_not_pos in H.
    rewrite W2, zero_not_pos in H. rewrite W3, zero_not_pos in H.
    rewrite zero_not_pos in H. injection H as <-. reflexivity.
Qed.

Lemma skip_node_well_formed (ps : list Particle) (n : QuadTreeNode) (particle : ParticlePtr) :
  well_formed ps n -> skip_node n particle = Ok true.
Proof.
  intros W. unfold skip_node. now rewrite (well_formed_totalMass ps n W), zero_eq.
Qed.

Lemma computeForce_leaf_returns (ps : list Particle) (b : Boundary)
      (parts : list ParticlePtr) (com : sf.Vector2f) (m : num)
      (particle : ParticlePtr) (skip : bool) :
  Forall (stored_in ps b) parts -> particle < length ps ->
  skip_node (Leaf b parts com m) particle = Ok skip ->
  forall force theta G softening,
    exists f, computeForce ps (Leaf b parts com m) particle force theta G softening = Ok f.
Proof.
  intros F Hp Hs force theta G softening.
  cbn [computeForce]. rewrite Hs. cbn [bind].
  destruct skip; eauto.
  destruct (at_index_lt ps Hp) as (me & ->). cbn [bind].
  apply for_each_returns. intros i frc Hi.
  destruct (negb (i =? particle)); eauto.
  rewrite Forall_forall in F. destruct (F i Hi) as (q & Nq & _).
  apply at_index_Ok in Nq. rewrite Nq. simpl. eauto.
Qed.

Lemma build_traversal
      (fuel : nat) (ps : list Particle) (b : Boundary) (root : QuadTreeNode)
      (particle : ParticlePtr) :
  build fuel ps (new_node b) = Ok root ->
  (forall node, In node (nodes root) -> exists skip, skip_node node particle = Ok skip) /\
  (particle < length ps ->
   forall force theta G softening,
     exists f, computeForce ps root particle force theta G softening = Ok f).
Proof.
  intros H. destruct (build_new_node fuel ps b H) as (t & W & _ & Hu).
  pose proof (updateCenterOfMass_shape ps t W Hu) as Hs.
  destruct t as [b' parts com m | b' parts c0 c1 c2 c3 com m].
  - destruct Hs as (com' & m' & -> & Hm).
    assert (Hg : exists skip, skip_node (Leaf b' parts com' m') particle = Ok skip).
    { unfold skip_node. simpl.
      destruct (m' ==? lit_0)%num eqn:E; eauto.
      destruct parts as [|p parts]; eauto.
      rewrite Hm in E by reflexivity. congruence. }
    split.
    + intros node [<-|[]]. exact Hg.
    + intros Hp. destruct Hg as (skip & Hg). destruct W as (_ & F & _).
      now apply computeForce_leaf_returns with (skip := skip).
  - subst root. split.
    + intros node [<-|Hn].
      * unfold skip_node. simpl. rewrite zero_eq. eauto.
      * exists true. apply skip_node_well_formed with (ps := ps).
        apply (well_formed_nodes ps _ W). right. exact Hn.
    + intros _ force theta G softening. exists force.
      apply computeForce_skip. apply skip_node_zero_mass. exact zero_eq.
Qed.

(** Whenever [build] returns an internal root, its mass is zero, whatever
    it holds, and no traversal adds anything to a force. *)
Lemma build_internal_root (fuel : nat) (ps : list Particle) (b : Boundary)
      (root : QuadTreeNode) :
  build fuel ps (new_node b) = Ok root -> isLeaf root = false ->
  totalMass root = lit_0 /\
  forall particle force theta G softening,
    computeForce ps root particle force theta G softening = Ok force.
Proof.
  intros H Hl. destruct (build_new_node fuel ps b H) as (t & W & _ & Hu).
  pose proof (updateCenterOfMass_shape ps t W Hu) as Hs.
  destruct t as [b' parts com m | b' parts c0 c1 c2 c3 com m].
  - destruct Hs as (com' & m' & -> & _). discriminate.
  - subst root. split; [reflexivity|]. intros particle force theta G softening.
    apply computeForce_skip. apply skip_node_zero_mass. exact zero_eq.
Qed.

(** X26.  In a tree that [build] made from a new node, as [computeForces]
    does, the guard of [computeForce] never reads [particles.front()] of
    an empty vector, at any node of the tree: an empty leaf and every
    internal node have [totalMass == 0], which ends the guard before
    [front()] is read.  The traversal for a particle of the vector
    returns a force. *)
Theorem built_tree_guard_defined
        (fuel : nat) (ps : list Particle) (b : Boundary) (root : QuadTreeNode)
        (particle : ParticlePtr) :
  build fuel ps (new_node b) = Ok root ->
  (forall node, In node (nodes root) -> exists skip, skip_node node particle = Ok skip) /\
  (particle < length ps ->
   forall force theta G softening,
     exists f, computeForce ps root particle force theta G softening = Ok f).
Proof. apply build_traversal. Qed.

End Built.

(** ** Runs in single precision *)

Section SinglePrecision.
#[local] Existing Instance Binary32.scalar.
#[local] Existing Instance Binary32.sqrt.

Lemma build_two_bodies : build 10 two_bodies (new_node square) = Ok two_bodies_tree.
Proof. reflexivity. Qed.

(** C1 (the code does not do what the claim says).  For two bodies of
    masses 1 and 2 inside the root boundary, [build] returns an internal
    root whose [totalMass] is 0 although both bodies are stored in its
    children and their masses sum to 3. *)
Theorem build_root_mass_not_aggregated :
  (forall p, In p two_bodies -> contains square (position p) = true) /\
  build 10 two_bodies (new_node square) = Ok two_bodies_tree /\
  stored two_bodies_tree = [1; 0] /\
  totalMass two_bodies_tree = Binary32.of_Z 0 /\
  mass_sum two_bodies = Binary32.of_Z 3.
Proof.
  split.
  - intros p [<-|[<-|[]]]; reflexivity.
  - repeat split; reflexivity.
Qed.

(** C2 (the code does not do what the claim says).  For the two bodies,
    whatever the opening angle [theta], the Barnes-Hut [computeForces]
    returns the zero force for both, and the all-pairs sum with the same
    [G = 1] and softening [1] does not. *)
Theorem barnes_hut_differs_from_pairwise_sum :
  forall theta : num,
    BarnesHutForceCalculator.computeForces 10 theta two_bodies
      (Binary32.of_Z 1) (Binary32.of_Z 1) = Ok [sf.zero; sf.zero] /\
    NBodySimulation.computeForces (Binary32.of_Z 1) (Binary32.of_Z 1) two_bodies
    = Ok [sf.Vec (S754_finite true 9942054 (-26)) (S754_finite true 9942054 (-26));
          sf.Vec (S754_finite false 9942054 (-26)) (S754_finite false 9942054 (-26))].
Proof. intros theta. split; reflexivity. Qed.

Lemma rootBoundary_coincident :
  BarnesHutForceCalculator.rootBoundary coincident (body 1 1 1) = point.
Proof. reflexivity. Qed.

(** The second body never finds a place: the leaf that holds the first one
    is split into children of which the first has the boundary of its
    parent, and takes both bodies again. *)
Lemma insert_coincident_diverges (fuel : nat) :
  insert fuel coincident (Leaf point [0] sf.zero lit_0) 1 = OutOfFuel.
Proof.
  induction fuel as [fuel IH] using lt_wf_ind.
  destruct fuel as [|[|fuel]]; [reflexivity | reflexivity | ].
  pose proof (IH fuel ltac:(lia)) as H. cbn.
  match goal with
  | |- context [insert fuel ?ps (Leaf ?b ?l ?c ?m) 1] =>
    change (insert fuel ps (Leaf b l c m) 1)
      with (insert fuel coincident (Leaf point [0] sf.zero lit_0) 1)
  end.
  rewrite H. reflexivity.
Qed.

(** C4 (counterexample).  [computeForces] does not return for two bodies at
    the same place, whatever the fuel; and with a body at the origin and a
    body whose position is NaN the output for the swapped input is not the
    swapped output: the first position fixes the bounding box. *)
Lemma computeForces_not_for_every_list :
  (forall fuel theta G softening,
     BarnesHutForceCalculator.computeForces fuel theta coincident G softening
     = OutOfFuel) /\
  BarnesHutForceCalculator.computeForces 5 lit_0_5 [body 0 0 1; nan_body]
    (Binary32.of_Z 1) (Binary32.of_Z 1)
  = Ok [sf.zero; sf.Vec S754_nan S754_nan] /\
  BarnesHutForceCalculator.computeForces 5 lit_0_5 [nan_body; body 0 0 1]
    (Binary32.of_Z 1) (Binary32.of_Z 1)
  = Ok [sf.zero; sf.zero].
Proof.
  split; [|split; reflexivity].
  intros fuel theta G softening.
  unfold BarnesHutForceCalculator.computeForces, coincident at 1.
  rewrite rootBoundary_coincident.
  destruct fuel as [|fuel]; [reflexivity|].
  unfold build. cbn [seq length for_each coincident].
  change (insert (S fuel) coincident (new_node point) 0)
    with (Ok (Leaf point [0] sf.zero lit_0, true) : result (QuadTreeNode * bool)).
  cbn [bind]. rewrite insert_coincident_diverges. reflexivity.
Qed.

(** C8 (counterexample).  With a body of mass 0 nothing is rejected: the
    derivative evaluation divides the zero force on it by its mass and
    returns NaN as its acceleration, and [integrate] returns a store in
    which the positions and velocities of both bodies are NaN. *)
Lemma zero_mass_not_rejected :
  let nan := sf.Vec S754_nan S754_nan in
  (mass (body 1 1 0) <=? lit_0)%num = true /\
  (exists a,
     RungeKuttaIntegrator.evaluate
       (RungeKuttaIntegrator.mkState (map position with_massless)
                                     (map velocity with_massless))
       lit_0 (at_rest 2) pull with_massless
     = Ok (RungeKuttaIntegrator.mkDerivative [sf.zero; sf.zero] [nan; a])) /\
  RungeKuttaIntegrator.integrate with_massless pull (Binary32.of_Z 1)
  = Ok [mkParticle nan nan nan (Binary32.of_Z 0) false;
        mkParticle nan nan nan (Binary32.of_Z 2) false].
Proof. repeat split; try reflexivity. eexists. reflexivity. Qed.
End SinglePrecision.

(** ** The integrator *)

Section Integration.
Context {S : Scalar}.
Import RungeKuttaIntegrator.

Lemma same_bodies_refl (ps : list Particle) : same_bodies ps ps.
Proof. induction ps; constructor; auto. Qed.

Lemma Forall2_set_index {A B : Type} (R : A -> B -> Prop) (l : list A)
      (v v' : list B) (i : nat) (b b' : B) :
  Forall2 R l v -> nth_error v i = Some b -> (forall a, R a b -> R a b') ->
  set_index v i b' = Ok v' -> Forall2 R l v'.
Proof.
  intros F. revert i v'. induction F as [|a c l v Hac F IH]; intros i v' Hn Hr Hs.
  - destruct i; discriminate.
  - destruct i as [|i]; simpl in *.
    + injection Hn as ->. injection Hs as <-. constructor; auto.
    + apply bind_Ok_inv in Hs. destruct Hs as (w & Hs & E). injection E as <-.
      constructor; eauto.
Qed.

Lemma nth_error_Some_lt {A : Type} (l : list A) (i : nat) (a : A) :
  nth_error l i = Some a -> i < length l.
Proof. intros H. apply nth_error_Some. congruence. Qed.

Lemma Forall2_nth_error_mass (ps qs : list Particle) :
  same_bodies ps qs ->
  forall i p q, nth_error ps i = Some p -> nth_error qs i = Some q ->
                mass q = mass p /\ fixed q = fixed p.
Proof.
  intros F. induction F as [|p0 q0 ps qs H F IH]; intros [|i] p q Hp Hq;
    simpl in *; try discriminate.
  - injection Hp as <-. injection Hq as <-. exact H.
  - eauto.
Qed.

(** The temporary particles of [evaluate] are the same bodies as
    [particles]. *)
Lemma displace_same_bodies (initial state : State) (dt : num) (d : Derivative)
      (particles tempParticles : list Particle) :
  displace initial dt d particles = Ok (state, tempParticles) ->
  same_bodies particles tempParticles.
Proof.
  unfold displace. intros H.
  eapply (for_each_invariant (fun st => same_bodies particles (snd st)))
    in H; [exact H | | apply same_bodies_refl].
  intros i [st tmp] [st' tmp'] _ Hs Hb. simpl in *.
  repeat (apply bind_Ok_inv in Hb; destruct Hb as (? & ? & Hb)).
  injection Hb as _ <-.
  repeat match goal with
         | H : at_index _ _ = Ok _ |- _ => apply at_index_Ok in H
         end.
  eapply Forall2_set_index; [ | eassumption | | eassumption ]; [ | intros a Ha; exact Ha ].
  eapply Forall2_set_index; [ exact Hs | eassumption | | eassumption ].
  intros a Ha; exact Ha.
Qed.

(** [evaluate] applies the force function to the same bodies only. *)
Lemma evaluate_ext (initial : State) (dt : num) (d : Derivative)
      (f g : ForceFunc) (particles : list Particle) :
  (forall qs, same_bodies particles qs -> g qs = f qs) ->
  evaluate initial dt d g particles = evaluate initial dt d f particles.
Proof.
  intros Hfg. unfold evaluate.
  destruct (displace initial dt d particles) as [[state tmp]| |] eqn:E; auto.
  simpl. rewrite (Hfg tmp); auto. eapply displace_same_bodies; eauto.
Qed.

Lemma integrate_ext (particles : list Particle) (f g : ForceFunc) (dt : num) :
  (forall qs, same_bodies particles qs -> g qs = f qs) ->
  integrate particles g dt = integrate particles f dt.
Proof.
  intros Hfg. unfold integrate.
  rewrite (evaluate_ext _ _ _ _ _ Hfg).
  destruct evaluate as [k1| |]; auto. simpl.
  rewrite (evaluate_ext _ _ _ _ _ Hfg).
  destruct evaluate as [k2| |]; auto. simpl.
  rewrite (evaluate_ext _ _ _ _ _ Hfg).
  destruct evaluate as [k3| |]; auto. simpl.
  rewrite (evaluate_ext _ _ _ _ _ Hfg). reflexivity.
Qed.

(** The update loop of [integrate] leaves the fixed particles alone. *)
Lemma integrate_frame (particles particles' : list Particle) (f : ForceFunc) (dt : num) :
  integrate particles f dt = Ok particles' ->
  length particles' = length particles /\
  forall i p, nth_error particles i = Some p -> fixed p = true ->
              nth_error particles' i = Some p.
Proof.
  unfold integrate. intros H.
  repeat (apply bind_Ok_inv in H; destruct H as (? & _ & H)).
  eapply (for_each_invariant
            (fun cur => length cur = length particles /\
                        forall i p, nth_error particles i = Some p -> fixed p = true ->
                                    nth_error cur i = Some p)) in H; auto.
  intros i cur cur' _ [L F] Hb.
  apply bind_Ok_inv in Hb. destruct Hb as (p & Hp & Hb). apply at_index_Ok in Hp.
  destruct (fixed p) eqn:Ef; simpl in Hb.
  { injection Hb as <-. auto. }
  repeat (apply bind_Ok_inv in Hb; destruct Hb as (? & _ & Hb)).
  apply set_index_inv in Hb. destruct Hb as (_ & L' & _ & O).
  split; [congruence|]. intros j q Hq Fq.
  rewrite O; auto. intros ->. rewrite (F i q Hq Fq) in Hp. congruence.
Qed.

(** C7.  When [integrate] returns, every particle with [fixed == true] is
    in the store as it was before the call (position and velocity
    included), whatever [dt] and the force function; and the force function
    is only ever applied to vectors that hold all the bodies, the fixed ones
    too, with their masses: replacing it by one that agrees with it on such
    vectors changes nothing. *)
Theorem integrate_keeps_fixed_particles
        (particles particles' : list Particle) (forceFunc : ForceFunc) (dt : num) :
  integrate particles forceFunc dt = Ok particles' ->
  length particles' = length particles /\
  (forall i p, nth_error particles i = Some p -> fixed p = true ->
               nth_error particles' i = Some p) /\
  (forall g : ForceFunc,
      (forall qs, same_bodies particles qs -> g qs = forceFunc qs) ->
      integrate particles g dt = Ok particles').
Proof.
  intros H. destruct (integrate_frame _ _ _ H) as [L F].
  repeat split; auto.
  intros g Hg. rewrite <- H. now apply integrate_ext.
Qed.
End Integration.

Lemma nth_error_combine {A B : Type} (l : list A) (l' : list B) (i : nat) :
  nth_error (combine l l') i =
  match nth_error l i, nth_error l' i with
  | Some a, Some b => Some (a, b)
  | _, _ => None
  end.
Proof.
  revert l' i. induction l as [|a l IH]; intros [|b l'] [|i]; simpl; auto.
  now destruct (nth_error l i).
Qed.

(** A counting loop with an invariant indexed by the number of rounds
    done. *)
Lemma for_each_count {T : Type} (Inv : nat -> T -> Prop) (n : nat)
      (body : nat -> T -> result T) (s : T) :
  Inv 0 s ->
  (forall k t, k < n -> Inv k t -> exists t', body k t = Ok t' /\ Inv (Datatypes.S k) t') ->
  exists s', for_each (seq 0 n) body s = Ok s' /\ Inv n s'.
Proof.
  intros H0 Hstep. induction n as [|n IH].
  - exists s. auto.
  - destruct IH as (t & E & Ht). { intros k u Hk. apply Hstep. lia. }
    destruct (Hstep n t) as (t' & E' & Ht'); auto.
    exists t'. split; auto.
    rewrite seq_S, for_each_app, E. simpl. now rewrite E'.
Qed.

Lemma list_eq_pointwise {A : Type} (l l' : list A) (n : nat) :
  length l = n -> length l' = n ->
  (forall i, i < n -> nth_error l i = nth_error l' i) -> l = l'.
Proof.
  intros L L' H. apply nth_error_ext. intros i.
  destruct (Nat.lt_ge_cases i n) as [Hi|Hi]; auto.
  transitivity (@None A); [|symmetry]; apply nth_error_None; lia.
Qed.

Section Refinement.
Context {S : Scalar}.
Import RungeKuttaIntegrator.

Lemma nth_error_displaced (particles : list Particle) (d : Derivative) (h : num)
      (i : nat) (p : Particle) (dx dv : sf.Vector2f) :
  nth_error particles i = Some p -> nth_error (dpos d) i = Some dx ->
  nth_error (dvel d) i = Some dv ->
  nth_error (displaced particles d h) i
  = Some (mkParticle (position p + dx *: h)%vec (velocity p + dv *: h)%vec
                     (acceleration p) (mass p) (fixed p)).
Proof.
  intros Hp Hx Hv. unfold displaced.
  now rewrite nth_error_map, !nth_error_combine, Hp, Hx, Hv.
Qed.

Lemma length_displaced (particles : list Particle) (d : Derivative) (h : num) :
  length (dpos d) = length particles -> length (dvel d) = length particles ->
  length (displaced particles d h) = length particles.
Proof.
  intros Lx Lv. unfold displaced. rewrite length_map, !length_combine. lia.
Qed.

(** The first loop of [evaluate] builds the displaced snapshot. *)
Lemma displace_displaced (particles : list Particle) (d : Derivative) (h : num) :
  length (dpos d) = length particles -> length (dvel d) = length particles ->
  let snapshot := displaced particles d h in
  displace (mkState (map position particles) (map velocity particles)) h d particles
  = Ok (mkState (map position snapshot) (map velocity snapshot), snapshot).
Proof.
  intros Lx Lv snapshot. set (n := length particles).
  pose proof (length_displaced particles d h Lx Lv) as Ls. fold snapshot n in Ls.
  unfold displace. cbn [positions velocities]. rewrite !length_map. fold n.
  destruct (@for_each_count (State * list Particle)
    (fun k (st : State * list Particle) =>
       length (positions (fst st)) = n /\ length (velocities (fst st)) = n /\
       length (snd st) = n /\
       (forall i, i < k ->
          nth_error (positions (fst st)) i = nth_error (map position snapshot) i /\
          nth_error (velocities (fst st)) i = nth_error (map velocity snapshot) i /\
          nth_error (snd st) i = nth_error snapshot i) /\
       (forall i, k <= i -> nth_error (snd st) i = nth_error particles i))
    n
    (fun i '(state, tempParticles) =>
         x0 <- at_index (map position particles) i ;;
         dx <- at_index (dpos d) i ;;
         positions' <- set_index (positions state) i (x0 + dx *: h)%vec ;;
         v0 <- at_index (map velocity particles) i ;;
         dv <- at_index (dvel d) i ;;
         velocities' <- set_index (velocities state) i (v0 + dv *: h)%vec ;;
         tp <- at_index tempParticles i ;;
         temp1 <- set_index tempParticles i (set_position tp (x0 + dx *: h)%vec) ;;
         tp1 <- at_index temp1 i ;;
         temp2 <- set_index temp1 i (set_velocity tp1 (v0 + dv *: h)%vec) ;;
         Ok (mkState positions' velocities', temp2))
    (mkState (repeat sf.zero n) (repeat sf.zero n), particles))
    as ([state tmp] & E & L1 & L2 & L3 & Hlt & _).
  - cbn [fst snd positions velocities]. rewrite !repeat_length.
    repeat split; auto; lia.
  - intros k [state tmp] Hk (L1 & L2 & L3 & Hlt & Hge).
    cbn [fst snd] in *.
    destruct (nth_error particles k) as [p|] eqn:Ep;
      [|apply nth_error_None in Ep; lia].
    destruct (nth_error (dpos d) k) as [dx|] eqn:Ex;
      [|apply nth_error_None in Ex; lia].
    destruct (nth_error (dvel d) k) as [dv|] eqn:Ev;
      [|apply nth_error_None in Ev; lia].
    unfold at_index at 1. rewrite nth_error_map, Ep. cbn [option_map bind].
    unfold at_index at 1. rewrite Ex. cbn [bind].
    destruct (set_index_Ok (positions state) (position p + dx *: h)%vec (i:=k))
      as (ps' & Es1 & Lp & Np & Op); [lia|]. rewrite Es1. cbn [bind].
    unfold at_index at 1. rewrite nth_error_map, Ep. cbn [option_map bind].
    unfold at_index at 1. rewrite Ev. cbn [bind].
    destruct (set_index_Ok (velocities state) (velocity p + dv *: h)%vec (i:=k))
      as (vs' & Es2 & Lv' & Nv & Ov); [lia|]. rewrite Es2. cbn [bind].
    unfold at_index at 1. rewrite (Hge k) by lia. rewrite Ep. cbn [bind].
    destruct (set_index_Ok tmp (set_position p (position p + dx *: h)%vec) (i:=k))
      as (t1 & Es3 & Lt1 & Nt1 & Ot1); [lia|]. rewrite Es3. cbn [bind].
    unfold at_index at 1. rewrite Nt1. cbn [bind].
    destruct (set_index_Ok t1
                (set_velocity (set_position p (position p + dx *: h)%vec)
                              (velocity p + dv *: h)%vec) (i:=k))
      as (t2 & Es4 & Lt2 & Nt2 & Ot2); [lia|]. rewrite Es4. cbn [bind].
    eexists. split; [reflexivity|]. cbn [fst snd positions velocities].
    pose proof (nth_error_displaced particles d h k Ep Ex Ev) as Hs.
    fold snapshot in Hs.
    repeat split; try lia.
    + destruct (Nat.eq_dec i k) as [->|Hik].
      * now rewrite Np, nth_error_map, Hs.
      * rewrite Op by auto. apply Hlt. lia.
    + destruct (Nat.eq_dec i k) as [->|Hik].
      * now rewrite Nv, nth_error_map, Hs.
      * rewrite Ov by auto. apply Hlt. lia.
    + destruct (Nat.eq_dec i k) as [->|Hik].
      * now rewrite Nt2, Hs.
      * rewrite Ot2, Ot1 by auto. apply Hlt. lia.
    + intros i Hi. rewrite Ot2, Ot1 by lia. apply Hge. lia.
  - rewrite E. f_equal. cbn [fst snd] in *.
    assert (tmp = snapshot) as ->.
    { apply list_eq_pointwise with (n := n); auto. intros i Hi. now apply Hlt. }
    destruct state as [xs vs]. cbn [positions velocities] in *.
    f_equal. f_equal.
    + apply list_eq_pointwise with (n := n); auto; [now rewrite length_map|].
      intros i Hi. now apply Hlt.
    + apply list_eq_pointwise with (n := n); auto; [now rewrite length_map|].
      intros i Hi. now apply Hlt.
Qed.
(** The second loop of [evaluate] divides every force by the mass of its
    particle. *)
Lemma accelerations_loop (forces : list sf.Vector2f) (tempParticles : list Particle) :
  length forces = length tempParticles ->
  for_each (seq 0 (length forces))
    (fun i out =>
       f <- at_index forces i ;;
       tp <- at_index tempParticles i ;;
       set_index out i (f /: mass tp)%vec)
    (repeat sf.zero (length forces))
  = Ok (map (fun '(f, p) => (f /: mass p)%vec) (combine forces tempParticles)).
Proof.
  intros L. set (n := length forces).
  set (target := map (fun '(f, p) => (f /: mass p)%vec) (combine forces tempParticles)).
  assert (Lt : length target = n).
  { unfold target. rewrite length_map, length_combine. lia. }
  destruct (@for_each_count (list sf.Vector2f)
    (fun k out => length out = n /\
                  forall i, i < k -> nth_error out i = nth_error target i)
    n
    (fun i out =>
       f <- at_index forces i ;;
       tp <- at_index tempParticles i ;;
       set_index out i (f /: mass tp)%vec)
    (repeat sf.zero n)) as (out & E & Lo & Ho).
  - rewrite repeat_length. split; auto. intros i Hi. lia.
  - intros k out Hk [Lo Ho].
    destruct (nth_error forces k) as [f|] eqn:Ef;
      [|apply nth_error_None in Ef; lia].
    destruct (nth_error tempParticles k) as [tp|] eqn:Ep;
      [|apply nth_error_None in Ep; lia].
    unfold at_index. rewrite Ef, Ep. cbn [bind].
    destruct (set_index_Ok out (f /: mass tp)%vec (i:=k)) as (out' & Es & L' & N' & O');
      [lia|].
    rewrite Es. eexists. split; [reflexivity|]. split; [lia|].
    intros i Hi. destruct (Nat.eq_dec i k) as [->|Hik].
    + rewrite N'. unfold target. now rewrite nth_error_map, nth_error_combine, Ef, Ep.
    + rewrite O' by auto. apply Ho. lia.
  - rewrite E. f_equal. apply list_eq_pointwise with (n := n); auto.
Qed.

(** [evaluate], called as [integrate] calls it, is one stage of the
    specification.  The force function is assumed to return one force per
    body. *)
Lemma evaluate_stage (particles : list Particle) (forceFunc : ForceFunc)
      (d : Derivative) (h : num) :
  (forall qs forces, same_bodies particles qs -> forceFunc qs = Ok forces ->
                     length forces = length qs) ->
  length (dpos d) = length particles -> length (dvel d) = length particles ->
  evaluate (mkState (map position particles) (map velocity particles)) h d
           forceFunc particles
  = rk4_stage particles forceFunc d h /\
  forall k, rk4_stage particles forceFunc d h = Ok k ->
            length (dpos k) = length particles /\ length (dvel k) = length particles.
Proof.
  intros Hf Lx Lv.
  pose proof (displace_displaced particles d h Lx Lv) as Hd. cbv zeta in Hd.
  pose proof (displace_same_bodies _ _ _ _ Hd) as Hsame.
  pose proof (length_displaced particles d h Lx Lv) as Ls.
  unfold evaluate, rk4_stage. rewrite Hd. cbn [bind].
  destruct (forceFunc (displaced particles d h)) as [forces| |] eqn:Ef;
    cbn [bind]; [|split; [reflexivity|discriminate] ..].
  pose proof (Hf _ _ Hsame Ef) as Lf.
  rewrite (accelerations_loop forces _ Lf). cbn [bind velocities].
  split; [reflexivity|].
  intros k Hk. injection Hk as <-. unfold derivative_at. cbn [dpos dvel].
  rewrite !length_map, length_combine. lia.
Qed.

(** The update loop of [integrate] applies the weighted average to every
    particle that is not fixed. *)
Lemma update_loop (particles : list Particle) (k1 k2 k3 k4 : Derivative) (dt : num) :
  (forall k, In k [k1; k2; k3; k4] ->
             length (dpos k) = length particles /\ length (dvel k) = length particles) ->
  for_each (seq 0 (length particles))
    (fun i particles =>
       p <- at_index particles i ;;
       if negb (fixed p) then
         a1 <- at_index (dpos k1) i ;; a2 <- at_index (dpos k2) i ;;
         a3 <- at_index (dpos k3) i ;; a4 <- at_index (dpos k4) i ;;
         let dxdt := weighted a1 a2 a3 a4 in
         b1 <- at_index (dvel k1) i ;; b2 <- at_index (dvel k2) i ;;
         b3 <- at_index (dvel k3) i ;; b4 <- at_index (dvel k4) i ;;
         let dvdt := weighted b1 b2 b3 b4 in
         set_index particles i
           (mkParticle (position p + dxdt *: dt)%vec
                       (velocity p + dvdt *: dt)%vec
                       dvdt (mass p) (fixed p))
       else Ok particles)
    particles
  = Ok (map (fun '(p, (e1, (e2, (e3, e4)))) => rk4_update dt p e1 e2 e3 e4)
          (combine particles
             (combine (estimates k1)
                (combine (estimates k2) (combine (estimates k3) (estimates k4)))))).
Proof.
  intros Hk. set (n := length particles).
  destruct (Hk k1) as [X1 V1]; [simpl; auto|].
  destruct (Hk k2) as [X2 V2]; [simpl; auto|].
  destruct (Hk k3) as [X3 V3]; [simpl; auto|].
  destruct (Hk k4) as [X4 V4]; [simpl; auto 6|].
  fold n in X1, V1, X2, V2, X3, V3, X4, V4.
  match goal with |- _ = Ok ?t => set (target := t) end.
  assert (Lt : length target = n).
  { unfold target, estimates. rewrite length_map, !length_combine. lia. }
  match goal with
  | |- for_each _ ?body _ = _ =>
    destruct (@for_each_count (list Particle)
      (fun k cur => length cur = n /\
                    (forall i, i < k -> nth_error cur i = nth_error target i) /\
                    (forall i, k <= i -> nth_error cur i = nth_error particles i))
      n body particles) as (out & E & Lo & Ho & _)
  end.
  - repeat split; auto; lia.
  - intros k cur Hlt (Lc & Hdone & Hrest).
    destruct (nth_error particles k) as [p|] eqn:Ep;
      [|apply nth_error_None in Ep; lia].
    destruct (nth_error (dpos k1) k) as [a1|] eqn:A1; [|apply nth_error_None in A1; lia].
    destruct (nth_error (dpos k2) k) as [a2|] eqn:A2; [|apply nth_error_None in A2; lia].
    destruct (nth_error (dpos k3) k) as [a3|] eqn:A3; [|apply nth_error_None in A3; lia].
    destruct (nth_error (dpos k4) k) as [a4|] eqn:A4; [|apply nth_error_None in A4; lia].
    destruct (nth_error (dvel k1) k) as [b1|] eqn:B1; [|apply nth_error_None in B1; lia].
    destruct (nth_error (dvel k2) k) as [b2|] eqn:B2; [|apply nth_error_None in B2; lia].
    destruct (nth_error (dvel k3) k) as [b3|] eqn:B3; [|apply nth_error_None in B3; lia].
    destruct (nth_error (dvel k4) k) as [b4|] eqn:B4; [|apply nth_error_None in B4; lia].
    assert (Ht : nth_error target k
                 = Some (rk4_update dt p (a1, b1) (a2, b2) (a3, b3) (a4, b4))).
    { unfold target, estimates.
      now rewrite nth_error_map, !nth_error_combine, Ep, A1, A2, A3, A4, B1, B2, B3, B4. }
    unfold at_index at 1. rewrite (Hrest k) by lia. rewrite Ep. cbn [bind].
    destruct (fixed p) eqn:Ef; cbn [negb].
    + eexists. split; [reflexivity|]. repeat split; auto.
      * intros i Hi. destruct (Nat.eq_dec i k) as [->|Hik]; [|apply Hdone; lia].
        rewrite Ht, (Hrest k) by lia. unfold rk4_update. now rewrite Ef.
      * intros i Hi. apply Hrest. lia.
    + unfold at_index. rewrite A1, A2, A3, A4, B1, B2, B3, B4. cbn [bind].
      match goal with
      | |- context [set_index cur k ?v] =>
        destruct (set_index_Ok cur v (i:=k)) as (cur' & Es & L' & N' & O'); [lia|]
      end.
      rewrite Es. eexists. split; [reflexivity|]. repeat split; try lia.
      * intros i Hi. destruct (Nat.eq_dec i k) as [->|Hik].
        { rewrite N', Ht. unfold rk4_update. rewrite Ef. reflexivity. }
        rewrite O' by auto. apply Hdone. lia.
      * intros i Hi. rewrite O' by lia. apply Hrest. lia.
  - rewrite E. f_equal. apply list_eq_pointwise with (n := n); auto.
Qed.
(** C6.  For a force function that returns one force per body,
    [integrate] is the fourth-order Runge-Kutta step of the specification:
    four derivative estimates (velocity, force / mass), each from one force
    evaluation on a snapshot of the initial particles displaced by 0, by
    [dt/2] times the first estimate, by [dt/2] times the second and by [dt]
    times the third, and every particle that is not fixed moved by [dt]
    times [(k1 + 2 k2 + 2 k3 + k4) / 6] in position and in velocity.  The
    snapshots are made from the particles passed in, which are written only
    by the final update. *)
Theorem integrate_is_rk4 (particles : list Particle) (forceFunc : ForceFunc) (dt : num) :
  (forall qs forces, same_bodies particles qs -> forceFunc qs = Ok forces ->
                     length forces = length qs) ->
  integrate particles forceFunc dt = rk4_step particles forceFunc dt.
Proof.
  intros Hf. unfold integrate, rk4_step.
  set (rest := mkDerivative (repeat sf.zero (length particles))
                            (repeat sf.zero (length particles))).
  destruct (evaluate_stage forceFunc rest lit_0 Hf) as [E1 L1];
    [apply repeat_length ..|].
  rewrite E1. destruct (rk4_stage particles forceFunc rest lit_0) as [k1| |];
    cbn [bind]; auto.
  destruct (L1 k1 eq_refl) as [X1 V1].
  destruct (evaluate_stage forceFunc k1 (dt * lit_0_5)%num Hf X1 V1) as [E2 L2].
  rewrite E2. destruct (rk4_stage particles forceFunc k1 (dt * lit_0_5)%num) as [k2| |];
    cbn [bind]; auto.
  destruct (L2 k2 eq_refl) as [X2 V2].
  destruct (evaluate_stage forceFunc k2 (dt * lit_0_5)%num Hf X2 V2) as [E3 L3].
  rewrite E3. destruct (rk4_stage particles forceFunc k2 (dt * lit_0_5)%num) as [k3| |];
    cbn [bind]; auto.
  destruct (L3 k3 eq_refl) as [X3 V3].
  destruct (evaluate_stage forceFunc k3 dt Hf X3 V3) as [E4 L4].
  rewrite E4. destruct (rk4_stage particles forceFunc k3 dt) as [k4| |];
    cbn [bind]; auto.
  destruct (L4 k4 eq_refl) as [X4 V4].
  apply update_loop.
  intros k [<-|[<-|[<-|[<-|[]]]]]; auto.
Qed.

(** C8 (as amended).  [evaluate] does not look at the masses: whenever the
    force function returns one force per body, it returns the derivative
    whose acceleration for every particle is the force on it divided by its
    mass, whatever that mass is, zero and negative masses included. *)
Theorem evaluate_divides_by_any_mass
        (particles : list Particle) (forceFunc : ForceFunc) (d : Derivative) (h : num)
        (forces : list sf.Vector2f) :
  length (dpos d) = length particles -> length (dvel d) = length particles ->
  forceFunc (displaced particles d h) = Ok forces ->
  length forces = length particles ->
  exists k,
    evaluate (mkState (map position particles) (map velocity particles)) h d
             forceFunc particles = Ok k /\
    length (dvel k) = length particles /\
    forall i p f, nth_error particles i = Some p -> nth_error forces i = Some f ->
                  nth_error (dvel k) i = Some (f /: mass p)%vec.
Proof.
  intros Lx Lv Ef Lf.
  pose proof (displace_displaced particles d h Lx Lv) as Hd. cbv zeta in Hd.
  pose proof (displace_same_bodies _ _ _ _ Hd) as Hsame.
  pose proof (length_displaced particles d h Lx Lv) as Ls.
  unfold evaluate. rewrite Hd. cbn [bind]. rewrite Ef. cbn [bind].
  rewrite accelerations_loop by congruence. cbn [bind].
  eexists. split; [reflexivity|]. cbn [dvel].
  split. { rewrite length_map, length_combine. lia. }
  intros i p f Hp Hfi.
  destruct (nth_error (displaced particles d h) i) as [q|] eqn:Eq.
  2:{ apply nth_error_None in Eq. apply nth_error_Some_lt in Hp. lia. }
  rewrite nth_error_map, nth_error_combine, Hfi, Eq. cbn [option_map].
  destruct (Forall2_nth_error_mass Hsame i Hp Eq) as [-> _]. reflexivity.
Qed.
End Refinement.

(** ** The aggregation pass returns *)

Section Aggregation.
Context {S : Scalar}.

Lemma well_formed_leaves (ps : list Particle) (t : QuadTreeNode) :
  well_formed ps t -> leaves_hold_at_most MAX_PARTICLES t.
Proof.
  intros W node Hin Hl. apply (well_formed_nodes ps t W) in Hin.
  destruct node; [|discriminate]. simpl in *. tauto.
Qed.

(** [updateCenterOfMass] returns on a well-formed tree and changes neither
    the particles nor the children of the node. *)
Lemma updateCenterOfMass_returns (ps : list Particle) (t : QuadTreeNode) :
  well_formed ps t ->
  exists root, updateCenterOfMass ps t = Ok root /\
               leaves_hold_at_most MAX_PARTICLES root.
Proof.
  intros W. pose proof (well_formed_leaves ps t W) as Hl.
  destruct t as [b parts com m | b parts c0 c1 c2 c3 com m].
  - cbn [updateCenterOfMass]. destruct parts as [|p parts].
    + eexists. split; [reflexivity|].
      intros node [<-|[]] _. simpl. unfold MAX_PARTICLES. lia.
    + destruct W as (L & F & _).
      destruct (for_each_returns (p :: parts)
                  (fun ptr '(m, com) =>
                     p <- at_index ps ptr ;;
                     Ok ((m + mass p)%num, (com + position p *: mass p)%vec))
                  (lit_0, sf.Vec lit_0 lit_0)) as ([m' com'] & E).
      { intros i [m0 com0] Hi. rewrite Forall_forall in F.
        destruct (F i Hi) as (q & Hq & _). unfold at_index. rewrite Hq.
        cbn [bind]. eauto. }
      rewrite E. cbn [bind]. eexists. split; [reflexivity|].
      intros node [<-|[]] _. exact L.
  - unfold updateCenterOfMass.
    destruct (fold_left _ _ _) as [m' com']. eexists. split; [reflexivity|].
    intros node [<-|Hin] Hleaf; [discriminate|].
    apply Hl; auto. right. exact Hin.
Qed.
End Aggregation.

Unset Implicit Arguments.

(** ** The all-pairs sum returns one force per particle *)

Section PairwiseSum.
Context {S : Scalar} {SQ : Sqrt S}.

Lemma pairwise_forces_length (G SOFTENING : num) (ps : list Particle)
      (forces : list sf.Vector2f) :
  NBodySimulation.computeForces G SOFTENING ps = Ok forces ->
  length forces = length ps.
Proof.
  unfold NBodySimulation.computeForces. intros H.
  eapply (for_each_invariant (fun v : list sf.Vector2f => length v = length ps));
    [ | | exact H].
  - intros i v v' _ Hv Hb.
    eapply (for_each_invariant (fun v : list sf.Vector2f => length v = length ps));
      [ | exact Hv | exact Hb].
    intros k w w' _ Hw Hk. cbv beta in Hk. destruct (negb (i =? k)).
    + repeat (apply bind_Ok_inv in Hk; destruct Hk as (? & _ & Hk)).
      apply set_index_inv in Hk. destruct Hk as (_ & L & _). congruence.
    + injection Hk as <-. exact Hw.
  - apply repeat_length.
Qed.
End PairwiseSum.

(** ** More on what [insert] does to a tree *)

Section InsertMore.
Context {S : Scalar}.
Variable ps : list Particle.

(** The outcomes of the loop over the children: the first child that
    accepts ends it and the children after it are not touched. *)
Lemma first_accepting_inv
      (ins : QuadTreeNode -> ParticlePtr -> result (QuadTreeNode * bool))
      (c0 c1 c2 c3 d0 d1 d2 d3 : QuadTreeNode) (p : ParticlePtr) (ok : bool) :
  first_accepting ins (c0, c1, c2, c3) p = Ok ((d0, d1, d2, d3), ok) ->
  (ins c0 p = Ok (d0, true) /\ d1 = c1 /\ d2 = c2 /\ d3 = c3 /\ ok = true) \/
  (ins c0 p = Ok (d0, false) /\ ins c1 p = Ok (d1, true) /\
   d2 = c2 /\ d3 = c3 /\ ok = true) \/
  (ins c0 p = Ok (d0, false) /\ ins c1 p = Ok (d1, false) /\
   ins c2 p = Ok (d2, true) /\ d3 = c3 /\ ok = true) \/
  (ins c0 p = Ok (d0, false) /\ ins c1 p = Ok (d1, false) /\
   ins c2 p = Ok (d2, false) /\ ins c3 p = Ok (d3, ok)).
Proof.
  intros H. unfold first_accepting in H.
  apply bind_Ok_inv in H. destruct H as ([e0 b0] & E0 & H).
  destruct b0. { injection H as ? ? ? ? ?; subst. auto 10. }
  apply bind_Ok_inv in H. destruct H as ([e1 b1] & E1 & H).
  destruct b1. { injection H as ? ? ? ? ?; subst. right. left. auto 10. }
  apply bind_Ok_inv in H. destruct H as ([e2 b2] & E2 & H).
  destruct b2. { injection H as ? ? ? ? ?; subst. right. right. left. auto 10. }
  apply bind_Ok_inv in H. destruct H as ([e3 b3] & E3 & H).
  injection H as ? ? ? ? ?; subst. right. right. right. auto.
Qed.

(** A particle outside the boundary of a node is refused and the node is
    left as it is. *)
Lemma insert_outside (fuel : nat) (t t' : QuadTreeNode) (p : ParticlePtr)
      (q : Particle) (ok : bool) :
  nth_error ps p = Some q -> contains (boundary t) (position q) = false ->
  insert fuel ps t p = Ok (t', ok) -> t' = t /\ ok = false.
Proof.
  intros Hq Hc H. destruct fuel as [|fuel]; [discriminate|].
  rewrite insert_unfold in H. unfold at_index in H. rewrite Hq in H.
  cbn [bind] in H. rewrite Hc in H. cbn [negb] in H.
  injection H as <- <-. auto.
Qed.

(** An internal node stays internal. *)
Lemma insert_internal (fuel : nat) (t t' : QuadTreeNode) (p : ParticlePtr) (ok : bool) :
  insert fuel ps t p = Ok (t', ok) -> isLeaf t = false -> isLeaf t' = false.
Proof.
  intros H Hl. destruct fuel as [|fuel]; [discriminate|].
  destruct t as [b parts com m | b parts c0 c1 c2 c3 com m]; [discriminate|].
  rewrite insert_unfold in H.
  apply bind_Ok_inv in H. destruct H as (q & _ & H).
  destruct (negb _). { now injection H as <- _. }
  apply bind_Ok_inv in H. destruct H as ([[[[d0 d1] d2] d3] b'] & _ & H).
  now injection H as <- _.
Qed.

(** An accepted particle is in the tree. *)
Lemma insert_true_stored (fuel : nat) :
  forall (t t' : QuadTreeNode) (p : ParticlePtr),
    insert fuel ps t p = Ok (t', true) -> In p (stored t').
Proof.
  induction fuel as [|fuel IH]; intros t t' p H; [discriminate|].
  rewrite insert_unfold in H.
  apply bind_Ok_inv in H. destruct H as (q & _ & H).
  destruct (negb _); [discriminate|].
  destruct t as [b parts com m | b parts c0 c1 c2 c3 com m].
  - destruct (length parts <? MAX_PARTICLES).
    + injection H as <-. simpl. apply in_or_app. right. now left.
    + apply bind_Ok_inv in H. destruct H as (node' & _ & H). eauto.
  - apply bind_Ok_inv in H. destruct H as ([[[[d0 d1] d2] d3] b'] & Ef & H).
    injection H as <- ->. cbn [stored]. rewrite !in_app_iff.
    apply first_accepting_inv in Ef.
    destruct Ef as [(E & _)|[(_ & E & _)|[(_ & _ & E & _)|(_ & _ & _ & E)]]];
      apply IH in E; auto 6.
Qed.

(** X1.  [insert] keeps the shape of the tree whatever it returns: the
    boundary of the node is not changed, a leaf holds at most
    [MAX_PARTICLES] particles, each inside the boundary of its leaf, and an
    internal node holds none and has its four quadrants as children. *)
Theorem insert_keeps_shape (fuel : nat) (t t' : QuadTreeNode) (p : ParticlePtr)
        (ok : bool) :
  well_formed ps t -> insert fuel ps t p = Ok (t', ok) ->
  well_formed ps t' /\ boundary t' = boundary t /\
  leaves_hold_at_most MAX_PARTICLES t'.
Proof.
  intros W H. destruct (insert_kept ps fuel t p H W) as [W' B].
  repeat split; auto. now apply well_formed_leaves with (ps := ps).
Qed.

(** X2.  [insert] adds no pointer to the tree but the one it is given, and
    when it returns [true] that pointer is in the tree. *)
Theorem insert_stores_what_it_accepts (fuel : nat) (t t' : QuadTreeNode)
        (p : ParticlePtr) (ok : bool) :
  insert fuel ps t p = Ok (t', ok) ->
  incl (stored t') (p :: stored t) /\ (ok = true -> In p (stored t')).
Proof.
  intros H. split.
  - eapply insert_stored; eauto.
  - intros ->. eapply insert_true_stored; eauto.
Qed.
End InsertMore.

(** ** What [build] leaves in the tree *)

Section BuildMore.
Context {S : Scalar}.

(** [updateCenterOfMass] writes the mass and the centre of mass of the
    node and nothing else. *)
Lemma updateCenterOfMass_frame (ps : list Particle) (t root : QuadTreeNode) :
  updateCenterOfMass ps t = Ok root ->
  stored root = stored t /\ boundary root = boundary t /\ isLeaf root = isLeaf t.
Proof.
  intros H. destruct t as [b parts com m | b parts c0 c1 c2 c3 com m];
    unfold updateCenterOfMass in H.
  - destruct parts as [|p parts]. { now injection H as <-. }
    apply bind_Ok_inv in H. destruct H as ([m' com'] & _ & H).
    now injection H as <-.
  - destruct (fold_left _ _ _) as [m' com']. now injection H as <-.
Qed.

(** The loop of [build] as a fold with the list of the pointers already
    handled. *)
Lemma for_each_prefix {I T : Type} (P : list I -> T -> Prop)
      (body : I -> T -> result T) :
  forall (range done : list I) (s s' : T),
    (forall d i t t', In i range -> P d t -> body i t = Ok t' -> P (d ++ [i]) t') ->
    P done s -> for_each range body s = Ok s' -> P (done ++ range) s'.
Proof.
  induction range as [|i range IH]; intros done s s' Hstep H0 H.
  - injection H as <-. now rewrite app_nil_r.
  - simpl in H. apply bind_Ok_inv in H. destruct H as (t & Hb & H).
    replace (done ++ i :: range) with ((done ++ [i]) ++ range)
      by (now rewrite <- app_assoc).
    eapply IH; [ | | exact H].
    + intros d j t0 t1 Hj. apply Hstep. now right.
    + eapply Hstep; eauto. now left.
Qed.

(** The pointers of a built tree point at particles inside the root
    boundary. *)
Lemma build_stored_inside (fuel : nat) (ps : list Particle) (b : Boundary)
      (root : QuadTreeNode) :
  build fuel ps (new_node b) = Ok root ->
  boundary root = b /\ Forall (stored_in ps b) (stored root).
Proof.
  intros H. unfold build in H.
  apply bind_Ok_inv in H. destruct H as (t & Hl & Hu).
  apply updateCenterOfMass_frame in Hu. destruct Hu as (-> & -> & _).
  enough (well_formed ps t /\ boundary t = b /\ Forall (stored_in ps b) (stored t))
    by tauto.
  revert Hl.
  apply (for_each_invariant
           (fun t => well_formed ps t /\ boundary t = b /\
                     Forall (stored_in ps b) (stored t))).
  - intros i t0 t1 _ (W & Hb & Hs) Hi.
    apply bind_Ok_inv in Hi. destruct Hi as ([t2 ok] & Hi & E). injection E as ->.
    destruct (insert_kept ps fuel t0 i Hi W) as [W' Hb'].
    split; [exact W'|]. split; [congruence|].
    assert (Hq : exists q, nth_error ps i = Some q).
    { destruct fuel; [discriminate|]. rewrite insert_unfold in Hi.
      apply bind_Ok_inv in Hi. destruct Hi as (q & Hq & _).
      apply at_index_Ok in Hq. eauto. }
    destruct Hq as [q Hq].
    destruct (contains (boundary t0) (position q)) eqn:Hc.
    + apply Forall_forall. intros j Hj.
      apply (insert_stored ps fuel t0 i Hi) in Hj. destruct Hj as [<- | Hj].
      * exists q. rewrite <- Hb. auto.
      * rewrite Forall_forall in Hs. auto.
    + destruct (insert_outside ps fuel t0 t1 i q ok Hq Hc Hi) as [-> _]. auto.
  - split; [apply well_formed_new_node|]. split; [reflexivity|constructor].
Qed.

(** X3.  [build] stores no particle that lies outside the boundary of the
    root: every pointer in the built tree points at a particle of the
    vector that the root boundary contains, so a particle outside is left
    out of the tree, and no error is reported for it. *)
Theorem build_stores_only_inside (fuel : nat) (ps : list Particle) (b : Boundary)
        (root : QuadTreeNode) :
  build fuel ps (new_node b) = Ok root ->
  boundary root = b /\
  (forall i, In i (stored root) ->
             exists q, nth_error ps i = Some q /\ contains b (position q) = true) /\
  (forall i q, nth_error ps i = Some q -> contains b (position q) = false ->
               ~ In i (stored root)).
Proof.
  intros H. destruct (build_stored_inside fuel ps b root H) as [Hb Hs].
  rewrite Forall_forall in Hs.
  split; [exact Hb|]. split.
  - intros i Hi. exact (Hs i Hi).
  - intros i q Hq Hc Hi. destruct (Hs i Hi) as (q' & Hq' & Hc').
    assert (q' = q) by congruence. subst q'. congruence.
Qed.
End BuildMore.

(** ** The forces of a tree with an internal root *)

Section ZeroForces.
Context {S : Scalar} {SQ : Sqrt S}.

(** While the root is a leaf it holds every particle of its boundary that
    [build] has handled. *)
Lemma leaf_root_holds_all (fuel : nat) (ps : list Particle) (b : Boundary)
      (range : list nat) (t : QuadTreeNode) :
  for_each range (fun i node => '(node', _) <- insert fuel ps node i ;; Ok node')
           (new_node b) = Ok t ->
  well_formed ps t /\ boundary t = b /\
  (isLeaf t = true ->
   forall i q, In i range -> nth_error ps i = Some q ->
               contains b (position q) = true -> In i (particles t)).
Proof.
  intros H.
  refine (for_each_prefix
           (fun done t =>
              well_formed ps t /\ boundary t = b /\
              (isLeaf t = true ->
               forall i q, In i done -> nth_error ps i = Some q ->
                           contains b (position q) = true -> In i (particles t)))
           _ range [] (new_node b) t _ _ H).
  - clear H t. intros d i t t' _ (W & Hb & Hd) Hi.
    apply bind_Ok_inv in Hi. destruct Hi as ([t2 ok] & Hi & E). injection E as ->.
    destruct (insert_kept ps fuel t i Hi W) as [W' Hb'].
    split; [exact W'|]. split; [congruence|].
    intros Hl j q Hj Hq Hc.
    destruct (isLeaf t) eqn:Hlt;
      [|now rewrite (insert_internal ps fuel t t' i ok Hi Hlt) in Hl].
    specialize (Hd eq_refl).
    destruct t as [b0 parts com m | b0 parts c0 c1 c2 c3 com m]; [|discriminate].
    cbn [boundary] in Hb. subst b0.
    destruct fuel as [|fuel]; [discriminate|]. rewrite insert_unfold in Hi.
    apply bind_Ok_inv in Hi. destruct Hi as (qi & Hqi & Hi).
    apply at_index_Ok in Hqi. cbn [boundary] in Hi.
    apply in_app_or in Hj.
    destruct (contains b (position qi)) eqn:Hci; cbn [negb] in Hi.
    + destruct (length parts <? MAX_PARTICLES).
      * injection Hi as <- _. cbn [particles]. apply in_or_app.
        destruct Hj as [Hj | [<- | []]]; [left; eauto | right; now left].
      * apply bind_Ok_inv in Hi. destruct Hi as (node' & Hsub & Hi).
        unfold subdivide in Hsub. apply bind_Ok_inv in Hsub.
        destruct Hsub as ([[[d0 d1] d2] d3] & _ & E). injection E as <-.
        now rewrite (insert_internal ps fuel _ t' i ok Hi eq_refl) in Hl.
    + injection Hi as <- _. cbn [particles].
      destruct Hj as [Hj | [<- | []]]; [eauto|]. congruence.
  - split; [apply well_formed_new_node|]. split; [reflexivity|]. intros _ i q [].
Qed.

(** Writing back the value that was read leaves the vector as it is. *)
Lemma set_index_same {A : Type} (v v' : list A) (i : nat) (a : A) :
  nth_error v i = Some a -> set_index v i a = Ok v' -> v' = v.
Proof.
  intros Ha H. apply set_index_inv in H. destruct H as (Hi & Hlen & Hn & Ho).
  apply list_eq_pointwise with (n := length v); auto.
  intros j _. destruct (Nat.eq_dec j i) as [->|Hj]; [congruence|auto].
Qed.

Hypothesis zero_eq : (lit_0 ==? lit_0)%num = true.
Hypothesis zero_not_pos : (lit_0 >? lit_0)%num = false.

(** Two particles inside the root boundary: the root is subdivided and
    every force is zero. *)
Lemma two_inside_zero_forces
      (fuel : nat) (theta G softening : num) (first : Particle)
      (rest : list Particle) (forces : list sf.Vector2f)
      (i j : nat) (qi qj : Particle) :
  let ps := first :: rest in
  i <> j -> nth_error ps i = Some qi -> nth_error ps j = Some qj ->
  contains (BarnesHutForceCalculator.rootBoundary ps first) (position qi) = true ->
  contains (BarnesHutForceCalculator.rootBoundary ps first) (position qj) = true ->
  BarnesHutForceCalculator.computeForces fuel theta ps G softening = Ok forces ->
  forces = repeat sf.zero (length ps).
Proof.
  intros ps Hij Hqi Hqj Hci Hcj H.
  unfold BarnesHutForceCalculator.computeForces in H. fold ps in H.
  cbv iota beta in H. change (first :: rest) with ps in H.
  set (b := BarnesHutForceCalculator.rootBoundary ps first) in *.
  apply bind_Ok_inv in H. destruct H as (root & Hbuild & Hloop).
  assert (Hroot : isLeaf root = false).
  { pose proof Hbuild as Hb. unfold build in Hb.
    apply bind_Ok_inv in Hb. destruct Hb as (t & Hl & Hu).
    apply updateCenterOfMass_frame in Hu. destruct Hu as (_ & _ & ->).
    apply leaf_root_holds_all in Hl. destruct Hl as (W & _ & Hall).
    destruct (isLeaf t) eqn:Hlt; [exfalso|reflexivity].
    specialize (Hall eq_refl).
    assert (Hi : In i (particles t)).
    { apply (Hall i qi); auto. apply in_seq.
      assert (i < length ps) by (apply nth_error_Some; congruence). lia. }
    assert (Hj : In j (particles t)).
    { apply (Hall j qj); auto. apply in_seq.
      assert (j < length ps) by (apply nth_error_Some; congruence). lia. }
    destruct t as [b0 parts com m | ]; [|discriminate].
    destruct W as (Hlen & _). cbn [particles] in Hi, Hj. unfold MAX_PARTICLES in Hlen.
    destruct parts as [|a [|a' parts]]; simpl in Hlen, Hi, Hj; lia. }
  destruct (build_internal_root zero_eq zero_not_pos fuel ps b Hbuild Hroot)
    as [_ Hskip].
  revert Hloop.
  apply (for_each_invariant (fun v => v = repeat sf.zero (length ps)));
    [|reflexivity].
  intros k v v' _ Hv Hk. rewrite <- Hv.
  apply bind_Ok_inv in Hk. destruct Hk as (f & Hf & Hk).
  apply bind_Ok_inv in Hk. destruct Hk as (f' & Hf' & Hk).
  rewrite Hskip in Hf'. injection Hf' as <-.
  apply at_index_Ok in Hf. eapply set_index_same; eauto.
Qed.

(** A lone particle is skipped as the particle itself, or as an empty
    node when the root boundary does not contain it. *)
Lemma lone_particle_zero_force (fuel : nat) (theta G softening : num) (p : Particle) :
  BarnesHutForceCalculator.computeForces (Datatypes.S fuel) theta [p] G softening
  = Ok [sf.zero].
Proof.
  unfold BarnesHutForceCalculator.computeForces, build.
  cbn [length seq for_each].
  rewrite (insert_new_node [p] fuel _ 0 (q := p) eq_refl).
  destruct (contains _ (position p));
    cbn [bind updateCenterOfMass for_each at_index nth_error repeat].
  - unfold computeForce, skip_node. cbn [totalMass particles length].
    destruct (lit_0 + mass p ==? lit_0)%num; reflexivity.
  - unfold new_node. cbn [updateCenterOfMass bind].
    unfold computeForce, skip_node. cbn [totalMass]. rewrite zero_eq. reflexivity.
Qed.

(** X4.  In every arithmetic in which [0 == 0] holds and [0 > 0] does not:
    as soon as the root boundary contains two particles of the vector the
    root is subdivided, its total mass is computed from children whose own
    mass was never computed, and
    [BarnesHutForceCalculator::computeForces], when it returns, returns the
    zero force for every particle. *)
Theorem computeForces_zero_for_two_inside
        (fuel : nat) (theta G softening : num) (first : Particle)
        (rest : list Particle) (forces : list sf.Vector2f)
        (i j : nat) (qi qj : Particle) :
  let ps := first :: rest in
  i <> j -> nth_error ps i = Some qi -> nth_error ps j = Some qj ->
  contains (BarnesHutForceCalculator.rootBoundary ps first) (position qi) = true ->
  contains (BarnesHutForceCalculator.rootBoundary ps first) (position qj) = true ->
  BarnesHutForceCalculator.computeForces fuel theta ps G softening = Ok forces ->
  forces = repeat sf.zero (length ps).
Proof.
  exact (two_inside_zero_forces fuel theta G softening first rest forces i j qi qj).
Qed.

(** X5.  A lone particle feels no force: in every arithmetic in which
    [0 == 0] holds, on a vector of one particle
    [BarnesHutForceCalculator::computeForces] and
    [NBodySimulation::computeForces] both return the zero force, whatever
    the position and the mass of the particle, NaN, infinite and zero
    included. *)
Theorem computeForces_lone_particle (fuel : nat) (theta G softening : num)
        (p : Particle) :
  BarnesHutForceCalculator.computeForces (Datatypes.S fuel) theta [p] G softening
  = Ok [sf.zero] /\
  NBodySimulation.computeForces G softening [p] = Ok [sf.zero].
Proof.
  split.
  - exact (lone_particle_zero_force fuel theta G softening p).
  - reflexivity.
Qed.
End ZeroForces.

(** ** Not-a-number coordinates, in single precision *)

Section NotANumber.
#[local] Existing Instance Binary32.scalar.

(** No boundary contains a point with a NaN coordinate: every comparison
    with NaN is false. *)
Lemma contains_nan (b : Boundary) (p : sf.Vector2f) :
  sf.x p = S754_nan \/ sf.y p = S754_nan -> contains b p = false.
Proof.
  intros H. unfold contains. cbn [fle Binary32.scalar].
  destruct p as [px py]. cbn [sf.x sf.y] in *.
  destruct H as [-> | ->].
  - replace (SFleb S754_nan _) with false by reflexivity.
    now rewrite andb_false_r.
  - replace (SFleb S754_nan _) with false by reflexivity.
    now rewrite andb_false_r.
Qed.

(** X6.  A particle with a NaN coordinate is never stored: [build] leaves it
    out of the tree, whatever the root boundary. *)
Theorem build_never_stores_nan (fuel : nat) (ps : list Particle) (b : Boundary)
        (root : QuadTreeNode) (i : nat) (q : Particle) :
  build fuel ps (new_node b) = Ok root -> nth_error ps i = Some q ->
  sf.x (position q) = S754_nan \/ sf.y (position q) = S754_nan ->
  ~ In i (stored root).
Proof.
  intros H Hq Hnan Hin.
  destruct (build_stored_inside fuel ps b root H) as [_ Hs].
  rewrite Forall_forall in Hs. destruct (Hs i Hin) as (q' & Hq' & Hc).
  assert (q' = q) by congruence. subst q'.
  now rewrite (contains_nan b (position q) Hnan) in Hc.
Qed.
End NotANumber.

(** ** Single precision: halving *)

Section Halving.
#[local] Existing Instance Binary32.scalar.
Local Open Scope Z_scope.

Lemma digits_times_2_23 (m : positive) :
  digits2_pos (m * 8388608) = (digits2_pos m + 23)%positive.
Proof. rewrite Pos.mul_comm. cbn [Pos.mul digits2_pos]. lia. Qed.

Lemma digits_succ (p : positive) :
  Zpos (digits2_pos (Pos.succ p)) <= Zpos (digits2_pos p) + 1.
Proof.
  induction p as [p IH | p IH | ]; cbn [Pos.succ digits2_pos]; lia.
Qed.

(** What [valid_binary] says of a finite float. *)
Lemma is_float_finite (s : bool) (m : positive) (e : Z) :
  is_float (S754_finite s m e) ->
  (Zpos (digits2_pos m) = 24 /\ -148 <= e <= 104) \/
  (e = -149 /\ Zpos (digits2_pos m) <= 24).
Proof.
  unfold is_float, valid_binary, bounded, canonical_mantissa, fexp, emin,
    Binary32.prec, Binary32.emax.
  intros H. apply andb_true_iff in H. destruct H as [H1 H2].
  apply Z.eqb_eq in H1. apply Z.leb_le in H2. lia.
Qed.

Lemma is_float_normal (s : bool) (m : positive) (e : Z) :
  Zpos (digits2_pos m) = 24 -> -149 <= e <= 104 -> is_float (S754_finite s m e).
Proof.
  unfold is_float, valid_binary, bounded, canonical_mantissa, fexp, emin,
    Binary32.prec, Binary32.emax.
  intros Hd He. apply andb_true_iff. split; [apply Z.eqb_eq | apply Z.leb_le]; lia.
Qed.

Lemma is_float_subnormal (s : bool) (m : positive) :
  Zpos (digits2_pos m) <= 24 -> is_float (S754_finite s m (-149)).
Proof.
  unfold is_float, valid_binary, bounded, canonical_mantissa, fexp, emin,
    Binary32.prec, Binary32.emax.
  intros Hd. apply andb_true_iff. split; [apply Z.eqb_eq | apply Z.leb_le]; lia.
Qed.

(** Half of a float above the smallest exponent: the exponent goes down
    by one. *)
Lemma half_normal (s : bool) (m : positive) (e : Z) :
  Zpos (digits2_pos m) = 24 -> -148 <= e <= 104 ->
  half (S754_finite s m e) = S754_finite s m (e - 1).
Proof.
  intros Hd He. unfold half. cbn [fmul lit_0_5 Binary32.scalar].
  unfold SFmul, binary_round_aux.
  unfold shr_fexp at 1. unfold Zdigits2. rewrite digits_times_2_23.
  replace (Zpos (digits2_pos m + 23)) with 47 by lia.
  unfold fexp, emin, Binary32.prec, Binary32.emax.
  replace (Z.max (47 + (e + -24) - 24) (3 - 128 - 24) - (e + -24)) with 23 by lia.
  cbn [shr_record_of_loc shr].
  replace (iter_pos shr_1 23 (Build_shr_record (Zpos (m * 8388608)) false false))
    with (Build_shr_record (Zpos m) false false)
    by (rewrite Pos.mul_comm; reflexivity).
  cbn [shr_m loc_of_shr_record round_nearest_even].
  unfold shr_fexp. unfold Zdigits2. rewrite Hd.
  unfold fexp, emin.
  replace (Z.max (24 + (e + -24 + 23) - 24) (3 - 128 - 24) - (e + -24 + 23)) with 0 by lia.
  cbn [shr_record_of_loc shr shr_m].
  replace (e + -24 + 23) with (e - 1) by lia.
  rewrite xorb_false_r.
  destruct (Z.leb_spec (e - 1) (128 - 24)); [reflexivity|lia].
Qed.

(** Half of a float at the smallest exponent: the significand is halved
    and rounded to even, down to zero. *)
Lemma half_subnormal_value (s : bool) (m : positive) :
  Zpos (digits2_pos m) <= 24 ->
  half (S754_finite s m (-149))
  = match m with
    | xH => S754_zero s
    | xO p => S754_finite s p (-149)
    | xI p => S754_finite s (if Z.even (Zpos p) then p else Pos.succ p) (-149)
    end.
Proof.
  intros Hd. unfold half. cbn [fmul lit_0_5 Binary32.scalar].
  unfold SFmul, binary_round_aux.
  unfold shr_fexp at 1. unfold Zdigits2. rewrite digits_times_2_23.
  unfold fexp, emin, Binary32.prec, Binary32.emax.
  replace (Z.max (Zpos (digits2_pos m + 23) + (-149 + -24) - 24) (3 - 128 - 24)
           - (-149 + -24)) with 24 by lia.
  cbn [shr_record_of_loc shr].
  replace (iter_pos shr_1 24 (Build_shr_record (Zpos (m * 8388608)) false false))
    with (shr_1 (Build_shr_record (Zpos m) false false))
    by (rewrite Pos.mul_comm; reflexivity).
  rewrite xorb_false_r.
  assert (Hfexp : forall p : positive,
             Zpos (digits2_pos p) <= 24 ->
             shr_fexp 24 128 (Zpos p) (-149 + -24 + 24) loc_Exact
             = (Build_shr_record (Zpos p) false false, -149)).
  { intros p Hp. unfold shr_fexp, Zdigits2, fexp, emin.
    replace (Z.max (Zpos (digits2_pos p) + (-149 + -24 + 24) - 24) (3 - 128 - 24)
             - (-149 + -24 + 24)) with 0 by lia.
    reflexivity. }
  destruct m as [p | p | ]; cbn [shr_1 orb shr_m loc_of_shr_record round_nearest_even];
    cbn [digits2_pos] in Hd.
  - destruct (Z.even (Zpos p)).
    + rewrite Hfexp by lia. reflexivity.
    + replace (Zpos p + 1) with (Zpos (Pos.succ p)) by lia.
      pose proof (digits_succ p) as Hs.
      rewrite Hfexp by lia. reflexivity.
  - rewrite Hfexp by lia. reflexivity.
  - reflexivity.
Qed.

Lemma half_subnormal (s : bool) (m : positive) :
  Zpos (digits2_pos m) <= 24 ->
  half (S754_finite s m (-149)) = S754_zero s \/
  exists m', half (S754_finite s m (-149)) = S754_finite s m' (-149) /\
             (m' < m)%positive /\ Zpos (digits2_pos m') <= 24.
Proof.
  intros Hd. rewrite (half_subnormal_value s m Hd).
  destruct m as [p | p | ]; cbn [digits2_pos] in Hd.
  - right. pose proof (digits_succ p) as Hs.
    destruct (Z.even (Zpos p)); eexists; (split; [reflexivity|]); split; lia.
  - right. exists p. split; [reflexivity|]. split; lia.
  - left. reflexivity.
Qed.

(** Halving a float often enough leaves the finite non-zero floats. *)
Lemma weight_vanishes (n : nat) :
  forall h, (weight h <= n)%nat -> is_float h -> vanishes h.
Proof.
  induction n as [|n IH]; intros h Hw Hf.
  - destruct h as [s | s | | s m e];
      try (apply vanishes_now; intros; discriminate).
    exfalso. apply is_float_finite in Hf. unfold weight in Hw. lia.
  - destruct h as [s | s | | s m e];
      try (apply vanishes_now; intros; discriminate).
    apply vanishes_half.
    destruct (is_float_finite s m e Hf) as [[Hd He] | [-> Hd]].
    + rewrite (half_normal s m e Hd He). apply IH.
      * unfold weight in *. lia.
      * apply is_float_normal; [exact Hd | lia].
    + destruct (half_subnormal s m Hd) as [-> | (m' & -> & Hlt & Hd')].
      * apply vanishes_now. intros; discriminate.
      * apply IH; [unfold weight in *; lia | now apply is_float_subnormal].
Qed.

Lemma float_vanishes (h : spec_float) : is_float h -> vanishes h.
Proof. intros Hf. exact (weight_vanishes (weight h) h (le_n _) Hf). Qed.
End Halving.

(** ** Single precision: the order of the floats *)

Section FloatOrder.
#[local] Existing Instance Binary32.scalar.
Local Open Scope Z_scope.

Lemma SFcompare_place (a b : spec_float) :
  a <> S754_nan -> b <> S754_nan ->
  exists c, SFcompare a b = Some c /\
            (c = Lt <-> before (place a) (place b)) /\
            (c = Eq <-> place a = place b) /\
            (c = Gt <-> before (place b) (place a)).
Proof.
  intros Ha Hb.
  destruct a as [sa | [] | | [] ma ea]; try congruence;
    destruct b as [sb | [] | | [] mb eb]; try congruence;
    cbn [SFcompare place before];
    try (eexists; split; [reflexivity|];
         repeat split; intros H; try discriminate H; try reflexivity;
         try (injection H; intros; lia); lia).
  - destruct (Z.compare_spec ea eb) as [He | He | He].
    + change (Pos.compare_cont Eq ma mb) with (Pos.compare ma mb).
      destruct (Pos.compare_spec ma mb) as [Hm | Hm | Hm]; cbn [CompOpp];
        eexists; (split; [reflexivity|]);
        repeat split; intros H; try discriminate H; try reflexivity;
        try (injection H; intros; lia); try lia; subst; try reflexivity.
    + eexists; (split; [reflexivity|]);
        repeat split; intros H; try discriminate H; try reflexivity;
        try (injection H; intros; lia); lia.
    + eexists; (split; [reflexivity|]);
        repeat split; intros H; try discriminate H; try reflexivity;
        try (injection H; intros; lia); lia.
  - destruct (Z.compare_spec ea eb) as [He | He | He].
    + change (Pos.compare_cont Eq ma mb) with (Pos.compare ma mb).
      destruct (Pos.compare_spec ma mb) as [Hm | Hm | Hm];
        eexists; (split; [reflexivity|]);
        repeat split; intros H; try discriminate H; try reflexivity;
        try (injection H; intros; lia); try lia; subst; try reflexivity.
    + eexists; (split; [reflexivity|]);
        repeat split; intros H; try discriminate H; try reflexivity;
        try (injection H; intros; lia); lia.
    + eexists; (split; [reflexivity|]);
        repeat split; intros H; try discriminate H; try reflexivity;
        try (injection H; intros; lia); lia.
Qed.
End FloatOrder.

Section FloatOrderFacts.
#[local] Existing Instance Binary32.scalar.
Local Open Scope Z_scope.

Lemma before_total (p q : Z * Z * Z) : before p q \/ p = q \/ before q p.
Proof.
  destruct p as [[p1 p2] p3], q as [[q1 q2] q3]. cbn [before].
  destruct (Z.eq_dec p1 q1), (Z.eq_dec p2 q2), (Z.eq_dec p3 q3);
    try (right; left; congruence); lia.
Qed.

Lemma before_irrefl (p : Z * Z * Z) : ~ before p p.
Proof. destruct p as [[p1 p2] p3]. cbn [before]. lia. Qed.

Lemma before_trans (p q r : Z * Z * Z) : before p q -> before q r -> before p r.
Proof.
  destruct p as [[p1 p2] p3], q as [[q1 q2] q3], r as [[r1 r2] r3].
  cbn [before]. lia.
Qed.

Lemma SFcompare_nan (a b : spec_float) :
  a = S754_nan \/ b = S754_nan -> SFcompare a b = None.
Proof. intros [-> | ->]; [reflexivity|]. now destruct a. Qed.

Lemma SFltb_before (a b : spec_float) :
  SFltb a b = true <->
  a <> S754_nan /\ b <> S754_nan /\ before (place a) (place b).
Proof.
  unfold SFltb. split.
  - intros H.
    assert (Ha : a <> S754_nan) by (intros ->; discriminate H).
    assert (Hb : b <> S754_nan) by (intros ->; destruct a; discriminate H).
    destruct (SFcompare_place a b Ha Hb) as (c & E & Hlt & _). rewrite E in H.
    repeat split; auto. apply Hlt. destruct c; congruence.
  - intros (Ha & Hb & H).
    destruct (SFcompare_place a b Ha Hb) as (c & E & Hlt & _). rewrite E.
    apply Hlt in H. now subst c.
Qed.

Lemma SFleb_before (a b : spec_float) :
  SFleb a b = true <->
  a <> S754_nan /\ b <> S754_nan /\ ~ before (place b) (place a).
Proof.
  unfold SFleb. split.
  - intros H.
    assert (Ha : a <> S754_nan) by (intros ->; discriminate H).
    assert (Hb : b <> S754_nan) by (intros ->; destruct a; discriminate H).
    destruct (SFcompare_place a b Ha Hb) as (c & E & _ & _ & Hgt). rewrite E in H.
    repeat split; auto. intros Hx. apply Hgt in Hx. subst c. discriminate H.
  - intros (Ha & Hb & H).
    destruct (SFcompare_place a b Ha Hb) as (c & E & _ & _ & Hgt). rewrite E.
    destruct c; auto. exfalso. apply H, Hgt. reflexivity.
Qed.

Lemma SFeqb_place (a b : spec_float) :
  SFeqb a b = true <->
  a <> S754_nan /\ b <> S754_nan /\ place a = place b.
Proof.
  unfold SFeqb. split.
  - intros H.
    assert (Ha : a <> S754_nan) by (intros ->; discriminate H).
    assert (Hb : b <> S754_nan) by (intros ->; destruct a; discriminate H).
    destruct (SFcompare_place a b Ha Hb) as (c & E & _ & Heq & _). rewrite E in H.
    repeat split; auto. apply Heq. destruct c; congruence.
  - intros (Ha & Hb & H).
    destruct (SFcompare_place a b Ha Hb) as (c & E & _ & Heq & _). rewrite E.
    apply Heq in H. now subst c.
Qed.

(** Two floats that are not NaN and have the same place have the same
    value. *)
Lemma place_same_value (a b : spec_float) :
  a <> S754_nan -> b <> S754_nan -> place a = place b -> same_value a b.
Proof.
  intros Ha Hb.
  destruct a as [sa | [] | | [] ma ea]; try congruence;
    destruct b as [sb | [] | | [] mb eb]; try congruence;
    cbn [place same_value]; intros H; try exact I; try reflexivity;
    try discriminate H; injection H as H1 H2; f_equal; lia.
Qed.

Lemma same_value_place (a b : spec_float) : same_value a b -> place a = place b.
Proof.
  destruct a, b; cbn [same_value]; intros H; try reflexivity;
    try discriminate H; try (now injection H as -> ); now rewrite H.
Qed.

Lemma same_value_nan (a b : spec_float) :
  same_value a b -> a <> S754_nan -> b <> S754_nan.
Proof. destruct a, b; cbn [same_value]; intros H Ha; congruence. Qed.

Lemma same_value_refl (a : spec_float) : same_value a a.
Proof. destruct a; simpl; auto. Qed.

Lemma same_value_sym (a b : spec_float) : same_value a b -> same_value b a.
Proof. destruct a, b; simpl; auto; congruence. Qed.

Lemma same_value_trans (a b c : spec_float) :
  same_value a b -> same_value b c -> same_value a c.
Proof. destruct a, b, c; simpl; auto; congruence. Qed.
End FloatOrderFacts.

(** ** Termination of [insert] *)

Section InsertReturns.
Context {S : Scalar}.
Variable ps : list Particle.
Variable j : ParticlePtr.
Variable pj : Particle.
Hypothesis Hj : nth_error ps j = Some pj.

Lemma outside_returns (c : QuadTreeNode) :
  contains (boundary c) (position pj) = false -> returns ps j c.
Proof.
  intros E. exists 1, c, false. rewrite insert_unfold. unfold at_index.
  rewrite Hj. cbn [bind]. rewrite E. reflexivity.
Qed.

Lemma child_outcome (c : QuadTreeNode) :
  returns ps j c ->
  exists F, forall fuel, F <= fuel -> exists u, insert fuel ps c j = Ok u.
Proof.
  intros (F & c' & ok & HF). exists F. intros fuel Hle.
  exists (c', ok). eapply insert_fuel_mono; eauto.
Qed.

Lemma internal_returns (b : Boundary) (parts : list ParticlePtr)
      (c0 c1 c2 c3 : QuadTreeNode) (com : sf.Vector2f) (m : num) :
  (forall c, In c [c0; c1; c2; c3] -> returns ps j c) ->
  returns ps j (Internal b parts c0 c1 c2 c3 com m).
Proof.
  intros Hch.
  destruct (contains b (position pj)) eqn:Hc; [|now apply outside_returns].
  destruct (child_outcome c0) as (F0 & H0); [apply Hch; simpl; auto|].
  destruct (child_outcome c1) as (F1 & H1); [apply Hch; simpl; auto|].
  destruct (child_outcome c2) as (F2 & H2); [apply Hch; simpl; auto|].
  destruct (child_outcome c3) as (F3 & H3); [apply Hch; simpl; auto 6|].
  set (F := F0 + F1 + F2 + F3).
  assert (Hret : exists r, first_accepting (insert F ps) (c0, c1, c2, c3) j = Ok r).
  { apply first_accepting_returns.
    intros c [<-|[<-|[<-|[<-|[]]]]];
      [apply H0|apply H1|apply H2|apply H3]; unfold F; lia. }
  destruct Hret as ([[[[d0 d1] d2] d3] ok] & Ef).
  exists (Datatypes.S F), (Internal b parts d0 d1 d2 d3 com m), ok.
  rewrite insert_unfold. unfold at_index. rewrite Hj. cbn [bind boundary].
  rewrite Hc. cbn [negb]. rewrite Ef. reflexivity.
Qed.

Lemma empty_leaf_returns (b : Boundary) (com : sf.Vector2f) (m : num) :
  returns ps j (Leaf b [] com m).
Proof.
  destruct (contains b (position pj)) eqn:Hc; [|now apply outside_returns].
  exists 1. do 2 eexists. rewrite insert_unfold. unfold at_index.
  rewrite Hj. cbn [bind boundary]. rewrite Hc. reflexivity.
Qed.

(** A full leaf is split and the particle offered to the children,
    provided their [insert] returns. *)
Lemma full_leaf_returns (b : Boundary) (i : ParticlePtr)
      (com : sf.Vector2f) (m : num) :
  well_formed ps (Leaf b [i] com m) ->
  away_from_stored ps pj (Leaf b [i] com m) ->
  (forall c, well_formed ps c -> away_from_stored ps pj c ->
             quadrant_of b (boundary c) -> returns ps j c) ->
  returns ps j (Leaf b [i] com m).
Proof.
  intros W Far Hch.
  destruct (contains b (position pj)) eqn:Hc; [|now apply outside_returns].
  pose proof W as (_ & F & C & M).
  inversion F as [|? ? (pi & Hi & Ci) _]; subst.
  assert (Hret : exists r, first_accepting (insert 1 ps)
                   (new_node (NE b), new_node (NW b), new_node (SE b), new_node (SW b)) i
                 = Ok r).
  { apply first_accepting_returns. intros c Hin.
    assert (exists b', c = new_node b') as (b' & ->).
    { destruct Hin as [<-|[<-|[<-|[<-|[]]]]]; eauto. }
    rewrite (insert_new_node ps 0 b' i Hi). eauto. }
  destruct Hret as ([[[[d0 d1] d2] d3] ok] & Er).
  assert (Es : subdivide (insert 1 ps) b [i] sf.zero lit_0
               = Ok (Internal b [] d0 d1 d2 d3 sf.zero lit_0)).
  { unfold subdivide. cbn [for_each]. rewrite Er. reflexivity. }
  pose proof Es as Hq. apply subdivide_quadrants with (ps := ps) in Hq;
    [|intros c c' p' b' Hins; exact (insert_kept ps 1 c p' Hins)].
  destruct Hq as (e0 & e1 & e2 & e3 & E & (B0 & B1 & B2 & B3) & W0 & W1 & W2 & W3).
  injection E as <- <- <- <-.
  assert (Hst : incl (stored (Internal b [] d0 d1 d2 d3 sf.zero lit_0)) [i]).
  { eapply subdivide_stored; [|exact Es]. apply insert_stored. }
  destruct (internal_returns b [] d0 d1 d2 d3 sf.zero lit_0) as (F' & t' & ok' & Hins).
  { assert (Hfar : forall c, In c [d0; d1; d2; d3] -> away_from_stored ps pj c).
    { intros c Hin k pk Hk. apply Far.
      apply Hst. cbn [stored app]. rewrite !in_app_iff.
      destruct Hin as [<-|[<-|[<-|[<-|[]]]]]; auto 6. }
    intros c Hin. apply Hch; [ | now apply Hfar | ];
      destruct Hin as [<-|[<-|[<-|[<-|[]]]]]; unfold quadrant_of; auto. }
  exists (Datatypes.S (Datatypes.S F')), t', ok'.
  rewrite insert_unfold. unfold at_index. rewrite Hj. cbn [bind boundary].
  rewrite Hc. cbn [negb length Nat.ltb Nat.leb MAX_PARTICLES].
  erewrite subdivide_mono; [ | | exact Es].
  - cbn [bind]. eapply insert_fuel_mono; [|exact Hins]. lia.
  - intros c q u. apply insert_fuel_mono. lia.
Qed.
End InsertReturns.

(** The pointers that the loop of [build] has stored are those it has
    handled. *)
Lemma inserts_stored {S : Scalar} (fuel : nat) (ps : list Particle) (k : nat)
      (t t' : QuadTreeNode) :
  for_each (seq 0 k) (fun i node => '(node', _) <- insert fuel ps node i ;; Ok node') t
  = Ok t' ->
  forall i, In i (stored t') -> In i (stored t) \/ i < k.
Proof.
  intros H.
  eapply (for_each_invariant
            (fun u => forall i, In i (stored u) -> In i (stored t) \/ i < k));
    [ | | exact H]; auto.
  intros i u u' Hi Hu Hb x Hx.
  apply bind_Ok_inv in Hb. destruct Hb as ([u1 ok] & Hins & E). injection E as <-.
  apply (insert_stored ps fuel) in Hins. apply Hins in Hx.
  destruct Hx as [<-|Hx]; auto. right. apply in_seq in Hi. lia.
Qed.

Lemma ForallOrdPairs_nth {A : Type} (R : A -> A -> Prop) (l : list A) :
  ForallOrdPairs R l ->
  forall i j a b, i < j -> nth_error l i = Some a -> nth_error l j = Some b ->
                  R a b.
Proof.
  induction 1 as [|c l Hc _ IH]; intros i j a b Hij Ha Hb.
  - destruct i; discriminate.
  - destruct j as [|j]; [lia|]. destruct i as [|i]; simpl in *.
    + injection Ha as <-. rewrite Forall_forall in Hc. apply Hc.
      eapply nth_error_In; eauto.
    + apply (IH i j); auto. lia.
Qed.

(** ** Single precision: boundaries whose half-size is not a finite
    non-zero number *)

Section Degenerate.
#[local] Existing Instance Binary32.scalar.

Lemma half_degenerate (h : spec_float) :
  (forall s m e, h <> S754_finite s m e) ->
  forall s m e, half h <> S754_finite s m e.
Proof.
  intros H. destruct h as [sh | sh | | sh mh eh];
    [ | | | exfalso; eapply H; reflexivity ];
    intros s m e; unfold half; cbn; discriminate.
Qed.

Lemma halfSize_quadrant (b c : Boundary) :
  quadrant_of b c -> halfSize c = half (halfSize b).
Proof. intros [-> | [-> | [-> | ->]]]; reflexivity. Qed.

(** No number lies between [c - NaN] and [c + NaN]. *)
Lemma nan_interval (c p : spec_float) :
  SFleb (SFsub Binary32.prec Binary32.emax c S754_nan) p = false.
Proof. now destruct c. Qed.

Lemma contains_nan_halfSize (b : Boundary) (p : sf.Vector2f) :
  halfSize b = S754_nan -> contains b p = false.
Proof.
  intros H. unfold contains. rewrite H.
  change (sf.x p >=? sf.x (center b) - S754_nan)%num
    with (SFleb (SFsub Binary32.prec Binary32.emax (sf.x (center b)) S754_nan) (sf.x p)).
  now rewrite nan_interval.
Qed.

(** The children of a boundary of infinite half-size: their centre is
    infinite or NaN, and one of their edges is NaN. *)
Lemma infinite_interval (c p : spec_float) (s s' : bool) :
  let h := S754_infinity s in
  let c' := SFadd Binary32.prec Binary32.emax c (S754_infinity s') in
  SFleb (SFsub Binary32.prec Binary32.emax c' h) p &&
  SFleb p (SFadd Binary32.prec Binary32.emax c' h) = false.
Proof.
  destruct c as [sc | [|] | | sc mc ec], s, s'; cbn;
    destruct p as [sp | [|] | | [|] mp ep]; reflexivity.
Qed.

Lemma contains_quadrant_of_infinite (b c : Boundary) (p : sf.Vector2f) (s : bool) :
  halfSize b = S754_infinity s -> quadrant_of b c -> contains c p = false.
Proof.
  intros H Hq.
  assert (Hx : exists s', sf.x (center c)
                          = SFadd Binary32.prec Binary32.emax (sf.x (center b))
                                  (S754_infinity s') /\
                          halfSize c = S754_infinity s).
  { destruct Hq as [-> | [-> | [-> | ->]]];
      unfold NE, NW, SE, SW, quadrant; cbn [center halfSize sf.add sf.x];
      rewrite H; destruct s; cbn; eauto. }
  destruct Hx as (s' & Hc & Hh).
  unfold contains. rewrite Hh, Hc.
  pose proof (infinite_interval (sf.x (center b)) (sf.x p) s s') as E.
  cbv zeta in E. cbn [fle fsub fadd Binary32.scalar].
  rewrite E. reflexivity.
Qed.

(** Between [c - 0] and [c + 0] lie the floats of one value. *)
Lemma zero_interval (c p q : spec_float) (s : bool) :
  let h := S754_zero s in
  SFleb (SFsub Binary32.prec Binary32.emax c h) p = true ->
  SFleb p (SFadd Binary32.prec Binary32.emax c h) = true ->
  SFleb (SFsub Binary32.prec Binary32.emax c h) q = true ->
  SFleb q (SFadd Binary32.prec Binary32.emax c h) = true ->
  SFeqb p q = true.
Proof.
  intros h Hp1 Hp2 Hq1 Hq2.
  apply SFleb_before in Hp1, Hp2, Hq1, Hq2.
  destruct Hp1 as (_ & Np & Hp1), Hp2 as (_ & _ & Hp2),
           Hq1 as (_ & Nq & Hq1), Hq2 as (_ & _ & Hq2).
  apply SFeqb_place. split; [exact Np|]. split; [exact Nq|].
  assert (E : place (SFsub Binary32.prec Binary32.emax c h)
              = place (SFadd Binary32.prec Binary32.emax c h)).
  { subst h. destruct c as [sc | sc | | sc mc ec], s; try destruct sc; reflexivity. }
  rewrite E in *.
  destruct (before_total (place p) (place (SFadd Binary32.prec Binary32.emax c h)))
    as [H | [H | H]]; try contradiction.
  destruct (before_total (place q) (place (SFadd Binary32.prec Binary32.emax c h)))
    as [H' | [H' | H']]; try contradiction.
  congruence.
Qed.

Lemma contains_zero_halfSize (b : Boundary) (p q : sf.Vector2f) (s : bool) :
  halfSize b = S754_zero s ->
  contains b p = true -> contains b q = true ->
  ((sf.x p ==? sf.x q)%num && (sf.y p ==? sf.y q)%num) = true.
Proof.
  intros H Hp Hq. unfold contains in Hp, Hq. rewrite H in Hp, Hq.
  apply andb_prop in Hp. destruct Hp as [Hp Hp4].
  apply andb_prop in Hp. destruct Hp as [Hp Hp3].
  apply andb_prop in Hp. destruct Hp as [Hp1 Hp2].
  apply andb_prop in Hq. destruct Hq as [Hq Hq4].
  apply andb_prop in Hq. destruct Hq as [Hq Hq3].
  apply andb_prop in Hq. destruct Hq as [Hq1 Hq2].
  apply andb_true_intro. split.
  - exact (zero_interval (sf.x (center b)) (sf.x p) (sf.x q) s Hp1 Hp2 Hq1 Hq2).
  - exact (zero_interval (sf.y (center b)) (sf.y p) (sf.y q) s Hp3 Hp4 Hq3 Hq4).
Qed.
End Degenerate.

(** ** Single precision: [insert] and [build] terminate *)

Section InsertTerminates.
#[local] Existing Instance Binary32.scalar.
Variable ps : list Particle.
Variable j : ParticlePtr.
Variable pj : Particle.
Hypothesis Hj : nth_error ps j = Some pj.

(** A full leaf whose half-size is zero, infinite or NaN: the particle is
    outside, or no child contains anything. *)
Lemma degenerate_leaf_returns (b : Boundary) (i : ParticlePtr)
      (com : sf.Vector2f) (m : num) :
  (forall s m' e, halfSize b <> S754_finite s m' e) ->
  well_formed ps (Leaf b [i] com m) ->
  away_from_stored ps pj (Leaf b [i] com m) ->
  returns ps j (Leaf b [i] com m).
Proof.
  intros Hd W Far.
  destruct (contains b (position pj)) eqn:Hc;
    [|now apply (outside_returns ps j pj Hj)].
  destruct (halfSize b) as [s | s | | s m' e] eqn:Hh.
  - exfalso. pose proof W as (_ & F & _).
    inversion F as [|? ? (pi & Hi & Ci) _]; subst.
    pose proof (Far i pi (or_introl eq_refl) Hi) as Hne.
    unfold distinct_positions in Hne.
    rewrite (contains_zero_halfSize b _ _ s Hh Ci Hc) in Hne. discriminate Hne.
  - apply (full_leaf_returns ps j pj Hj); auto.
    intros c _ _ Hq. apply (outside_returns ps j pj Hj).
    exact (contains_quadrant_of_infinite b (boundary c) _ s Hh Hq).
  - rewrite (contains_nan_halfSize b _ Hh) in Hc. discriminate Hc.
  - exfalso. exact (Hd s m' e eq_refl).
Qed.

Lemma degenerate_returns (t : QuadTreeNode) :
  (forall s m e, halfSize (boundary t) <> S754_finite s m e) ->
  well_formed ps t -> away_from_stored ps pj t -> returns ps j t.
Proof.
  induction t as [b parts com m | b parts c0 IH0 c1 IH1 c2 IH2 c3 IH3 com m];
    intros Hd W Far; cbn [boundary] in Hd.
  - destruct parts as [|i parts]; [now apply (empty_leaf_returns ps j pj Hj)|].
    pose proof W as (L & _). simpl in L. unfold MAX_PARTICLES in L.
    destruct parts; [|simpl in L; lia].
    now apply degenerate_leaf_returns.
  - destruct W as (_ & _ & _ & (B0 & B1 & B2 & B3) & W0 & W1 & W2 & W3).
    assert (Hq : forall c, In c [c0; c1; c2; c3] -> quadrant_of b (boundary c)).
    { intros c [<-|[<-|[<-|[<-|[]]]]]; unfold quadrant_of; auto. }
    assert (Hfar : forall c, In c [c0; c1; c2; c3] -> away_from_stored ps pj c).
    { intros c Hin k pk Hk. apply Far. cbn [stored]. rewrite !in_app_iff.
      destruct Hin as [<-|[<-|[<-|[<-|[]]]]]; auto 6. }
    apply (internal_returns ps j pj Hj).
    intros c Hin.
    assert (Hdc : forall s m' e, halfSize (boundary c) <> S754_finite s m' e).
    { rewrite (halfSize_quadrant b _ (Hq c Hin)). now apply half_degenerate. }
    pose proof (Hfar c Hin) as Hf.
    destruct Hin as [<-|[<-|[<-|[<-|[]]]]]; auto.
Qed.

Lemma insert_terminates (h : spec_float) :
  vanishes h ->
  forall t : QuadTreeNode,
    halfSize (boundary t) = h ->
    well_formed ps t -> away_from_stored ps pj t -> returns ps j t.
Proof.
  induction 1 as [h Hd | h _ IH]; intros t Hh W Far.
  - apply degenerate_returns; auto. now rewrite Hh.
  - destruct t as [b parts com m | b parts c0 c1 c2 c3 com m]; cbn [boundary] in Hh.
    + destruct parts as [|i parts]; [now apply (empty_leaf_returns ps j pj Hj)|].
      pose proof W as (L & _). simpl in L. unfold MAX_PARTICLES in L.
      destruct parts; [|simpl in L; lia].
      apply (full_leaf_returns ps j pj Hj); auto.
      intros c Wc Fc Hq. apply IH; auto.
      rewrite (halfSize_quadrant b _ Hq). now rewrite Hh.
    + pose proof W as (_ & _ & _ & (B0 & B1 & B2 & B3) & W0 & W1 & W2 & W3).
      assert (Hq : forall c, In c [c0; c1; c2; c3] -> quadrant_of b (boundary c)).
      { intros c [<-|[<-|[<-|[<-|[]]]]]; unfold quadrant_of; auto. }
      assert (Hfar : forall c, In c [c0; c1; c2; c3] -> away_from_stored ps pj c).
      { intros c Hin k pk Hk. apply Far. cbn [stored]. rewrite !in_app_iff.
        destruct Hin as [<-|[<-|[<-|[<-|[]]]]]; auto 6. }
      apply (internal_returns ps j pj Hj).
      intros c Hin. apply IH.
      * rewrite (halfSize_quadrant b _ (Hq c Hin)). now rewrite Hh.
      * destruct Hin as [<-|[<-|[<-|[<-|[]]]]]; auto.
      * now apply Hfar.
Qed.
End InsertTerminates.

Section BuildTerminates.
#[local] Existing Instance Binary32.scalar.

Lemma inserts_terminate (ps : list Particle) (b : Boundary) :
  is_float (halfSize b) ->
  ForallOrdPairs distinct_positions ps ->
  forall k, k <= length ps ->
    exists fuel t,
      for_each (seq 0 k) (fun i node => '(node', _) <- insert fuel ps node i ;; Ok node')
               (new_node b) = Ok t.
Proof.
  intros Hf Hap. induction k as [|k IH]; intros Hk.
  - exists 0, (new_node b). reflexivity.
  - destruct IH as (fuel1 & t & Hloop); [lia|].
    destruct (inserts_well_formed fuel1 ps _ _ Hloop (well_formed_new_node ps b))
      as [W B].
    destruct (nth_error ps k) as [pk|] eqn:Ek; [|apply nth_error_None in Ek; lia].
    destruct (insert_terminates ps k pk Ek (halfSize b) (float_vanishes _ Hf) t)
      as (fuel2 & t' & ok & Hins); auto.
    + now rewrite B.
    + intros i pi Hi Hpi.
      destruct (inserts_stored fuel1 ps k _ _ Hloop i Hi) as [[]|Hlt].
      apply (ForallOrdPairs_nth _ _ Hap i k); auto.
    + exists (Nat.max fuel1 fuel2), t'.
      rewrite seq_S, for_each_app.
      erewrite for_each_mono; [ | | exact Hloop].
      * cbn [bind for_each Nat.add].
        erewrite insert_fuel_mono; [ | | exact Hins]; [reflexivity|lia].
      * intros i u u' Hb.
        apply bind_Ok_inv in Hb. destruct Hb as ([u1 ok'] & Hi & E).
        erewrite insert_fuel_mono; [ | | exact Hi]; [exact E|lia].
Qed.

(** C10.  In single precision, for particles with pairwise distinct
    positions that all lie in the root boundary, whose half-size is any
    [float] (positive or not), [build] on a new node terminates: some
    amount of fuel, and every larger one, makes it return a tree, the same
    one, in which every leaf holds at most one particle; the aggregation
    pass returns on it. *)
Theorem build_terminates (ps : list Particle) (b : Boundary) :
  is_float (halfSize b) ->
  (forall p, In p ps -> contains b (position p) = true) ->
  ForallOrdPairs distinct_positions ps ->
  exists fuel root,
    (forall fuel', fuel <= fuel' -> build fuel' ps (new_node b) = Ok root) /\
    leaves_hold_at_most 1 root.
Proof.
  intros Hf _ Hdist.
  destruct (inserts_terminate ps b Hf Hdist (length ps) (le_n _))
    as (fuel & t & Hloop).
  destruct (inserts_well_formed fuel ps _ _ Hloop (well_formed_new_node ps b))
    as [W _].
  destruct (updateCenterOfMass_returns ps t W) as (root & Hu & Hl).
  exists fuel, root. split; [|exact Hl].
  intros fuel' Hle. unfold build.
  erewrite for_each_mono; [ | | exact Hloop].
  - exact Hu.
  - intros i u u' Hb.
    apply bind_Ok_inv in Hb. destruct Hb as ([u1 ok] & Hi & E).
    erewrite insert_fuel_mono; [ | | exact Hi]; [exact E|lia].
Qed.

Lemma build_terminates_witness :
  exists fuel root,
    (forall fuel', fuel <= fuel' -> build fuel' two_bodies (new_node square) = Ok root) /\
    leaves_hold_at_most 1 root.
Proof.
  apply build_terminates.
  - reflexivity.
  - intros p [<-|[<-|[]]]; reflexivity.
  - repeat constructor.
Defined.
End BuildTerminates.

(** ** Particles that [insert] refuses *)

Section Refused.
Context {S : Scalar}.
Variable ps : list Particle.


End Refused.

Section RootBoundary.
Context {S : Scalar} {SQ : Sqrt S}.

End RootBoundary.

Section RootBoundaryRuns.
#[local] Existing Instance Binary32.scalar.
#[local] Existing Instance Binary32.sqrt.


End RootBoundaryRuns.

(** ** Single precision: the sign of a zero does not show *)

Section SameValue.
#[local] Existing Instance Binary32.scalar.

Lemma same_value_cases (a a' : spec_float) :
  same_value a a' ->
  a = a' \/ exists s s', a = S754_zero s /\ a' = S754_zero s'.
Proof.
  destruct a, a'; cbn [same_value]; intros H; auto; right; eauto.
Qed.

Lemma SFcompare_same (a a' b b' : spec_float) :
  same_value a a' -> same_value b b' -> SFcompare a b = SFcompare a' b'.
Proof.
  intros Ha Hb.
  destruct (same_value_cases a a' Ha) as [-> | (s & s' & -> & ->)];
    destruct (same_value_cases b b' Hb) as [-> | (t & t' & -> & ->)];
    reflexivity.
Qed.

Lemma SFltb_same (a a' b b' : spec_float) :
  same_value a a' -> same_value b b' -> SFltb a b = SFltb a' b'.
Proof. intros Ha Hb. unfold SFltb. now rewrite (SFcompare_same a a' b b'). Qed.

Lemma SFleb_same (a a' b b' : spec_float) :
  same_value a a' -> same_value b b' -> SFleb a b = SFleb a' b'.
Proof. intros Ha Hb. unfold SFleb. now rewrite (SFcompare_same a a' b b'). Qed.

Lemma SFadd_same (a a' b b' : spec_float) :
  same_value a a' -> same_value b b' ->
  same_value (SFadd Binary32.prec Binary32.emax a b)
             (SFadd Binary32.prec Binary32.emax a' b').
Proof.
  intros Ha Hb.
  destruct (same_value_cases a a' Ha) as [-> | (s & s' & -> & ->)];
    destruct (same_value_cases b b' Hb) as [-> | (t & t' & -> & ->)].
  - apply same_value_refl.
  - destruct a' as [sa | sa | | sa ma ea]; cbn [SFadd same_value]; auto.
    destruct sa, t, t'; exact I.
  - destruct b' as [sb | sb | | sb mb eb]; cbn [SFadd same_value]; auto.
    destruct s, s', sb; exact I.
  - destruct s, s', t, t'; exact I.
Qed.

Lemma SFsub_same (a a' b b' : spec_float) :
  same_value a a' -> same_value b b' ->
  same_value (SFsub Binary32.prec Binary32.emax a b)
             (SFsub Binary32.prec Binary32.emax a' b').
Proof.
  intros Ha Hb.
  destruct (same_value_cases a a' Ha) as [-> | (s & s' & -> & ->)];
    destruct (same_value_cases b b' Hb) as [-> | (t & t' & -> & ->)].
  - apply same_value_refl.
  - destruct a' as [sa | sa | | sa ma ea]; cbn [SFsub same_value]; auto.
    destruct sa, t, t'; exact I.
  - destruct b' as [sb | sb | | sb mb eb]; cbn [SFsub same_value]; auto.
    destruct s, s', sb; exact I.
  - destruct s, s', t, t'; exact I.
Qed.

Lemma SFmul_same (a a' b b' : spec_float) :
  same_value a a' -> same_value b b' ->
  same_value (SFmul Binary32.prec Binary32.emax a b)
             (SFmul Binary32.prec Binary32.emax a' b').
Proof.
  intros Ha Hb.
  destruct (same_value_cases a a' Ha) as [-> | (s & s' & -> & ->)];
    destruct (same_value_cases b b' Hb) as [-> | (t & t' & -> & ->)].
  - apply same_value_refl.
  - destruct a' as [sa | sa | | sa ma ea]; cbn [SFmul same_value]; auto.
  - destruct b' as [sb | sb | | sb mb eb]; cbn [SFmul same_value]; auto.
  - exact I.
Qed.

Lemma std_max_same (a a' b b' : spec_float) :
  same_value a a' -> same_value b b' ->
  same_value (std_max a b) (std_max a' b').
Proof.
  intros Ha Hb. unfold std_max. cbn [flt Binary32.scalar].
  rewrite (SFltb_same a a' b b' Ha Hb). now destruct (SFltb a' b').
Qed.
End SameValue.

(** ** The bounding box, coordinate by coordinate *)

Section BoundsFolds.
Context {S : Scalar}.

Lemma bounds_folds (ps : list Particle) :
  forall lo hi : sf.Vector2f,
    fold_left
      (fun '(min, max) p =>
         (sf.Vec (std_min (sf.x min) (sf.x (position p)))
                 (std_min (sf.y min) (sf.y (position p))),
          sf.Vec (std_max (sf.x max) (sf.x (position p)))
                 (std_max (sf.y max) (sf.y (position p)))))
      ps (lo, hi)
    = (sf.Vec (fold_left std_min (map (fun p => sf.x (position p)) ps) (sf.x lo))
              (fold_left std_min (map (fun p => sf.y (position p)) ps) (sf.y lo)),
       sf.Vec (fold_left std_max (map (fun p => sf.x (position p)) ps) (sf.x hi))
              (fold_left std_max (map (fun p => sf.y (position p)) ps) (sf.y hi))).
Proof.
  induction ps as [|p ps IH]; intros lo hi.
  - now destruct lo, hi.
  - cbn [fold_left map]. rewrite IH. reflexivity.
Qed.
End BoundsFolds.

Section FloatBounds.
#[local] Existing Instance Binary32.scalar.

Lemma fold_min_least (vs : list spec_float) :
  forall seed : spec_float,
    seed <> S754_nan -> Forall (fun v => v <> S754_nan) vs ->
    let m := fold_left std_min vs seed in
    In m (seed :: vs) /\
    forall v, In v (seed :: vs) -> ~ before (place v) (place m).
Proof.
  induction vs as [|v vs IH]; intros seed Hs Hv; cbn [fold_left].
  - split; [now left|]. intros v [<-|[]]. apply before_irrefl.
  - inversion Hv as [|? ? Hv1 Hv2]; subst.
    cbv zeta. change (@std_min Binary32.scalar seed v) with (if SFltb v seed then v else seed).
    destruct (SFltb v seed) eqn:E.
    + apply SFltb_before in E. destruct E as (_ & _ & E).
      destruct (IH v Hv1 Hv2) as [Hin Hle]. cbv zeta in Hin, Hle.
      split; [right; exact Hin|].
      intros w [<- | Hw]; [|now apply Hle].
      intros Hb. apply (Hle v); [now left|].
      eapply before_trans; eauto.
    + destruct (IH seed Hs Hv2) as [Hin Hle]. cbv zeta in Hin, Hle.
      split; [destruct Hin as [Hin|Hin]; [now left | right; now right]|].
      intros w [<- | [<- | Hw]].
      * apply Hle. now left.
      * intros Hb.
        assert (Hn : ~ before (place v) (place seed)).
        { intros Hx. rewrite (proj2 (SFltb_before v seed)) in E; [discriminate|auto]. }
        destruct (before_total (place seed) (place (fold_left (@std_min Binary32.scalar) vs seed)))
          as [H | [H | H]].
        -- apply (Hle seed); [now left|exact H].
        -- apply Hn. now rewrite H.
        -- apply Hn. eapply before_trans; eauto.
      * apply Hle. now right.
Qed.

Lemma fold_max_greatest (vs : list spec_float) :
  forall seed : spec_float,
    seed <> S754_nan -> Forall (fun v => v <> S754_nan) vs ->
    let m := fold_left std_max vs seed in
    In m (seed :: vs) /\
    forall v, In v (seed :: vs) -> ~ before (place m) (place v).
Proof.
  induction vs as [|v vs IH]; intros seed Hs Hv; cbn [fold_left].
  - split; [now left|]. intros v [<-|[]]. apply before_irrefl.
  - inversion Hv as [|? ? Hv1 Hv2]; subst.
    cbv zeta. change (@std_max Binary32.scalar seed v) with (if SFltb seed v then v else seed).
    destruct (SFltb seed v) eqn:E.
    + apply SFltb_before in E. destruct E as (_ & _ & E).
      destruct (IH v Hv1 Hv2) as [Hin Hle]. cbv zeta in Hin, Hle.
      split; [right; exact Hin|].
      intros w [<- | Hw]; [|now apply Hle].
      intros Hb. apply (Hle v); [now left|].
      eapply before_trans; eauto.
    + destruct (IH seed Hs Hv2) as [Hin Hle]. cbv zeta in Hin, Hle.
      split; [destruct Hin as [Hin|Hin]; [now left | right; now right]|].
      intros w [<- | [<- | Hw]].
      * apply Hle. now left.
      * intros Hb.
        assert (Hn : ~ before (place seed) (place v)).
        { intros Hx. rewrite (proj2 (SFltb_before seed v)) in E; [discriminate|auto]. }
        destruct (before_total (place (fold_left (@std_max Binary32.scalar) vs seed)) (place seed))
          as [H | [H | H]].
        -- apply (Hle seed); [now left|exact H].
        -- apply Hn. now rewrite <- H.
        -- apply Hn. eapply before_trans; eauto.
      * apply Hle. now right.
Qed.

(** Over the same numbers, in whatever order, the folds return the same
    value. *)
Lemma fold_min_same (vs vs' : list spec_float) (seed seed' : spec_float) :
  Forall (fun v => v <> S754_nan) (seed :: vs) ->
  (forall v, In v (seed :: vs) <-> In v (seed' :: vs')) ->
  same_value (fold_left std_min vs seed) (fold_left std_min vs' seed').
Proof.
  intros Hn Hiff.
  assert (Hn' : Forall (fun v => v <> S754_nan) (seed' :: vs')).
  { rewrite Forall_forall in *. intros v Hv. apply Hn. now apply Hiff. }
  inversion Hn as [|? ? Hs Hv]; inversion Hn' as [|? ? Hs' Hv']; subst.
  destruct (fold_min_least vs seed Hs Hv) as [Hin Hle].
  destruct (fold_min_least vs' seed' Hs' Hv') as [Hin' Hle'].
  cbv zeta in *.
  rewrite Forall_forall in Hn, Hn'.
  apply place_same_value; [now apply Hn | now apply Hn' |].
  destruct (before_total (place (fold_left (@std_min Binary32.scalar) vs seed))
                         (place (fold_left (@std_min Binary32.scalar) vs' seed')))
    as [H | [H | H]].
  - exfalso. apply (Hle' _ (proj1 (Hiff _) Hin)). exact H.
  - exact H.
  - exfalso. apply (Hle _ (proj2 (Hiff _) Hin')). exact H.
Qed.

Lemma fold_max_same (vs vs' : list spec_float) (seed seed' : spec_float) :
  Forall (fun v => v <> S754_nan) (seed :: vs) ->
  (forall v, In v (seed :: vs) <-> In v (seed' :: vs')) ->
  same_value (fold_left std_max vs seed) (fold_left std_max vs' seed').
Proof.
  intros Hn Hiff.
  assert (Hn' : Forall (fun v => v <> S754_nan) (seed' :: vs')).
  { rewrite Forall_forall in *. intros v Hv. apply Hn. now apply Hiff. }
  inversion Hn as [|? ? Hs Hv]; inversion Hn' as [|? ? Hs' Hv']; subst.
  destruct (fold_max_greatest vs seed Hs Hv) as [Hin Hle].
  destruct (fold_max_greatest vs' seed' Hs' Hv') as [Hin' Hle'].
  cbv zeta in *.
  rewrite Forall_forall in Hn, Hn'.
  apply place_same_value; [now apply Hn | now apply Hn' |].
  destruct (before_total (place (fold_left (@std_max Binary32.scalar) vs seed))
                         (place (fold_left (@std_max Binary32.scalar) vs' seed')))
    as [H | [H | H]].
  - exfalso. apply (Hle _ (proj2 (Hiff _) Hin')). exact H.
  - exact H.
  - exfalso. apply (Hle' _ (proj1 (Hiff _) Hin)). exact H.
Qed.
End FloatBounds.

(** ** Single precision: the root boundary of a reordered vector *)

Section RootBoundaryOrder.
#[local] Existing Instance Binary32.scalar.

Lemma contains_same (b b' : Boundary) (v : sf.Vector2f) :
  same_value (sf.x (center b)) (sf.x (center b')) ->
  same_value (sf.y (center b)) (sf.y (center b')) ->
  same_value (halfSize b) (halfSize b') ->
  contains b v = contains b' v.
Proof.
  intros Hx Hy Hh. unfold contains. cbn [fle fsub fadd Binary32.scalar].
  f_equal; [f_equal; [f_equal|]|]; apply SFleb_same;
    try apply same_value_refl;
    try (apply SFsub_same; assumption); apply SFadd_same; assumption.
Qed.

Lemma coordinates_same (c : Particle -> spec_float) (first first' : Particle)
      (ps ps' : list Particle) :
  In first ps -> In first' ps' -> (forall p, In p ps <-> In p ps') ->
  forall v, In v (c first :: map c ps) <-> In v (c first' :: map c ps').
Proof.
  intros Hf Hf' Hiff v.
  assert (H : forall (f : Particle) (l : list Particle),
             In f l -> (In v (c f :: map c l) <-> In v (map c l))).
  { intros f l Hin. split; [|now right].
    intros [<- | H]; [now apply in_map | exact H]. }
  rewrite (H first ps Hf), (H first' ps' Hf'), !in_map_iff.
  split; intros (p & E & Hp); exists p; split; auto; now apply Hiff.
Qed.

(** The root boundaries of two vectors that hold the same particles, none
    at a NaN position, contain the same points. *)
Lemma rootBoundary_same (first first' : Particle) (ps ps' : list Particle) :
  In first ps -> In first' ps' -> (forall p, In p ps <-> In p ps') ->
  Forall (fun p => sf.x (position p) <> S754_nan /\
                   sf.y (position p) <> S754_nan) ps ->
  forall v, contains (BarnesHutForceCalculator.rootBoundary ps first) v
            = contains (BarnesHutForceCalculator.rootBoundary ps' first') v.
Proof.
  intros Hf Hf' Hiff Hn v.
  assert (Hnx : Forall (fun a => a <> S754_nan)
                       (sf.x (position first) :: map (fun p => sf.x (position p)) ps)).
  { rewrite Forall_forall in *. intros a [<- | Ha]; [now apply Hn|].
    apply in_map_iff in Ha. destruct Ha as (p & <- & Hp). now apply Hn. }
  assert (Hny : Forall (fun a => a <> S754_nan)
                       (sf.y (position first) :: map (fun p => sf.y (position p)) ps)).
  { rewrite Forall_forall in *. intros a [<- | Ha]; [now apply Hn|].
    apply in_map_iff in Ha. destruct Ha as (p & <- & Hp). now apply Hn. }
  pose proof (coordinates_same (fun p => sf.x (position p)) first first' ps ps'
                Hf Hf' Hiff) as Ex.
  pose proof (coordinates_same (fun p => sf.y (position p)) first first' ps ps'
                Hf Hf' Hiff) as Ey.
  pose proof (fold_min_same _ _ _ _ Hnx Ex) as Hminx.
  pose proof (fold_max_same _ _ _ _ Hnx Ex) as Hmaxx.
  pose proof (fold_min_same _ _ _ _ Hny Ey) as Hminy.
  pose proof (fold_max_same _ _ _ _ Hny Ey) as Hmaxy.
  unfold BarnesHutForceCalculator.rootBoundary, BarnesHutForceCalculator.bounds.
  rewrite !bounds_folds.
  apply contains_same; cbn [center halfSize sf.x sf.y sf.add sf.scale fmul fadd fsub
                            Binary32.scalar].
  - apply SFmul_same; [|apply same_value_refl]. now apply SFadd_same.
  - apply SFmul_same; [|apply same_value_refl]. now apply SFadd_same.
  - apply SFmul_same; [|apply same_value_refl].
    apply std_max_same; now apply SFsub_same.
Qed.
End RootBoundaryOrder.

(** ** The forces that [computeForces] returns *)

Lemma filter_none {A : Type} (f : A -> bool) (l : list A) :
  (forall a, In a l -> f a = false) -> filter f l = [].
Proof.
  induction l as [|a l IH]; intros H; [reflexivity|].
  cbn [filter]. rewrite (H a) by now left. apply IH. intros x Hx. apply H. now right.
Qed.

Lemma filter_single (f : nat -> bool) (k : nat) (l : list nat) :
  NoDup l -> In k l -> (forall i, In i l -> (f i = true <-> i = k)) ->
  filter f l = [k].
Proof.
  induction l as [|a l IH]; intros Hnd Hin H; [destruct Hin|].
  inversion Hnd as [|? ? Ha Hnd']; subst. cbn [filter].
  destruct (Nat.eq_dec a k) as [->|Hne].
  - rewrite (proj2 (H k (or_introl eq_refl)) eq_refl).
    rewrite filter_none; [reflexivity|].
    intros x Hx. destruct (f x) eqn:E; [|reflexivity].
    apply H in E; [|now right]. subst x. contradiction.
  - destruct (f a) eqn:E.
    + apply H in E; [|now left]. contradiction.
    + destruct Hin as [->|Hin]; [contradiction|].
      apply IH; auto. intros i Hi. apply H. now right.
Qed.

(** None, one or at least two of the first [n] indices satisfy [f]. *)
Lemma none_one_or_two (f : nat -> bool) (n : nat) :
  (forall i, i < n -> f i = false) \/
  (exists k, k < n /\ forall i, i < n -> (f i = true <-> i = k)) \/
  (exists k1 k2, k1 <> k2 /\ k1 < n /\ k2 < n /\ f k1 = true /\ f k2 = true).
Proof.
  induction n as [|n [IH | [(k & Hk & IH) | (k1 & k2 & Hne & H1 & H2 & F1 & F2)]]].
  - left. intros i Hi. lia.
  - destruct (f n) eqn:E.
    + right. left. exists n. split; [lia|]. intros i Hi.
      destruct (Nat.eq_dec i n) as [->|Hn]; [tauto|].
      rewrite IH by lia. split; [discriminate|contradiction].
    + left. intros i Hi. destruct (Nat.eq_dec i n) as [->|Hn]; [exact E|].
      apply IH. lia.
  - destruct (f n) eqn:E.
    + right. right. exists k, n. repeat split; try lia; auto.
      apply IH; auto.
    + right. left. exists k. split; [lia|]. intros i Hi.
      destruct (Nat.eq_dec i n) as [->|Hn].
      * rewrite E. split; [discriminate|lia].
      * apply IH. lia.
  - right. right. exists k1, k2. repeat split; auto.
Qed.

Section ClosedForm.
Context {S : Scalar} {SQ : Sqrt S}.
Hypothesis zero_eq : (lit_0 ==? lit_0)%num = true.
Hypothesis zero_not_pos : (lit_0 >? lit_0)%num = false.

(** While at most one particle lies in its boundary the root stays a
    leaf. *)
Lemma inserts_into_leaf (fuel : nat) (ps : list Particle) (b : Boundary) :
  forall (range : list nat) (parts : list ParticlePtr),
    (forall i, In i range -> i < length ps) ->
    length (parts ++ filter (inside ps b) range) <= MAX_PARTICLES ->
    for_each range
             (fun i node => '(node', _) <- insert (Datatypes.S fuel) ps node i ;; Ok node')
             (Leaf b parts sf.zero lit_0)
    = Ok (Leaf b (parts ++ filter (inside ps b) range) sf.zero lit_0).
Proof.
  induction range as [|i range IH]; intros parts Hr Hl; cbn [for_each filter].
  - now rewrite app_nil_r.
  - rewrite insert_unfold.
    destruct (at_index_lt ps (i := i)) as (q & Eq); [apply Hr; now left|].
    rewrite Eq. cbn [bind boundary].
    pose proof (proj1 (at_index_Ok ps i q) Eq) as Nq.
    cbn [filter] in Hl. unfold inside at 1 in Hl. unfold inside at 1.
    rewrite Nq in *.
    destruct (contains b (position q)) eqn:Hc; cbn [negb].
    + assert (parts = []) as ->.
      { destruct parts; [reflexivity|]. rewrite length_app in Hl. simpl in Hl.
        unfold MAX_PARTICLES in Hl. lia. }
      cbn [length Nat.ltb Nat.leb MAX_PARTICLES bind app].
      apply (IH [i]); [|exact Hl].
      intros x Hx. apply Hr. now right.
    + cbn [bind]. apply IH; [|exact Hl]. intros x Hx. apply Hr. now right.
Qed.

Lemma build_few_inside (fuel : nat) (ps : list Particle) (b : Boundary) :
  length (filter (inside ps b) (seq 0 (length ps))) <= MAX_PARTICLES ->
  build (Datatypes.S fuel) ps (new_node b)
  = updateCenterOfMass ps
      (Leaf b (filter (inside ps b) (seq 0 (length ps))) sf.zero lit_0).
Proof.
  intros H. unfold build, new_node.
  rewrite (inserts_into_leaf fuel ps b (seq 0 (length ps)) []); [reflexivity| |exact H].
  intros i Hi. apply in_seq in Hi. lia.
Qed.

(** The output of [computeForces], entry by entry. *)
Lemma computeForces_aligned
      (fuel : nat) (theta G softening : num)
      (first : Particle) (rest : list Particle) (root : QuadTreeNode) :
  let ps := first :: rest in
  build fuel ps (new_node (BarnesHutForceCalculator.rootBoundary ps first)) = Ok root ->
  exists forces,
    BarnesHutForceCalculator.computeForces fuel theta ps G softening = Ok forces /\
    length forces = length ps /\
    forall i, i < length ps ->
      exists f, computeForce ps root i sf.zero theta G softening = Ok f /\
                nth_error forces i = Some f.
Proof.
  intros ps H. subst ps.
  unfold BarnesHutForceCalculator.computeForces. rewrite H. cbn [bind].
  set (ps := first :: rest) in *.
  destruct (for_each_update
              (fun i f => computeForce ps root i f theta G softening)
              (range := seq 0 (length ps)) (repeat sf.zero (length ps)))
    as (forces & E & L & Hin & _).
  - apply seq_NoDup.
  - intros i Hi. apply in_seq in Hi. rewrite repeat_length. lia.
  - intros i a Hi. apply in_seq in Hi.
    apply (build_traversal zero_eq zero_not_pos fuel ps _ i H). lia.
  - exists forces. split; [exact E|]. rewrite repeat_length in L. split; [exact L|].
    intros i Hi. destruct (Hin i) as (a & a' & Na & Ga & Na').
    { apply in_seq. lia. }
    exists a'. split; auto.
    rewrite nth_error_repeat in Na by lia. injection Na as <-. exact Ga.
Qed.

Lemma computeForces_inv
      (fuel : nat) (theta G softening : num)
      (first : Particle) (rest : list Particle) (forces : list sf.Vector2f) :
  let ps := first :: rest in
  BarnesHutForceCalculator.computeForces fuel theta ps G softening = Ok forces ->
  exists fuel' root,
    fuel = Datatypes.S fuel' /\
    build fuel ps (new_node (BarnesHutForceCalculator.rootBoundary ps first)) = Ok root /\
    length forces = length ps /\
    forall i, i < length ps ->
      exists f, computeForce ps root i sf.zero theta G softening = Ok f /\
                nth_error forces i = Some f.
Proof.
  intros ps H. pose proof H as H0.
  unfold BarnesHutForceCalculator.computeForces in H0. fold ps in H0.
  cbv iota beta in H0. change (first :: rest) with ps in H0.
  apply bind_Ok_inv in H0. destruct H0 as (root & Hbuild & _).
  destruct fuel as [|fuel']; [discriminate Hbuild|].
  exists fuel', root. split; [reflexivity|]. split; [exact Hbuild|].
  destruct (computeForces_aligned (Datatypes.S fuel') theta G softening first rest root Hbuild)
    as (forces' & E & L & Hf).
  fold ps in E. rewrite H in E. injection E as <-. auto.
Qed.

(** No particle inside the root boundary: the root is an empty leaf. *)
Lemma none_inside_zero_forces
      (fuel : nat) (theta G softening : num) (first : Particle)
      (rest : list Particle) (forces : list sf.Vector2f) :
  let ps := first :: rest in
  let b := BarnesHutForceCalculator.rootBoundary ps first in
  (forall i, i < length ps -> inside ps b i = false) ->
  BarnesHutForceCalculator.computeForces fuel theta ps G softening = Ok forces ->
  forces = repeat sf.zero (length ps).
Proof.
  intros ps b Hnone H.
  destruct (computeForces_inv fuel theta G softening first rest forces H)
    as (fuel' & root & -> & Hbuild & L & Hf).
  fold ps in Hbuild, L, Hf. fold b in Hbuild.
  assert (E : filter (inside ps b) (seq 0 (length ps)) = []).
  { apply filter_none. intros i Hi. apply in_seq in Hi. apply Hnone. lia. }
  rewrite build_few_inside in Hbuild by (rewrite E; simpl; unfold MAX_PARTICLES; lia).
  rewrite E in Hbuild. cbn [updateCenterOfMass] in Hbuild. injection Hbuild as <-.
  apply list_eq_pointwise with (n := length ps); auto using repeat_length.
  intros i Hi. destruct (Hf i Hi) as (f & Hc & Hn).
  rewrite computeForce_skip in Hc
    by (apply skip_node_zero_mass; exact zero_eq).
  injection Hc as <-. rewrite Hn. symmetry. now apply nth_error_repeat.
Qed.

(** One particle inside the root boundary: the root is a leaf that holds
    it, and it pulls at every other particle. *)
Lemma one_inside_forces
      (fuel : nat) (theta G softening : num) (first : Particle)
      (rest : list Particle) (forces : list sf.Vector2f)
      (k : nat) (qk : Particle) :
  let ps := first :: rest in
  let b := BarnesHutForceCalculator.rootBoundary ps first in
  nth_error ps k = Some qk ->
  (forall i, i < length ps -> (inside ps b i = true <-> i = k)) ->
  BarnesHutForceCalculator.computeForces fuel theta ps G softening = Ok forces ->
  forall i qi, nth_error ps i = Some qi ->
               nth_error forces i = Some (lone_force G softening qk qi (i =? k)).
Proof.
  intros ps b Hk Hone H i qi Hi.
  destruct (computeForces_inv fuel theta G softening first rest forces H)
    as (fuel' & root & -> & Hbuild & L & Hf).
  fold ps in Hbuild, L, Hf. fold b in Hbuild.
  assert (Hkn : k < length ps) by (apply nth_error_Some; congruence).
  assert (Hin : i < length ps) by (apply nth_error_Some; congruence).
  assert (E : filter (inside ps b) (seq 0 (length ps)) = [k]).
  { apply filter_single; [apply seq_NoDup | apply in_seq; lia |].
    intros x Hx. apply in_seq in Hx. apply Hone. lia. }
  rewrite build_few_inside in Hbuild by (rewrite E; simpl; unfold MAX_PARTICLES; lia).
  rewrite E in Hbuild. cbn [updateCenterOfMass for_each] in Hbuild.
  rewrite (proj2 (at_index_Ok ps k qk) Hk) in Hbuild. cbn [bind] in Hbuild.
  injection Hbuild as <-.
  destruct (Hf i Hin) as (f & Hc & Hn). rewrite Hn. f_equal.
  cbn [computeForce] in Hc. unfold skip_node in Hc. cbn [totalMass particles] in Hc.
  unfold lone_force.
  destruct (lit_0 + mass qk ==? lit_0)%num; cbn [bind orb] in Hc |- *.
  { now injection Hc as <-. }
  cbn [length Nat.eqb] in Hc. rewrite andb_true_r in Hc.
  destruct (i =? k) eqn:Eik.
  { now injection Hc as <-. }
  rewrite (proj2 (at_index_Ok ps i qi) Hi) in Hc. cbn [bind for_each] in Hc.
  rewrite Nat.eqb_sym, Eik in Hc. cbn [negb] in Hc.
  rewrite (proj2 (at_index_Ok ps k qk) Hk) in Hc. cbn [bind] in Hc.
  now injection Hc as <-.
Qed.

(** X29.  In every arithmetic in which [0 == 0] holds and [0 > 0] does
    not: when [computeForces] returns and its root boundary contains none
    of the particles, every force is zero; when it contains exactly one,
    the particle at index [k], the root is a leaf that holds it, the force
    on that particle is zero and the force on every other particle is the
    pull of that particle alone, added to a zero force (and zero when
    [0 + mass] of that particle is zero). *)
Theorem computeForces_at_most_one_inside
        (fuel : nat) (theta G softening : num) (first : Particle)
        (rest : list Particle) (forces : list sf.Vector2f) :
  let ps := first :: rest in
  let b := BarnesHutForceCalculator.rootBoundary ps first in
  BarnesHutForceCalculator.computeForces fuel theta ps G softening = Ok forces ->
  ((forall i, i < length ps -> inside ps b i = false) ->
   forces = repeat sf.zero (length ps)) /\
  (forall k qk,
     nth_error ps k = Some qk ->
     (forall i, i < length ps -> (inside ps b i = true <-> i = k)) ->
     forall i qi, nth_error ps i = Some qi ->
                  nth_error forces i = Some (lone_force G softening qk qi (i =? k))).
Proof.
  intros ps b H. split.
  - intros Hnone.
    exact (none_inside_zero_forces fuel theta G softening first rest forces Hnone H).
  - intros k qk Hk Hone.
    exact (one_inside_forces fuel theta G softening first rest forces k qk Hk Hone H).
Qed.
End ClosedForm.

(** ** The forces of a vector with two particles exchanged *)

Lemma transpose_involutive (i j k : nat) : transpose i j (transpose i j k) = k.
Proof.
  unfold transpose.
  destruct (k =? i) eqn:E1; [apply Nat.eqb_eq in E1; subst|].
  - destruct (j =? i) eqn:E2; [now apply Nat.eqb_eq in E2|].
    now rewrite Nat.eqb_refl.
  - destruct (k =? j) eqn:E2; [apply Nat.eqb_eq in E2; subst|].
    + now rewrite Nat.eqb_refl.
    + now rewrite E1, E2.
Qed.

Lemma transpose_lt (i j k n : nat) :
  i < n -> j < n -> (transpose i j k < n <-> k < n).
Proof.
  intros Hi Hj. unfold transpose.
  destruct (k =? i) eqn:E1; [apply Nat.eqb_eq in E1; subst; tauto|].
  destruct (k =? j) eqn:E2; [apply Nat.eqb_eq in E2; subst; tauto|]. tauto.
Qed.

Lemma transpose_eq (i j a b : nat) : transpose i j a = b <-> a = transpose i j b.
Proof.
  split; intros H; [rewrite <- H | rewrite H]; now rewrite transpose_involutive.
Qed.

Lemma swapped_In {A : Type} (i j : nat) (l l' : list A) :
  swapped i j l l' -> forall a, In a l <-> In a l'.
Proof.
  intros (_ & _ & _ & H) a. split; intros Ha; apply In_nth_error in Ha;
    destruct Ha as (k & Hk).
  - apply nth_error_In with (n := transpose i j k).
    now rewrite H, transpose_involutive.
  - apply nth_error_In with (n := transpose i j k). now rewrite <- H.
Qed.

Lemma nth_error_zeros {A : Type} (a : A) (i j n k : nat) :
  i < n -> j < n ->
  nth_error (repeat a n) k = nth_error (repeat a n) (transpose i j k).
Proof.
  intros Hi Hj. destruct (Nat.lt_ge_cases k n) as [Hk | Hk].
  - rewrite !nth_error_repeat; auto. now apply transpose_lt.
  - rewrite (proj2 (nth_error_None _ _)) by (rewrite repeat_length; lia).
    symmetry. apply nth_error_None. rewrite repeat_length.
    pose proof (transpose_lt i j k n Hi Hj). lia.
Qed.

Section SwapForces.
#[local] Existing Instance Binary32.scalar.
#[local] Existing Instance Binary32.sqrt.

Lemma float_zero_eq : (lit_0 ==? lit_0)%num = true.
Proof. reflexivity. Qed.

Lemma float_zero_not_pos : (lit_0 >? lit_0)%num = false.
Proof. reflexivity. Qed.

Lemma swap_forces (fuel fuel' : nat) (theta G softening : num)
      (first first' : Particle) (rest rest' : list Particle) (i j : nat)
      (forces forces' : list sf.Vector2f) :
  let ps := first :: rest in
  let ps' := first' :: rest' in
  Forall (fun p => sf.x (position p) <> S754_nan /\
                   sf.y (position p) <> S754_nan) ps ->
  swapped i j ps ps' ->
  BarnesHutForceCalculator.computeForces fuel theta ps G softening = Ok forces ->
  BarnesHutForceCalculator.computeForces fuel' theta ps' G softening = Ok forces' ->
  swapped i j forces forces'.
Proof.
  intros ps ps' Hn Hsw H H'.
  pose proof Hsw as (Hi & Hj & Hlen & Hnth).
  set (b := BarnesHutForceCalculator.rootBoundary ps first).
  set (b' := BarnesHutForceCalculator.rootBoundary ps' first').
  assert (Hcont : forall v, contains b v = contains b' v).
  { apply rootBoundary_same; [now left | now left | | exact Hn].
    exact (swapped_In i j ps ps' Hsw). }
  assert (Hins : forall k, inside ps' b' k = inside ps b (transpose i j k)).
  { intros k. unfold inside. rewrite Hnth.
    destruct (nth_error ps (transpose i j k)); [|reflexivity]. now rewrite Hcont. }
  destruct (@computeForces_inv _ _ float_zero_eq float_zero_not_pos fuel theta G softening first rest forces H)
    as (_ & _ & _ & _ & L & _).
  destruct (@computeForces_inv _ _ float_zero_eq float_zero_not_pos fuel' theta G softening first' rest' forces' H')
    as (_ & _ & _ & _ & L' & _).
  fold ps in L. fold ps' in L'.
  unfold swapped. rewrite L, L', Hlen.
  split; [exact Hi|]. split; [exact Hj|]. split; [reflexivity|].
  destruct (none_one_or_two (inside ps b) (length ps))
    as [Hnone | [(k & Hk & Hone) | (k1 & k2 & Hne & H1 & H2 & F1 & F2)]].
  - rewrite (@none_inside_zero_forces _ _ float_zero_eq float_zero_not_pos fuel theta G softening
               first rest forces Hnone H).
    rewrite (@none_inside_zero_forces _ _ float_zero_eq float_zero_not_pos fuel' theta G softening
               first' rest' forces') ; [ | | exact H'].
    + fold ps ps'. rewrite Hlen. intros k. now apply nth_error_zeros.
    + fold ps' b'. rewrite Hlen. intros x Hx. rewrite Hins. apply Hnone.
      now apply transpose_lt.
  - destruct (nth_error ps k) as [qk|] eqn:Ek; [|apply nth_error_None in Ek; lia].
    assert (Ek' : nth_error ps' (transpose i j k) = Some qk).
    { now rewrite Hnth, transpose_involutive. }
    pose proof (@one_inside_forces _ _ float_zero_eq float_zero_not_pos fuel theta G softening
                  first rest forces k qk Ek Hone H) as Hf.
    pose proof (@one_inside_forces _ _ float_zero_eq float_zero_not_pos fuel' theta G softening
                  first' rest' forces' (transpose i j k) qk Ek') as Hf'.
    fold ps in Hf. fold ps' b' in Hf'.
    assert (Hone' : forall x, x < length ps' ->
                      (inside ps' b' x = true <-> x = transpose i j k)).
    { intros x Hx. rewrite Hins, Hone, transpose_eq; [tauto|].
      apply transpose_lt; auto. now rewrite <- Hlen. }
    specialize (Hf' Hone' H').
    intros x. destruct (nth_error ps' x) as [qx|] eqn:Ex.
    + rewrite (Hf' x qx Ex). rewrite Hnth in Ex. rewrite (Hf _ qx Ex).
      do 2 f_equal.
      destruct (x =? transpose i j k) eqn:E1, (transpose i j x =? k) eqn:E2;
        try reflexivity.
      * apply Nat.eqb_eq in E1. apply Nat.eqb_neq in E2.
        exfalso. apply E2. now apply transpose_eq.
      * apply Nat.eqb_neq in E1. apply Nat.eqb_eq in E2.
        exfalso. apply E1. now apply transpose_eq.
    + apply nth_error_None in Ex.
      rewrite (proj2 (nth_error_None forces' x)) by lia.
      symmetry. apply nth_error_None. rewrite L.
      pose proof (transpose_lt i j x (length ps) Hi Hj). lia.
  - unfold inside in F1, F2.
    destruct (nth_error ps k1) as [q1|] eqn:E1; [|discriminate].
    destruct (nth_error ps k2) as [q2|] eqn:E2; [|discriminate].
    rewrite (@two_inside_zero_forces _ _ float_zero_eq float_zero_not_pos fuel theta G softening
               first rest forces k1 k2 q1 q2 Hne E1 E2 F1 F2 H).
    rewrite (@two_inside_zero_forces _ _ float_zero_eq float_zero_not_pos fuel' theta G softening
               first' rest' forces' (transpose i j k1) (transpose i j k2) q1 q2);
      [ | | | | | | exact H'].
    + fold ps ps'. rewrite Hlen. intros k. now apply nth_error_zeros.
    + intros E. apply Hne. apply transpose_eq in E.
      now rewrite transpose_involutive in E.
    + fold ps'. now rewrite Hnth, transpose_involutive.
    + fold ps'. now rewrite Hnth, transpose_involutive.
    + fold ps' b'. now rewrite <- Hcont.
    + fold ps' b'. now rewrite <- Hcont.
Qed.
End SwapForces.

(** ** Index alignment *)

Section IndexAlignment.
#[local] Existing Instance Binary32.scalar.
#[local] Existing Instance Binary32.sqrt.

(** C4 (as amended).  For an empty input [computeForces] returns the empty
    vector.  When the build of the tree returns, it returns a vector as
    long as its input whose entry [i] is what the traversal of that tree
    for [particles[i]] adds to a zero force.  And for a vector without a
    NaN position: when [computeForces] returns for it and for the vector
    with the particles at [i] and [j] exchanged, the second output is the
    first with the forces at [i] and [j] exchanged. *)
Theorem computeForces_index_aligned
        (fuel : nat) (theta G softening : num) :
  BarnesHutForceCalculator.computeForces fuel theta [] G softening = Ok [] /\
  (forall (first : Particle) (rest : list Particle) (root : QuadTreeNode),
     let ps := first :: rest in
     build fuel ps (new_node (BarnesHutForceCalculator.rootBoundary ps first)) = Ok root ->
     exists forces,
       BarnesHutForceCalculator.computeForces fuel theta ps G softening = Ok forces /\
       length forces = length ps /\
       forall i, i < length ps ->
         exists f, computeForce ps root i sf.zero theta G softening = Ok f /\
                   nth_error forces i = Some f) /\
  (forall (ps ps' : list Particle) (i j fuel' : nat)
          (forces forces' : list sf.Vector2f),
     Forall (fun p => not_nan (position p)) ps ->
     swapped i j ps ps' ->
     BarnesHutForceCalculator.computeForces fuel theta ps G softening = Ok forces ->
     BarnesHutForceCalculator.computeForces fuel' theta ps' G softening = Ok forces' ->
     swapped i j forces forces').
Proof.
  split; [reflexivity|]. split.
  - intros first rest root.
    exact (@computeForces_aligned _ _ float_zero_eq float_zero_not_pos
             fuel theta G softening first rest root).
  - intros ps ps' i j fuel' forces forces' Hn Hsw H H'.
    destruct ps as [|first rest]; [destruct Hsw as (Hi & _); simpl in Hi; lia|].
    destruct ps' as [|first' rest']; [destruct Hsw as (_ & _ & Hl & _); discriminate Hl|].
    exact (swap_forces fuel fuel' theta G softening first first' rest rest' i j
                       forces forces' Hn Hsw H H').
Qed.

Lemma computeForces_index_aligned_witness :
  let pull : sf.Vector2f :=
    @sf.Vec Binary32.scalar (S754_finite false 4 (-149)) (S754_zero false) in
  BarnesHutForceCalculator.computeForces 10 lit_0_5 tiny_pair
    (Binary32.of_Z 1) (Binary32.of_Z 1) = Ok [sf.zero; pull] /\
  BarnesHutForceCalculator.computeForces 10 lit_0_5 (rev tiny_pair)
    (Binary32.of_Z 1) (Binary32.of_Z 1) = Ok [pull; sf.zero] /\
  swapped 0 1 [sf.zero; pull] [pull; sf.zero].
Proof.
  intros pull.
  split; [reflexivity|]. split; [reflexivity|].
  destruct (computeForces_index_aligned 10 lit_0_5 (Binary32.of_Z 1) (Binary32.of_Z 1))
    as (_ & _ & H).
  apply (H tiny_pair (rev tiny_pair) 0 1 10).
  - repeat constructor; discriminate.
  - split; [exact (le_S 1 1 (le_n 1))|]. split; [exact (le_n 2)|].
    split; [reflexivity|]. intros [|[|k]]; reflexivity.
  - reflexivity.
  - reflexivity.
Defined.
End IndexAlignment.

(** ** The guard of [computeForce] on a node that was split after its mass
    was computed *)

Section GrownRoot.
#[local] Existing Instance Binary32.scalar.
#[local] Existing Instance Binary32.sqrt.

(** C9 (the code does not do what the claim says).  [build] on a new node
    for the first of the two bodies, then [insert] of the second body, both
    public members of [QuadTreeNode]: the root is split, it is an internal
    node without particles of its own whose [totalMass] is still that of
    the first body, and [computeForce] on it reads [particles.front()] of
    the empty vector, for every query particle and every [theta], [G] and
    softening. *)
Theorem computeForce_reads_front_of_empty :
  build 10 [body 1 1 1] (new_node square) = Ok one_body_root /\
  insert 10 two_bodies one_body_root 1 = Ok (grown_root, true) /\
  isLeaf grown_root = false /\
  particles grown_root = [] /\
  (totalMass grown_root >? lit_0)%num = true /\
  (totalMass grown_root ==? lit_0)%num = false /\
  forall (particle : ParticlePtr) (force : sf.Vector2f) (theta G softening : num),
    skip_node grown_root particle = Undefined /\
    computeForce two_bodies grown_root particle force theta G softening = Undefined.
Proof.
  do 6 (split; [reflexivity|]).
  intros particle force theta G softening.
  assert (H : skip_node grown_root particle = Undefined).
  { unfold grown_root. now apply skip_node_internal_with_mass. }
  split; [exact H|].
  unfold grown_root in *. cbn [computeForce]. rewrite H. reflexivity.
Qed.
End GrownRoot.

(** ** The all-pairs sum of [NBodySimulation::computeForces] *)

Section PairwiseMore.
Context {S : Scalar} {SQ : Sqrt S}.

Lemma pulls_on_S (G SOFTENING : num) (ps : list Particle) (i k : nat) :
  pulls_on G SOFTENING ps i (Datatypes.S k)
  = if negb (i =? k) then
      match nth_error ps i, nth_error ps k with
      | Some pi, Some pj => (pulls_on G SOFTENING ps i k + pull_of G SOFTENING pi pj)%vec
      | _, _ => pulls_on G SOFTENING ps i k
      end
    else pulls_on G SOFTENING ps i k.
Proof. unfold pulls_on. rewrite seq_S, fold_left_app. reflexivity. Qed.

(** The double loop computes the sums, and reads and writes inside the
    vectors only. *)
Lemma computeForces_pairwise_sum (G SOFTENING : num) (ps : list Particle) :
  NBodySimulation.computeForces G SOFTENING ps = Ok (pairwise_sum G SOFTENING ps).
Proof.
  unfold NBodySimulation.computeForces.
  set (n := length ps).
  destruct (@for_each_count _
              (fun k (forces : list sf.Vector2f) =>
                 length forces = n /\
                 (forall i, i < k ->
                            nth_error forces i = Some (pulls_on G SOFTENING ps i n)) /\
                 (forall i, k <= i -> i < n -> nth_error forces i = Some sf.zero))
              n
              (fun i forces =>
                 for_each (seq 0 n)
                   (fun j forces =>
                      if negb (i =? j) then
                        pi <- at_index ps i ;;
                        pj <- at_index ps j ;;
                        let r := (position pj - position pi)%vec in
                        let r2 := (sf.x r * sf.x r + sf.y r * sf.y r
                                   + SOFTENING * SOFTENING)%num in
                        let r3 := (r2 * fsqrt r2)%num in
                        let F := (G * mass pi * mass pj / r3)%num in
                        f <- at_index forces i ;;
                        set_index forces i (f + r *: F)%vec
                      else Ok forces)
                   forces)
              (repeat sf.zero n)) as (forces & E & Hlen & Hlow & _).
  - split; [apply repeat_length|]. split; [intros i Hi; lia|].
    intros i _ Hi. now apply nth_error_repeat.
  - intros i forces Hi (Hlen & Hlow & Hhigh).
    destruct (@for_each_count _
                (fun k (w : list sf.Vector2f) =>
                   length w = n /\
                   nth_error w i = Some (pulls_on G SOFTENING ps i k) /\
                   (forall i', i' <> i -> nth_error w i' = nth_error forces i'))
                n
                (fun j forces =>
                   if negb (i =? j) then
                     pi <- at_index ps i ;;
                     pj <- at_index ps j ;;
                     let r := (position pj - position pi)%vec in
                     let r2 := (sf.x r * sf.x r + sf.y r * sf.y r
                                + SOFTENING * SOFTENING)%num in
                     let r3 := (r2 * fsqrt r2)%num in
                     let F := (G * mass pi * mass pj / r3)%num in
                     f <- at_index forces i ;;
                     set_index forces i (f + r *: F)%vec
                   else Ok forces)
                forces) as (w & Ew & Hwlen & Hwi & Hwo).
    + split; [exact Hlen|]. split; [|reflexivity]. apply Hhigh; lia.
    + intros j w Hj (Hwlen & Hwi & Hwo). rewrite pulls_on_S.
      destruct (negb (i =? j)); [|exists w; auto].
      destruct (nth_error ps i) as [pi|] eqn:Epi;
        [|apply nth_error_None in Epi; fold n in Epi; lia].
      destruct (nth_error ps j) as [pj|] eqn:Epj;
        [|apply nth_error_None in Epj; fold n in Epj; lia].
      unfold at_index at 1 2. rewrite Epi, Epj. cbn [bind].
      unfold at_index. rewrite Hwi. cbn [bind].
      destruct (@set_index_Ok _ w i
                  (pulls_on G SOFTENING ps i j + pull_of G SOFTENING pi pj)%vec)
        as (w' & Es & Hl' & Hn' & Ho'); [lia|].
      exists w'. split; [exact Es|]. split; [lia|]. split; [exact Hn'|].
      intros i' Hi'. rewrite Ho'; auto.
    + exists w. split; [exact Ew|]. split; [exact Hwlen|]. split.
      * intros i' Hi'. destruct (Nat.eq_dec i' i) as [->|Hne]; [exact Hwi|].
        rewrite Hwo; auto. apply Hlow. lia.
      * intros i' Hi' Hn. rewrite Hwo; [|lia]. apply Hhigh; lia.
  - etransitivity; [exact E|]. f_equal. apply list_eq_pointwise with (n := n); auto.
    + unfold pairwise_sum. now rewrite length_map, length_seq.
    + intros i Hi. rewrite Hlow; auto. unfold pairwise_sum.
      rewrite nth_error_map, nth_error_seq.
      fold n. destruct (Nat.ltb_spec i n); [reflexivity|lia].
Qed.

(** X13.  [NBodySimulation::computeForces] returns for every particle
    vector, without reading or writing outside a vector, one force for each
    particle: the pulls of the other particles, added in the order of their
    indices. *)
Theorem computeForces_is_pairwise_sum (G SOFTENING : num) (ps : list Particle) :
  NBodySimulation.computeForces G SOFTENING ps = Ok (pairwise_sum G SOFTENING ps) /\
  length (pairwise_sum G SOFTENING ps) = length ps /\
  forall i, i < length ps ->
            nth_error (pairwise_sum G SOFTENING ps) i
            = Some (pulls_on G SOFTENING ps i (length ps)).
Proof.
  split; [apply computeForces_pairwise_sum|].
  unfold pairwise_sum. split; [now rewrite length_map, length_seq|].
  intros i Hi. rewrite nth_error_map, nth_error_seq.
  destruct (Nat.ltb_spec i (length ps)); [reflexivity|lia].
Qed.

Lemma Forall2_nth_error_both {A B : Type} (R : A -> B -> Prop) (l : list A)
      (l' : list B) :
  Forall2 R l l' ->
  forall i, match nth_error l i, nth_error l' i with
            | Some a, Some b => R a b
            | None, None => True
            | _, _ => False
            end.
Proof.
  induction 1 as [|a b l l' Hab _ IH]; intros [|i]; simpl; auto. apply IH.
Qed.

Lemma Forall2_pointwise {A B : Type} (R : A -> B -> Prop) (l : list A) (l' : list B) :
  length l' = length l ->
  (forall i a b, nth_error l i = Some a -> nth_error l' i = Some b -> R a b) ->
  Forall2 R l l'.
Proof.
  revert l'. induction l as [|a l IH]; intros [|b l'] L H; try discriminate.
  - constructor.
  - constructor; [exact (H 0 a b eq_refl eq_refl)|].
    apply IH; [simpl in L; lia|]. intros i. exact (H (Datatypes.S i)).
Qed.

(** X14.  The all-pairs forces depend on the positions and the masses of
    the particles only: velocity, acceleration and the [fixed] flag are
    not read. *)
Theorem computeForces_reads_places_only (G SOFTENING : num) (ps qs : list Particle) :
  same_places ps qs ->
  NBodySimulation.computeForces G SOFTENING qs
  = NBodySimulation.computeForces G SOFTENING ps.
Proof.
  intros H. rewrite !computeForces_pairwise_sum. f_equal.
  unfold pairwise_sum. rewrite <- (Forall2_length H).
  apply map_ext. intros i. generalize (length ps) as k.
  induction k as [|k IH]; [reflexivity|].
  rewrite !pulls_on_S, IH. destruct (negb (i =? k)); [|reflexivity].
  pose proof (Forall2_nth_error_both _ _ _ H i) as Hi.
  pose proof (Forall2_nth_error_both _ _ _ H k) as Hk.
  destruct (nth_error ps i) as [pi|], (nth_error qs i) as [qi|]; try tauto.
  destruct (nth_error ps k) as [pk|], (nth_error qs k) as [qk|]; try tauto.
  unfold pull_of. destruct Hi as [-> ->], Hk as [-> ->]. reflexivity.
Qed.
End PairwiseMore.

(** ** More on [RungeKuttaIntegrator::integrate] *)

Section IntegrateMore.
Context {S : Scalar}.
Import RungeKuttaIntegrator.

(** X17.  [integrate] changes no mass and no [fixed] flag and keeps the
    number of particles, whatever the force function returns. *)
Theorem integrate_keeps_bodies (particles particles' : list Particle)
        (forceFunc : ForceFunc) (dt : num) :
  integrate particles forceFunc dt = Ok particles' ->
  same_bodies particles particles'.
Proof.
  unfold integrate. intros H.
  repeat (apply bind_Ok_inv in H; destruct H as (? & _ & H)).
  revert H. apply (for_each_invariant (same_bodies particles)).
  - intros i cur cur' _ Hs Hb.
    apply bind_Ok_inv in Hb. destruct Hb as (p & Hp & Hb). apply at_index_Ok in Hp.
    destruct (negb (fixed p)); [|now injection Hb as <-].
    repeat (apply bind_Ok_inv in Hb; destruct Hb as (? & _ & Hb)).
    eapply Forall2_set_index; [exact Hs | exact Hp | | exact Hb].
    intros a Ha. exact Ha.
  - apply same_bodies_refl.
Qed.

(** A loop that fails at the index [m]. *)
Lemma for_each_fails {T : Type} (Inv : nat -> T -> Prop) (n m : nat)
      (body : nat -> T -> result T) (s : T) :
  m < n -> Inv 0 s ->
  (forall k t, k < m -> Inv k t -> exists t', body k t = Ok t' /\ Inv (Datatypes.S k) t') ->
  (forall t, Inv m t -> body m t = Undefined) ->
  for_each (seq 0 n) body s = Undefined.
Proof.
  intros Hm H0 Hstep Hfail.
  replace n with (m + Datatypes.S (n - m - 1)) by lia.
  rewrite seq_app, for_each_app.
  destruct (@for_each_count _ Inv m body s H0 Hstep) as (s' & E & Hs').
  rewrite E. cbn [bind seq for_each plus]. rewrite (Hfail s' Hs'). reflexivity.
Qed.

(** X18.  [integrate] relies on the force function to return one force
    for each particle: when the first evaluation returns a vector of another
    length, a vector is indexed out of range (the temporary particles when
    there are too many forces, the derivative of the velocities when there
    are too few) and the behaviour is undefined. *)
Theorem integrate_undefined_on_wrong_length (particles : list Particle)
        (forceFunc : ForceFunc) (dt : num) (forces : list sf.Vector2f) :
  let rest := mkDerivative (repeat sf.zero (length particles))
                           (repeat sf.zero (length particles)) in
  forceFunc (displaced particles rest lit_0) = Ok forces ->
  length forces <> length particles ->
  integrate particles forceFunc dt = Undefined.
Proof.
  intros rest Hf Hlen. unfold integrate. fold rest.
  set (n := length particles) in *.
  assert (Hrest : length (dpos rest) = n /\ length (dvel rest) = n)
    by (split; apply repeat_length).
  destruct Hrest as [Hr1 Hr2].
  pose proof (displace_displaced particles rest lit_0 Hr1 Hr2) as Hd.
  cbv zeta in Hd.
  pose proof (length_displaced particles rest lit_0 Hr1 Hr2) as Hsnap.
  set (snapshot := displaced particles rest lit_0) in *.
  unfold evaluate at 1. rewrite Hd. cbn [bind]. rewrite Hf. cbn [bind].
  destruct (Nat.lt_ge_cases (length particles) (length forces)) as [Hgt | Hle].
  - (* too many forces *)
    rewrite (@for_each_fails _ (fun _ out => length out = length forces)
               (length forces) n); [reflexivity | exact Hgt | | | ].
    + apply repeat_length.
    + intros k out Hk Hout.
      destruct (@at_index_lt _ forces k) as (f & ->); [unfold n in *; lia|].
      destruct (@at_index_lt _ snapshot k) as (tp & ->); [unfold n in *; lia|].
      cbn [bind].
      destruct (@set_index_Ok _ out k (f /: mass tp)%vec) as (out' & -> & L & _);
        [unfold n in *; lia|].
      exists out'. split; [reflexivity|lia].
    + intros out Hout.
      destruct (@at_index_lt _ forces n) as (f & ->); [exact Hgt|].
      cbn [bind]. unfold at_index.
      replace (nth_error snapshot n) with (@None Particle); [reflexivity|].
      symmetry. apply nth_error_None. lia.
  - (* too few forces *)
    assert (Hm : length forces < n) by (unfold n in *; lia).
    destruct (@for_each_count _ (fun _ out => length out = length forces)
                (length forces)
                (fun i out =>
                   f <- at_index forces i ;;
                   tp <- at_index snapshot i ;;
                   set_index out i (f /: mass tp)%vec)
                (repeat sf.zero (length forces))) as (dvel' & -> & Hdv).
    + apply repeat_length.
    + intros k out Hk Hout.
      destruct (@at_index_lt _ forces k) as (f & ->); [lia|].
      destruct (@at_index_lt _ snapshot k) as (tp & ->); [lia|].
      cbn [bind].
      destruct (@set_index_Ok _ out k (f /: mass tp)%vec) as (out' & -> & L & _);
        [lia|].
      exists out'. split; [reflexivity|lia].
    + cbn [bind]. unfold evaluate at 1. unfold displace.
      cbn [positions velocities dpos dvel]. rewrite !length_map. fold n.
      rewrite (@for_each_fails _
                 (fun _ (st : State * list Particle) =>
                    length (positions (fst st)) = n /\
                    length (velocities (fst st)) = n /\ length (snd st) = n)
                 n (length forces)); [reflexivity | exact Hm | | | ].
      * cbn [fst snd positions velocities]. rewrite !repeat_length. auto.
      * intros k [state tmp] Hk (L1 & L2 & L3). cbn [fst snd] in *.
        destruct (@at_index_lt _ (map position particles) k) as (x0 & ->);
          [rewrite length_map; fold n; lia|].
        destruct (@at_index_lt _ (map velocity snapshot) k) as (dx & ->);
          [rewrite length_map; lia|].
        cbn [bind].
        destruct (@set_index_Ok _ (positions state) k (x0 + dx *: (dt * lit_0_5)%num)%vec)
          as (ps' & -> & Lp & _); [lia|].
        destruct (@at_index_lt _ (map velocity particles) k) as (v0 & ->);
          [rewrite length_map; fold n; lia|].
        destruct (@at_index_lt _ dvel' k) as (dv & ->); [lia|].
        cbn [bind].
        destruct (@set_index_Ok _ (velocities state) k (v0 + dv *: (dt * lit_0_5)%num)%vec)
          as (vs' & -> & Lv & _); [lia|].
        destruct (@at_index_lt _ tmp k) as (tp & ->); [lia|].
        cbn [bind].
        destruct (@set_index_Ok _ tmp k
                    (set_position tp (x0 + dx *: (dt * lit_0_5)%num)%vec))
          as (t1 & -> & Lt1 & _); [lia|].
        cbn [bind].
        destruct (@at_index_lt _ t1 k) as (tp1 & ->); [lia|].
        cbn [bind].
        destruct (@set_index_Ok _ t1 k
                    (set_velocity tp1 (v0 + dv *: (dt * lit_0_5)%num)%vec))
          as (t2 & -> & Lt2 & _); [lia|].
        cbn [bind]. eexists. split; [reflexivity|].
        cbn [fst snd positions velocities]. lia.
      * intros [state tmp] (L1 & L2 & L3). cbn [fst snd] in *.
        destruct (@at_index_lt _ (map position particles) (length forces)) as (x0 & ->);
          [rewrite length_map; fold n; lia|].
        destruct (@at_index_lt _ (map velocity snapshot) (length forces)) as (dx & ->);
          [rewrite length_map; lia|].
        cbn [bind].
        destruct (@set_index_Ok _ (positions state) (length forces)
                    (x0 + dx *: (dt * lit_0_5)%num)%vec)
          as (ps' & -> & Lp & _); [lia|].
        destruct (@at_index_lt _ (map velocity particles) (length forces)) as (v0 & ->);
          [rewrite length_map; fold n; lia|].
        cbn [bind]. unfold at_index at 1.
        replace (nth_error dvel' (length forces)) with (@None sf.Vector2f);
          [reflexivity|].
        symmetry. apply nth_error_None. lia.
Qed.
End IntegrateMore.

(** ** One step of the simulation *)

Section SimulationStep.
Context {S : Scalar} {SQ : Sqrt S}.
Import RungeKuttaIntegrator.

(** [integrate] as the step of the four estimates. *)
Lemma integrate_rk4_step (particles : list Particle) (forceFunc : ForceFunc) (dt : num) :
  (forall qs forces, same_bodies particles qs -> forceFunc qs = Ok forces ->
                     length forces = length qs) ->
  integrate particles forceFunc dt = rk4_step particles forceFunc dt.
Proof.
  intros Hf. unfold integrate, rk4_step.
  set (rest := mkDerivative (repeat sf.zero (length particles))
                            (repeat sf.zero (length particles))).
  destruct (evaluate_stage forceFunc rest lit_0 Hf) as [E1 L1];
    [apply repeat_length ..|].
  rewrite E1. destruct (rk4_stage particles forceFunc rest lit_0) as [k1| |];
    cbn [bind]; auto.
  destruct (L1 k1 eq_refl) as [X1 V1].
  destruct (evaluate_stage forceFunc k1 (dt * lit_0_5)%num Hf X1 V1) as [E2 L2].
  rewrite E2. destruct (rk4_stage particles forceFunc k1 (dt * lit_0_5)%num) as [k2| |];
    cbn [bind]; auto.
  destruct (L2 k2 eq_refl) as [X2 V2].
  destruct (evaluate_stage forceFunc k2 (dt * lit_0_5)%num Hf X2 V2) as [E3 L3].
  rewrite E3. destruct (rk4_stage particles forceFunc k2 (dt * lit_0_5)%num) as [k3| |];
    cbn [bind]; auto.
  destruct (L3 k3 eq_refl) as [X3 V3].
  destruct (evaluate_stage forceFunc k3 dt Hf X3 V3) as [E4 L4].
  rewrite E4. destruct (rk4_stage particles forceFunc k3 dt) as [k4| |];
    cbn [bind]; auto.
  destruct (L4 k4 eq_refl) as [X4 V4].
  apply update_loop.
  intros k [<-|[<-|[<-|[<-|[]]]]]; auto.
Qed.

(** X20.  The physics update of [NBodySimulation::run], [integrate] with
    the all-pairs [computeForces] as its force function, is defined for
    every particle vector, every [G], softening and [dt]: no vector is read
    or written out of range; and it is the Runge-Kutta step of the four
    estimates. *)
Theorem simulation_step_returns (G SOFTENING dt : num) (particles : list Particle) :
  exists particles',
    integrate particles (NBodySimulation.computeForces G SOFTENING) dt = Ok particles' /\
    rk4_step particles (NBodySimulation.computeForces G SOFTENING) dt = Ok particles' /\
    length particles' = length particles.
Proof.
  assert (E : integrate particles (NBodySimulation.computeForces G SOFTENING) dt
              = rk4_step particles (NBodySimulation.computeForces G SOFTENING) dt).
  { apply integrate_rk4_step. intros qs forces _ H.
    exact (pairwise_forces_length _ _ _ _ H). }
  assert (R : exists particles',
             rk4_step particles (NBodySimulation.computeForces G SOFTENING) dt
             = Ok particles').
  { unfold rk4_step, rk4_stage.
    rewrite computeForces_pairwise_sum. cbn [bind].
    rewrite computeForces_pairwise_sum. cbn [bind].
    rewrite computeForces_pairwise_sum. cbn [bind].
    rewrite computeForces_pairwise_sum. cbn [bind].
    eexists. reflexivity. }
  destruct R as [particles' R]. exists particles'.
  rewrite E. split; [exact R|]. split; [exact R|].
  rewrite <- E in R. exact (proj1 (integrate_frame particles _ dt R)).
Qed.
End SimulationStep.

(** ** [Particle::updateTrail] *)

Section TrailWindow.
Context {S : Scalar}.

(** X23.  [updateTrail] keeps a sliding window: a trail that holds at most
    [maxLength] positions holds, after any number of calls, the last
    [maxLength] of the positions it held and was given, oldest first, and
    so never more than [maxLength]. *)
Theorem updateTrail_keeps_last (maxLength : nat) (positions trail : list sf.Vector2f) :
  length trail <= maxLength ->
  let trail' := fold_left (fun t p => updateTrail t p maxLength) positions trail in
  trail' = skipn (length (trail ++ positions) - maxLength) (trail ++ positions) /\
  length trail' <= maxLength.
Proof.
  intros H trail'. subst trail'.
  assert (E : fold_left (fun t p => updateTrail t p maxLength) positions trail
              = skipn (length (trail ++ positions) - maxLength) (trail ++ positions)).
  { revert trail H. induction positions as [|p positions IH]; intros trail H.
    - cbn [fold_left]. rewrite app_nil_r.
      replace (length trail - maxLength) with 0 by lia. reflexivity.
    - cbn [fold_left]. unfold updateTrail at 2.
      rewrite length_app. cbn [length].
      destruct (Nat.ltb_spec maxLength (length trail + 1)) as [Hfull | Hroom].
      + assert (Hl : length trail = maxLength) by lia.
        rewrite IH.
        * replace (tl (trail ++ [p]) ++ positions) with (tl (trail ++ p :: positions)).
          -- replace (length (trail ++ p :: positions) - maxLength)
               with (Datatypes.S (length (tl (trail ++ p :: positions)) - maxLength)).
             ++ destruct (trail ++ p :: positions) eqn:Et; [|reflexivity].
                destruct trail; discriminate.
             ++ destruct trail; cbn [app tl length]; rewrite ?length_app;
                  cbn [length] in *; lia.
          -- destruct trail; cbn [app tl]; [reflexivity|].
             now rewrite <- app_assoc.
        * destruct trail; cbn [app tl length] in *; [lia|].
          rewrite length_app. cbn [length]. lia.
      + rewrite IH; [|rewrite length_app; cbn [length]; lia].
        now rewrite <- app_assoc. }
  split; [exact E|]. rewrite E, length_skipn. lia.
Qed.
End TrailWindow.

(** ** Not-a-number positions in the all-pairs sum *)

Section NaNSpreads.
#[local] Existing Instance Binary32.scalar.
#[local] Existing Instance Binary32.sqrt.

Lemma SFadd_nan (a b : spec_float) :
  a = S754_nan \/ b = S754_nan -> SFadd Binary32.prec Binary32.emax a b = S754_nan.
Proof. intros [-> | ->]; [reflexivity|]. destruct a; reflexivity. Qed.

Lemma SFsub_nan (a b : spec_float) :
  a = S754_nan \/ b = S754_nan -> SFsub Binary32.prec Binary32.emax a b = S754_nan.
Proof. intros [-> | ->]; [reflexivity|]. destruct a; reflexivity. Qed.

Lemma SFmul_nan_l (b : spec_float) :
  SFmul Binary32.prec Binary32.emax S754_nan b = S754_nan.
Proof. reflexivity. Qed.

Section Coordinate.
Variable c : sf.Vector2f -> spec_float.
Hypothesis c_add : forall a b, c (a + b)%vec = (c a + c b)%num.
Hypothesis c_sub : forall a b, c (a - b)%vec = (c a - c b)%num.
Hypothesis c_scale : forall a k, c (a *: k)%vec = (c a * k)%num.
Variables G SOFTENING : spec_float.
Variable ps : list Particle.

(** The sum of the pulls on [i] is NaN in a coordinate as soon as it has
    a term in which one of the two positions is NaN in that coordinate. *)
Lemma pulls_on_nan (i : nat) :
  forall k,
    (exists j pi pj, j < k /\ j <> i /\ nth_error ps i = Some pi /\
                     nth_error ps j = Some pj /\
                     (c (position pi) = S754_nan \/ c (position pj) = S754_nan)) ->
    c (pulls_on G SOFTENING ps i k) = S754_nan.
Proof.
  induction k as [|k IH]; intros (j & pi & pj & Hj & Hne & Hi & Hpj & Hnan); [lia|].
  rewrite pulls_on_S.
  destruct (Nat.eqb_spec i k) as [->|Hik]; cbn [negb].
  - apply IH. exists j, pi, pj. repeat split; auto. lia.
  - rewrite Hi. destruct (nth_error ps k) as [pk|] eqn:Hk.
    + rewrite c_add. apply SFadd_nan.
      destruct (Nat.eq_dec j k) as [->|Hjk].
      * right. assert (pk = pj) by congruence. subst pk.
        unfold pull_of, attraction. rewrite c_scale, c_sub.
        cbn [fmul fsub Binary32.scalar].
        rewrite (SFsub_nan (c (position pj)) (c (position pi))) by tauto.
        apply SFmul_nan_l.
      * left. apply IH. exists j, pi, pj. repeat split; auto. lia.
    + apply IH. exists j, pi, pj. repeat split; auto.
      destruct (Nat.eq_dec j k) as [->|Hjk]; [congruence|lia].
Qed.

Lemma pairwise_sum_nan (k : nat) (pk : Particle) :
  nth_error ps k = Some pk -> c (position pk) = S754_nan -> 2 <= length ps ->
  forall i f, nth_error (pairwise_sum G SOFTENING ps) i = Some f -> c f = S754_nan.
Proof.
  intros Hk Hnan Hlen i f Hf.
  assert (Hkn : k < length ps) by (apply nth_error_Some; congruence).
  unfold pairwise_sum in Hf. rewrite nth_error_map, nth_error_seq in Hf.
  destruct (Nat.ltb_spec i (length ps)) as [Hi|]; [|discriminate].
  cbn [option_map plus] in Hf. injection Hf as <-.
  destruct (nth_error ps i) as [pi|] eqn:Hpi; [|apply nth_error_None in Hpi; lia].
  apply pulls_on_nan.
  destruct (Nat.eq_dec i k) as [->|Hik].
  - (* the particle itself: any other particle gives a NaN term *)
    assert (pi = pk) by congruence. subst pi.
    destruct (Nat.eq_dec k 0) as [->|Hk0].
    + destruct (nth_error ps 1) as [p1|] eqn:H1; [|apply nth_error_None in H1; lia].
      exists 1, pk, p1. repeat split; auto; lia.
    + destruct (nth_error ps 0) as [p0|] eqn:H0; [|apply nth_error_None in H0; lia].
      exists 0, pk, p0. repeat split; auto; lia.
  - exists k, pi, pk. repeat split; auto.
Qed.
End Coordinate.

(** X25.  One NaN position spoils every force: in IEEE single precision,
    if some particle of a vector of two particles or more has a NaN
    coordinate, every force that [NBodySimulation::computeForces] returns
    is NaN in that coordinate, the force on the particle itself and the
    forces on all the others. *)
Theorem computeForces_nan_spreads (G SOFTENING : spec_float) (ps : list Particle)
        (forces : list sf.Vector2f) (k : nat) (pk : Particle) :
  nth_error ps k = Some pk -> 2 <= length ps ->
  NBodySimulation.computeForces G SOFTENING ps = Ok forces ->
  length forces = length ps /\
  (sf.x (position pk) = S754_nan ->
   forall i f, nth_error forces i = Some f -> sf.x f = S754_nan) /\
  (sf.y (position pk) = S754_nan ->
   forall i f, nth_error forces i = Some f -> sf.y f = S754_nan).
Proof.
  intros Hk Hlen E. split; [exact (pairwise_forces_length _ _ _ _ E)|].
  rewrite computeForces_pairwise_sum in E. injection E as <-.
  split; intros Hnan.
  - exact (pairwise_sum_nan sf.x (fun _ _ => eq_refl) (fun _ _ => eq_refl)
             (fun _ _ => eq_refl) G SOFTENING ps k pk Hk Hnan Hlen).
  - exact (pairwise_sum_nan sf.y (fun _ _ => eq_refl) (fun _ _ => eq_refl)
             (fun _ _ => eq_refl) G SOFTENING ps k pk Hk Hnan Hlen).
Qed.
End NaNSpreads.

(** ** More on single precision *)

Section SinglePrecisionMore.
#[local] Existing Instance Binary32.scalar.
#[local] Existing Instance Binary32.sqrt.

Lemma vanishes_iter (h : spec_float) :
  vanishes h -> exists n, forall s m e, Nat.iter n half h <> S754_finite s m e.
Proof.
  induction 1 as [h Hd | h _ (n & IH)].
  - exists 0. exact Hd.
  - exists (Datatypes.S n). now rewrite Nat.iter_succ_r.
Qed.

(** X27.  The half-size of the children is the half-size of the node
    times [0.5f].  In single precision this cannot go on for ever: from
    every [float], halving a number of times gives a half-size that is no
    finite number other than zero. *)
Theorem halfSize_vanishes (h : spec_float) :
  is_float h -> exists n, forall s m e, Nat.iter n half h <> S754_finite s m e.
Proof. intros H. apply vanishes_iter. now apply float_vanishes. Qed.

(** X28.  The root boundary does not depend on the order of the particles:
    in single precision, for two vectors that hold the same particles, none
    at a NaN position, [computeForces] computes root boundaries that
    contain the same points. *)
Theorem rootBoundary_order_independent
        (first first' : Particle) (rest rest' : list Particle) :
  (forall p, In p (first :: rest) <-> In p (first' :: rest')) ->
  Forall (fun p => not_nan (position p)) (first :: rest) ->
  forall v,
    contains (BarnesHutForceCalculator.rootBoundary (first :: rest) first) v
    = contains (BarnesHutForceCalculator.rootBoundary (first' :: rest') first') v.
Proof.
  intros Hiff Hn. apply rootBoundary_same; auto; now left.
Qed.
End SinglePrecisionMore.

(** ** Single precision: [Boundary::intersects] *)

Section Intersects.
#[local] Existing Instance Binary32.scalar.

(** Two intervals with a common number: neither lies beyond the other. *)
Lemma no_gap (lo hi lo' hi' p : spec_float) :
  SFleb lo p = true -> SFleb p hi = true ->
  SFleb lo' p = true -> SFleb p hi' = true ->
  SFltb hi lo' = false /\ SFltb hi' lo = false.
Proof.
  intros H1 H2 H3 H4.
  apply SFleb_before in H1, H2, H3, H4.
  destruct H1 as (_ & _ & H1), H2 as (_ & _ & H2),
           H3 as (_ & _ & H3), H4 as (_ & _ & H4).
  split.
  - destruct (SFltb hi lo') eqn:E; [exfalso|reflexivity].
    apply SFltb_before in E. destruct E as (_ & _ & E).
    destruct (before_total (place p) (place hi)) as [H | [H | H]].
    + apply H3. eapply before_trans; eauto.
    + apply H3. now rewrite H.
    + contradiction.
  - destruct (SFltb hi' lo) eqn:E; [exfalso|reflexivity].
    apply SFltb_before in E. destruct E as (_ & _ & E).
    destruct (before_total (place p) (place hi')) as [H | [H | H]].
    + apply H1. eapply before_trans; eauto.
    + apply H1. now rewrite H.
    + contradiction.
Qed.

(** X30.  In single precision two boundaries that contain a common point
    intersect. *)
Theorem common_point_intersects (b other : Boundary) (p : sf.Vector2f) :
  contains b p = true -> contains other p = true -> intersects b other = true.
Proof.
  intros Hb Ho. unfold contains in Hb, Ho.
  cbn [fle fsub fadd Binary32.scalar] in Hb, Ho.
  apply andb_prop in Hb. destruct Hb as [Hb Hb4].
  apply andb_prop in Hb. destruct Hb as [Hb Hb3].
  apply andb_prop in Hb. destruct Hb as [Hb1 Hb2].
  apply andb_prop in Ho. destruct Ho as [Ho Ho4].
  apply andb_prop in Ho. destruct Ho as [Ho Ho3].
  apply andb_prop in Ho. destruct Ho as [Ho1 Ho2].
  destruct (no_gap _ _ _ _ _ Hb1 Hb2 Ho1 Ho2) as [Hx1 Hx2].
  destruct (no_gap _ _ _ _ _ Hb3 Hb4 Ho3 Ho4) as [Hy1 Hy2].
  unfold intersects. cbn [flt fsub fadd Binary32.scalar].
  now rewrite Hx1, Hx2, Hy1, Hy2.
Qed.
End Intersects.

(** ** Single precision: [insert] returns *)

Section InsertReturnsFloat.
#[local] Existing Instance Binary32.scalar.

(** X31.  In single precision [insert] terminates: into a tree made by
    insertions into a new node, whose half-size is a [float], the [insert]
    of a particle that lies at another place than every particle of the
    tree returns, with some amount of fuel and with every larger one, true
    or false. *)
Theorem insert_returns (ps : list Particle) (j : ParticlePtr) (pj : Particle)
        (t : QuadTreeNode) :
  nth_error ps j = Some pj ->
  is_float (halfSize (boundary t)) ->
  well_formed ps t -> away_from_stored ps pj t ->
  exists fuel t' ok,
    forall fuel', fuel <= fuel' -> insert fuel' ps t j = Ok (t', ok).
Proof.
  intros Hj Hf W Far.
  destruct (insert_terminates ps j pj Hj (halfSize (boundary t))
              (float_vanishes _ Hf) t eq_refl W Far) as (fuel & t' & ok & H).
  exists fuel, t', ok. intros fuel' Hle.
  eapply insert_fuel_mono; eauto.
Qed.
End InsertReturnsFloat.

(** ** Single precision: the kinetic energy *)

Section EnergySign.
#[local] Existing Instance Binary32.scalar.

Lemma not_negative_iff (a : spec_float) :
  not_negative a <-> SFltb a (S754_zero false) = false.
Proof.
  destruct a as [s | [] | | [] m e]; cbn; split; intros H;
    try reflexivity; try exact I; try contradiction; discriminate H.
Qed.

(** Rounding keeps the sign. *)
Lemma binary_round_aux_sign (sx : bool) (mx ex : Z) (lx : location) :
  match binary_round_aux Binary32.prec Binary32.emax sx mx ex lx with
  | S754_zero s | S754_infinity s | S754_finite s _ _ => s = sx
  | S754_nan => True
  end.
Proof.
  unfold binary_round_aux.
  destruct (shr_fexp _ _ mx ex lx) as [mrs' e'].
  destruct (shr_fexp _ _ _ e' loc_Exact) as [mrs'' e''].
  destruct (shr_m mrs''); [reflexivity | | exact I].
  destruct (Z.leb e'' _); reflexivity.
Qed.

Lemma binary_round_aux_not_negative (mx ex : Z) (lx : location) :
  not_negative (binary_round_aux Binary32.prec Binary32.emax false mx ex lx).
Proof.
  pose proof (binary_round_aux_sign false mx ex lx) as H.
  destruct (binary_round_aux _ _ false mx ex lx); cbn; subst; exact I.
Qed.

Lemma SFmul_not_negative (a b : spec_float) :
  not_negative a -> not_negative b ->
  not_negative (SFmul Binary32.prec Binary32.emax a b).
Proof.
  destruct a as [sa | [] | | [] ma ea]; cbn [not_negative]; intros Ha;
    try contradiction;
    destruct b as [sb | [] | | [] mb eb]; cbn [not_negative]; intros Hb;
    try contradiction; try exact I.
  cbn [SFmul xorb]. apply binary_round_aux_not_negative.
Qed.

Lemma SFmul_square (a : spec_float) :
  not_negative (SFmul Binary32.prec Binary32.emax a a).
Proof.
  destruct a as [s | s | | s m e]; cbn [SFmul not_negative]; try exact I.
  - now destruct s.
  - rewrite xorb_nilpotent. apply binary_round_aux_not_negative.
Qed.

Lemma SFadd_not_negative (a b : spec_float) :
  not_negative a -> not_negative b ->
  not_negative (SFadd Binary32.prec Binary32.emax a b).
Proof.
  destruct a as [sa | [] | | [] ma ea]; cbn [not_negative]; intros Ha;
    try contradiction;
    destruct b as [sb | [] | | [] mb eb]; cbn [not_negative]; intros Hb;
    try contradiction; try exact I.
  - destruct sa, sb; exact I.
  - cbn [SFadd cond_Zopp Z.add binary_normalize]. cbv zeta. unfold binary_round.
    destruct (shl_align _ _ _) as [mz ez].
    apply binary_round_aux_not_negative.
Qed.

Lemma kineticEnergy_not_negative (p : Particle) :
  not_negative (mass p) -> not_negative (kineticEnergy p).
Proof.
  intros Hm. unfold kineticEnergy. cbn [fmul fadd lit_0_5 Binary32.scalar].
  apply SFmul_not_negative.
  - apply SFmul_not_negative; [exact I | exact Hm].
  - apply SFadd_not_negative; apply SFmul_square.
Qed.

(** X32.  In single precision, when no particle has a mass below zero the
    total kinetic energy that [calculateTotalEnergy] returns is not below
    zero: it is zero, positive, infinite or NaN. *)
Theorem calculateTotalEnergy_not_negative (ps : list Particle) :
  Forall (fun p => (mass p <? lit_0)%num = false) ps ->
  (calculateTotalEnergy ps <? lit_0)%num = false.
Proof.
  intros H. cbn [flt lit_0 Binary32.scalar]. apply not_negative_iff.
  unfold calculateTotalEnergy.
  assert (Hacc : forall acc, not_negative acc ->
            not_negative (fold_left (fun totalKE p => (totalKE + kineticEnergy p)%num)
                                    ps acc)).
  { induction H as [|p ps Hp _ IH]; intros acc Hacc; cbn [fold_left]; [exact Hacc|].
    apply IH. cbn [fadd Binary32.scalar]. apply SFadd_not_negative; [exact Hacc|].
    apply kineticEnergy_not_negative. now apply not_negative_iff. }
  apply Hacc. exact I.
Qed.
End EnergySign.

(** ** The theorems at work *)

Section SinglePrecisionWitnesses.
#[local] Existing Instance Binary32.scalar.
#[local] Existing Instance Binary32.sqrt.

Lemma computeForce_skips_empty_and_self_witness :
  particles (Leaf square [0] sf.zero (Binary32.of_Z 1)) = [0] /\
  computeForce two_bodies (Leaf square [0] sf.zero (Binary32.of_Z 1)) 0 sf.zero
               lit_0_5 (Binary32.of_Z 1) (Binary32.of_Z 1) = Ok sf.zero.
Proof.
  split; [reflexivity|].
  apply computeForce_skips_empty_and_self. right. reflexivity.
Defined.

Lemma built_tree_guard_defined_witness :
  build 10 two_bodies (new_node square) = Ok two_bodies_tree /\
  exists f, computeForce two_bodies two_bodies_tree 1 sf.zero
                         lit_0_5 (Binary32.of_Z 1) (Binary32.of_Z 1) = Ok f.
Proof.
  split; [reflexivity|].
  destruct (@built_tree_guard_defined Binary32.scalar Binary32.sqrt eq_refl eq_refl
              10 two_bodies square two_bodies_tree 1 eq_refl) as [_ H].
  apply H. apply le_n.
Defined.

Lemma integrate_is_rk4_witness :
  RungeKuttaIntegrator.integrate sun_and_planet pull (Binary32.of_Z 1)
  = rk4_step sun_and_planet pull (Binary32.of_Z 1).
Proof.
  apply integrate_is_rk4.
  intros qs forces _ H. exact (pairwise_forces_length _ _ _ _ H).
Defined.

Lemma integrate_keeps_fixed_particles_witness :
  RungeKuttaIntegrator.integrate sun_and_planet pull (Binary32.of_Z 1)
  = Ok sun_and_planet_stepped /\
  nth_error sun_and_planet_stepped 0 = Some sun.
Proof.
  split; [reflexivity|].
  destruct (@integrate_keeps_fixed_particles Binary32.scalar
              sun_and_planet sun_and_planet_stepped pull (Binary32.of_Z 1) eq_refl)
    as (_ & H & _).
  apply (H 0 sun); reflexivity.
Defined.

Lemma evaluate_divides_by_any_mass_witness :
  (mass (body 1 1 0) <=? lit_0)%num = true /\
  exists k,
    RungeKuttaIntegrator.evaluate
      (RungeKuttaIntegrator.mkState (map position with_massless)
                                    (map velocity with_massless))
      lit_0 (at_rest 2) pull with_massless = Ok k /\
    nth_error (RungeKuttaIntegrator.dvel k) 0 = Some (sf.Vec S754_nan S754_nan).
Proof.
  split; [reflexivity|].
  destruct (@evaluate_divides_by_any_mass Binary32.scalar
              with_massless pull (at_rest 2) lit_0 [sf.zero; sf.zero]
              eq_refl eq_refl eq_refl eq_refl) as (k & E & _ & H).
  exists k. split; [exact E|].
  exact (H 0 (body 1 1 0) sf.zero eq_refl eq_refl).
Defined.
End SinglePrecisionWitnesses.

(** ** The further theorems at work *)

Section MoreSinglePrecisionWitnesses.
#[local] Existing Instance Binary32.scalar.
#[local] Existing Instance Binary32.sqrt.

Lemma insert_keeps_shape_witness :
  exists t' ok,
    insert 10 two_bodies (Leaf square [0] sf.zero lit_0) 1 = Ok (t', ok) /\
    well_formed two_bodies t' /\ boundary t' = square /\
    leaves_hold_at_most MAX_PARTICLES t'.
Proof.
  eexists. eexists. split; [reflexivity|].
  eapply (insert_keeps_shape two_bodies 10 (Leaf square [0] sf.zero lit_0) _ 1 _).
  - split; [exact (le_n 1)|]. split; [|split; reflexivity].
    constructor; [|constructor]. exists (body 1 1 1). split; reflexivity.
  - reflexivity.
Defined.

Lemma insert_stores_what_it_accepts_witness :
  exists t',
    insert 10 two_bodies (Leaf square [0] sf.zero lit_0) 1 = Ok (t', true) /\
    incl (stored t') [1; 0] /\ In 1 (stored t').
Proof.
  eexists. split; [reflexivity|].
  destruct (insert_stores_what_it_accepts two_bodies 10
              (Leaf square [0] sf.zero lit_0) _ 1 true eq_refl) as [H1 H2].
  split; [exact H1 | exact (H2 eq_refl)].
Defined.

Lemma build_stores_only_inside_witness :
  exists root,
    build 10 (two_bodies ++ [far_body]) (new_node square) = Ok root /\
    ~ In 2 (stored root).
Proof.
  eexists. split; [reflexivity|].
  destruct (build_stores_only_inside 10 (two_bodies ++ [far_body]) square _ eq_refl)
    as (_ & _ & H).
  apply (H 2 far_body); reflexivity.
Defined.

Lemma computeForces_zero_for_two_inside_witness :
  exists forces,
    BarnesHutForceCalculator.computeForces 10 lit_0_5 two_bodies
      (Binary32.of_Z 1) (Binary32.of_Z 1) = Ok forces /\
    forces = [sf.zero; sf.zero].
Proof.
  eexists. split; [reflexivity|].
  exact (@computeForces_zero_for_two_inside Binary32.scalar Binary32.sqrt
           eq_refl eq_refl 10 lit_0_5 (Binary32.of_Z 1) (Binary32.of_Z 1)
           (body 1 1 1) [body (-1) (-1) 2] _ 0 1
           (body 1 1 1) (body (-1) (-1) 2)
           (fun E => O_S _ E) eq_refl eq_refl eq_refl eq_refl eq_refl).
Defined.

Lemma build_never_stores_nan_witness :
  exists root,
    build 10 [body 1 1 1; nan_body] (new_node square) = Ok root /\
    ~ In 1 (stored root).
Proof.
  eexists. split; [reflexivity|].
  eapply (build_never_stores_nan 10 [body 1 1 1; nan_body] square _ 1 nan_body);
    [reflexivity | reflexivity | left; reflexivity].
Defined.

Lemma computeForces_reads_places_only_witness :
  NBodySimulation.computeForces (Binary32.of_Z 1) (Binary32.of_Z 1)
    (map (fun p => RungeKuttaIntegrator.set_velocity p (position p)) two_bodies)
  = NBodySimulation.computeForces (Binary32.of_Z 1) (Binary32.of_Z 1) two_bodies.
Proof.
  apply computeForces_reads_places_only.
  repeat constructor.
Defined.

Lemma integrate_keeps_bodies_witness :
  RungeKuttaIntegrator.integrate sun_and_planet pull (Binary32.of_Z 1)
  = Ok sun_and_planet_stepped /\
  same_bodies sun_and_planet sun_and_planet_stepped.
Proof.
  split; [reflexivity|].
  apply (integrate_keeps_bodies sun_and_planet sun_and_planet_stepped pull
           (Binary32.of_Z 1)).
  reflexivity.
Defined.

Lemma integrate_undefined_on_wrong_length_witness :
  RungeKuttaIntegrator.integrate two_bodies (fun _ => Ok [sf.zero]) (Binary32.of_Z 1)
  = Undefined.
Proof.
  apply (integrate_undefined_on_wrong_length two_bodies (fun _ => Ok [sf.zero])
           (Binary32.of_Z 1) [sf.zero]).
  - reflexivity.
  - simpl. lia.
Defined.

Lemma computeForces_lone_particle_witness :
  BarnesHutForceCalculator.computeForces 1 lit_0_5 [nan_body]
    (Binary32.of_Z 1) (Binary32.of_Z 1) = Ok [sf.zero] /\
  NBodySimulation.computeForces (Binary32.of_Z 1) (Binary32.of_Z 1) [nan_body]
  = Ok [sf.zero].
Proof.
  exact (@computeForces_lone_particle Binary32.scalar Binary32.sqrt eq_refl
           0 lit_0_5 (Binary32.of_Z 1) (Binary32.of_Z 1) nan_body).
Defined.

Lemma computeForces_nan_spreads_witness :
  exists forces f,
    NBodySimulation.computeForces (Binary32.of_Z 1) (Binary32.of_Z 1)
      [body 1 1 1; nan_body] = Ok forces /\
    nth_error forces 0 = Some f /\ sf.x f = S754_nan.
Proof.
  eexists. eexists. split; [reflexivity|]. split; [reflexivity|].
  destruct (computeForces_nan_spreads (Binary32.of_Z 1) (Binary32.of_Z 1)
              [body 1 1 1; nan_body] _ 1 nan_body eq_refl (le_n 2) eq_refl)
    as (_ & Hx & _).
  exact (Hx eq_refl 0 _ eq_refl).
Defined.
End MoreSinglePrecisionWitnesses.

(** ** The theorems of single precision at work *)

Section FloatWitnesses.
#[local] Existing Instance Binary32.scalar.
#[local] Existing Instance Binary32.sqrt.

Lemma updateTrail_keeps_last_witness :
  fold_left (fun t p => updateTrail t p 2) waypoints [sf.zero]
  = skipn 2 (sf.zero :: waypoints).
Proof.
  exact (proj1 (updateTrail_keeps_last 2 waypoints [sf.zero] (le_S 1 1 (le_n 1)))).
Defined.

Lemma halfSize_vanishes_witness :
  exists n, forall s m e, Nat.iter n half (Binary32.of_Z 2) <> S754_finite s m e.
Proof. apply halfSize_vanishes. reflexivity. Defined.

Lemma rootBoundary_order_independent_witness :
  contains (BarnesHutForceCalculator.rootBoundary two_bodies (body 1 1 1))
           (position far_body)
  = contains (BarnesHutForceCalculator.rootBoundary
                [body (-1) (-1) 2; body 1 1 1] (body (-1) (-1) 2))
             (position far_body).
Proof.
  apply (rootBoundary_order_independent
           (body 1 1 1) (body (-1) (-1) 2) [body (-1) (-1) 2] [body 1 1 1]).
  - intros p. simpl. tauto.
  - repeat constructor; discriminate.
Defined.

Lemma computeForces_at_most_one_inside_witness :
  let tiny_pull : sf.Vector2f :=
    @sf.Vec Binary32.scalar (S754_finite false 4 (-149)) (S754_zero false) in
  BarnesHutForceCalculator.computeForces 10 lit_0_5 tiny_pair
    (Binary32.of_Z 1) (Binary32.of_Z 1)
  = Ok [sf.zero; tiny_pull] /\
  nth_error [sf.zero; tiny_pull] 1
  = Some (lone_force (Binary32.of_Z 1) (Binary32.of_Z 1)
                     (body_at (S754_finite false 8388610 (-147)) one)
                     (body_at (S754_finite false 8388609 (-147)) one) false).
Proof.
  intros tiny_pull. split; [reflexivity|].
  destruct (@computeForces_at_most_one_inside Binary32.scalar Binary32.sqrt
              eq_refl eq_refl 10 lit_0_5 (Binary32.of_Z 1) (Binary32.of_Z 1)
              (body_at (S754_finite false 8388610 (-147)) one)
              [body_at (S754_finite false 8388609 (-147)) one]
              [sf.zero; tiny_pull]
              eq_refl) as [_ H].
  apply (H 0 (body_at (S754_finite false 8388610 (-147)) one) eq_refl).
  - intros [|[|i]] Hi; [split; reflexivity | split; discriminate | simpl in Hi; lia].
  - reflexivity.
Defined.
End FloatWitnesses.

Section IntersectsWitness.
#[local] Existing Instance Binary32.scalar.

Lemma common_point_intersects_witness :
  contains point (position (body 1 1 1)) = true /\ intersects square point = true.
Proof.
  split; [reflexivity|].
  apply (common_point_intersects square point (position (body 1 1 1))); reflexivity.
Defined.

Lemma insert_returns_witness :
  exists fuel t' ok,
    forall fuel', fuel <= fuel' ->
      insert fuel' two_bodies (Leaf square [0] sf.zero lit_0) 1 = Ok (t', ok).
Proof.
  apply (insert_returns two_bodies 1 (body (-1) (-1) 2)).
  - reflexivity.
  - reflexivity.
  - split; [exact (le_n 1)|]. split; [|split; reflexivity].
    constructor; [|constructor]. exists (body 1 1 1). split; reflexivity.
  - intros i pi [<- | []] Hi. injection Hi as <-. reflexivity.
Defined.
End IntersectsWitness.

Section EnergyWitness.
#[local] Existing Instance Binary32.scalar.
#[local] Existing Instance Binary32.sqrt.

Lemma calculateTotalEnergy_not_negative_witness :
  calculateTotalEnergy sun_and_planet_stepped = S754_finite false 10517746 (-23) /\
  (calculateTotalEnergy sun_and_planet_stepped <? lit_0)%num = false.
Proof.
  split; [reflexivity|].
  apply calculateTotalEnergy_not_negative.
  repeat constructor.
Defined.
End EnergyWitness.
